(** * OML: collection URI parsing, the PostgreSQL adapter and the zlib helpers

    A shallow embedding of

    - [parse_uri] and [oml_uri_type] (lib/ocomm/test/client.c),
    - the PostgreSQL backend of the server (server/psql_adapter.c):
      binary encoders, [psql_insert], the key/value store, sender
      allocation and table rediscovery,
    - [oml_zlib_def] and [oml_zlib_inf] (lib/shared/zlib_utils.c),

    followed by the properties of the specification that concern them. *)

From Stdlib Require Import ZArith Lia Ascii String.
From stdpp Require Import gmap strings list pretty.

Open Scope Z_scope.

(** ** Logging

    [logerror], [logwarn], [logdebug] append a line to the host log.  The
    log is kept as the list of lines in the order they were written, each
    with its level and the text of the message (without the prefix that
    names the database, and without the final newline). *)

Inductive log_level := LogError | LogWarn | LogInfo | LogDebug.

Definition log_line : Type := log_level * string.

#[global] Instance log_level_eq_dec : EqDecision log_level.
Proof. solve_decision. Defined.

(** [is_warning l] tells whether the line was written by [logwarn]. *)
Definition is_warning (l : log_line) : bool :=
  match fst l with LogWarn => true | _ => false end.

(** ** C strings

    A [char*] that may be NULL is an [option string]; the bytes of a
    non-NULL one are those before its terminating NUL. *)

Definition cstr : Type := option string.

Definition in_delim (c : ascii) (delim : string) : bool :=
  existsb (fun d => bool_decide (c = d)) (list_ascii_of_string delim).

(** The scan of strsep(3) over a non-NULL string: the token before the
    first delimiter, and what follows that delimiter ([None] when no
    delimiter occurs, in which case strsep sets [*stringp] to NULL). *)
Fixpoint strsep_scan (delim : string) (s : string) : string * cstr :=
  match s with
  | EmptyString => (EmptyString, None)
  | String c s' =>
      if in_delim c delim then (EmptyString, Some s')
      else let '(tok, rest) := strsep_scan delim s' in (String c tok, rest)
  end.

(** [strsep stringp delim] returns the token and the new value of [*stringp]. *)
Definition strsep (stringp : cstr) (delim : string) : cstr * cstr :=
  match stringp with
  | None => (None, None)
  | Some s => let '(tok, rest) := strsep_scan delim s in (Some tok, rest)
  end.

(** [strlen] in the guarded form the source always uses:
    [p ? strlen (p) : 0]. *)
Definition strlen0 (p : cstr) : nat :=
  match p with Some s => String.length s | None => 0%nat end.

(** ** Collection URIs (lib/ocomm/test/client.c) *)

Module Uri.

(** Modelled from the spec: the [OmlURIType] enumeration, whose header is
    not among the sources.  The specification lists the schemes file, flush,
    tcp and udp, the first two being file sinks and the last two network
    protocols; the numbering keeps each pair adjacent, as
    [oml_uri_is_file] and [oml_uri_is_network] test ranges. *)
Inductive OmlURIType :=
| OML_URI_UNKNOWN
| OML_URI_FILE
| OML_URI_FILE_FLUSH
| OML_URI_TCP
| OML_URI_UDP.

Definition uri_type_code (t : OmlURIType) : Z :=
  match t with
  | OML_URI_UNKNOWN => -1
  | OML_URI_FILE => 0
  | OML_URI_FILE_FLUSH => 1
  | OML_URI_TCP => 2
  | OML_URI_UDP => 3
  end.

#[global] Instance OmlURIType_eq_dec : EqDecision OmlURIType.
Proof. solve_decision. Defined.

(** [len >= n && !strncmp (uri, lit, n)] with [n = strlen (lit)]. *)
Definition starts_with (lit uri : string) : bool :=
  (String.length lit <=? String.length uri)%nat && String.prefix lit uri.

Definition oml_uri_type (uri : cstr) : OmlURIType :=
  match uri with
  | None => OML_URI_UNKNOWN
  | Some uri =>
      if starts_with "flush" uri then OML_URI_FILE_FLUSH
      else if starts_with "file" uri then OML_URI_FILE
      else if starts_with "tcp" uri then OML_URI_TCP
      else if starts_with "udp" uri then OML_URI_UDP
      else OML_URI_UNKNOWN
  end.

Definition oml_uri_is_file (t : OmlURIType) : bool :=
  (uri_type_code OML_URI_FILE <=? uri_type_code t)
  && (uri_type_code t <=? uri_type_code OML_URI_FILE_FLUSH).

Definition oml_uri_is_network (t : OmlURIType) : bool :=
  (uri_type_code OML_URI_TCP <=? uri_type_code t)
  && (uri_type_code t <=? uri_type_code OML_URI_UDP).

(** The two arrays of [parse_uri], indexed by [i]. *)
Record uri_parts := {
  parts : list cstr;
  lengths : list nat
}.

Definition part (p : uri_parts) (i : nat) : cstr := default None (parts p !! i).
Definition len_of (p : uri_parts) (i : nat) : nat := default 0%nat (lengths p !! i).

Definition set_part (i : nat) (s : cstr) (p : uri_parts) : uri_parts :=
  {| parts := <[i := s]> (parts p); lengths := lengths p |}.

(** [lengths[i] = parts[i] ? strlen (parts[i]) : 0] *)
Definition measure_part (i : nat) (p : uri_parts) : uri_parts :=
  {| parts := parts p; lengths := <[i := strlen0 (part p i)]> (lengths p) |}.

(** [parts[i] = NULL; lengths[i] = 0] *)
Definition clear_part (i : nat) (p : uri_parts) : uri_parts :=
  {| parts := <[i := None]> (parts p); lengths := <[i := 0%nat]> (lengths p) |}.

Definition MAX_PARTS : nat := 3.

(** [for (++i; i<MAX_PARTS; i++) { parts[i] = NULL; lengths[i] = 0; }] *)
Definition clear_unused (i : nat) (p : uri_parts) : uri_parts :=
  foldl (fun q j => clear_part j q) p (seq (S i) (MAX_PARTS - S i)).

(** The splitting half of [parse_uri]: the arrays and the index [i] at the
    end of the [if (parts[2]) ... else ...] statement. *)
Definition split_uri (uri : string) : uri_parts * nat :=
  let p0 := {| parts := [None; None; Some uri]; lengths := [0; 0; 0]%nat |} in
  (* parts[0] = strsep (&parts[2], "["); *)
  let '(tok, rest) := strsep (part p0 2) "[" in
  let p := set_part 0 tok (set_part 2 rest p0) in
  match part p 2 with
  | Some _ =>
      let i := 0%nat in
      let '(p, i) :=
        if bool_decide (part p i = Some EmptyString) then (p, i)
        else
          (* there was something before the brackets *)
          let tmp := part p i in
          let '(tok, _) := strsep tmp ":" in
          (measure_part i (set_part i tok p), S i) in
      (* parts[i] = strsep (&parts[2], "]"); *)
      let '(tok, rest) := strsep (part p 2) "]" in
      let p := set_part i tok (set_part 2 rest p) in
      let p := measure_part i p in
      let i := S i in
      (* parts[i] = parts[2]; tmp = strsep (&parts[i], ":"); *)
      let p := set_part i (part p 2) p in
      let '(_, rest) := strsep (part p i) ":" in
      let p := set_part i rest p in
      let p := measure_part i p in
      (p, i)
  | None =>
      (* restart the parsing *)
      let p := set_part 2 (part p 0) p in
      let i := 0%nat in
      let '(tok, rest) := strsep (part p 2) ":" in
      let p := set_part i tok (set_part 2 rest p) in
      let p := measure_part i p in
      let i := S i in
      let '(tok, rest) := strsep (part p 2) ":" in
      let p := set_part i tok (set_part 2 rest p) in
      let p := measure_part i p in
      let i := S i in
      let p := measure_part i p in
      (p, i)
  end.

(** [trydup(i)] *)
Definition trydup (p : uri_parts) (i : nat) : cstr :=
  match part p i with
  | Some s => if (0 <? len_of p i)%nat then Some (String.substring 0 (len_of p i) s) else None
  | None => None
  end.

(** What [parse_uri] leaves behind: its return value, the three out
    parameters ([None] when they were not written at all, which only
    happens for a NULL [uri]) and the lines it logged. *)
Record parse_result := {
  pr_ret : Z;
  pr_out : option (cstr * cstr * cstr);
  pr_log : list log_line
}.

Definition parse_uri (uri : cstr) : parse_result :=
  match uri with
  | None => {| pr_ret := 0; pr_out := None; pr_log := [] |}
  | Some u =>
      let uri_type := oml_uri_type uri in
      let '(p, i) := split_uri u in
      let p := clear_unused i p in
      if (0 <? len_of p 0)%nat && (0 <? len_of p 1)%nat then
        (* Case 1: "abc:xyz" or "abc:xyz:123" *)
        if oml_uri_is_network uri_type then
          {| pr_ret := 0; pr_out := Some (trydup p 0, trydup p 1, trydup p 2);
             pr_log := [] |}
        else if oml_uri_is_file uri_type then
          {| pr_ret := 0; pr_out := Some (trydup p 0, trydup p 1, None);
             pr_log := [] |}
        else
          {| pr_ret := 0; pr_out := Some (None, trydup p 0, trydup p 1);
             pr_log := [] |}
      else if (0 <? len_of p 0)%nat && (0 <? len_of p 2)%nat then
        (* Case 2: "abc::123" *)
        {| pr_ret := -1; pr_out := Some (None, None, None);
           pr_log := [(LogWarn, "Server URI '" +:+ u +:+
                         "' is invalid as it does not contain a hostname/path")] |}
      else if (0 <? len_of p 0)%nat then
        let path := trydup p 0 in
        {| pr_ret := 0; pr_out := Some (None, path, None);
           pr_log :=
             if bool_decide (uri_type ≠ OML_URI_UNKNOWN) then
               [(LogWarn, "Server URI with unknown scheme, assuming 'tcp:"
                            +:+ default "(null)" path +:+ "'")]
             else [] |}
      else
        {| pr_ret := -1; pr_out := Some (None, None, None);
           pr_log := [(LogError, "Server URI '" +:+ u +:+ "' seems to be empty")] |}
  end.

(** A URI made of one token: not empty, and free of the two characters
    [parse_uri] splits at. *)
Definition single_token (s : string) : bool :=
  negb (bool_decide (s = EmptyString))
  && forallb (fun c => negb (in_delim c "[") && negb (in_delim c ":"))
       (list_ascii_of_string s).

(** A string in which none of the characters of [delim] occurs. *)
Definition free_of (delim : string) (s : string) : bool :=
  forallb (fun c => negb (in_delim c delim)) (list_ascii_of_string s).

(** What [trydup] makes of a part whose recorded length is its length:
    NULL for NULL and for the empty string, a copy otherwise. *)
Definition nonempty (p : cstr) : cstr :=
  match p with
  | Some EmptyString => None
  | p => p
  end.

End Uri.

(** ** The PostgreSQL adapter (server/psql_adapter.c) *)

Module Psql.

(** *** Bytes and scratch buffers *)

(** A byte is an integer in [0, 255]; a scratch buffer
    ([psqltable->values[i]]) is the list of its bytes. *)
Definition buffer : Type := list Z.

(** The [n] bytes of [v] in network order, most significant first, as
    [htonl] and [htonll] leave them in memory.  A negative [v] gives its
    two's complement. *)
Fixpoint be_bytes (n : nat) (v : Z) : list Z :=
  match n with
  | O => []
  | S n' => Z.land (Z.shiftr v (8 * Z.of_nat n')) 255 :: be_bytes n' v
  end.

(** Writing [bs] at the start of a buffer leaves the bytes behind it. *)
Definition poke (bs : list Z) (buf : buffer) : buffer :=
  bs ++ drop (length bs) buf.

(** The bytes of a C string, with its terminating NUL. *)
Definition cbytes (s : string) : list Z :=
  map (fun c => Z.of_nat (nat_of_ascii c)) (list_ascii_of_string s) ++ [0].

(** The text libpq reads from a buffer bound in text format: the bytes
    before the first NUL. *)
Fixpoint until_nul (buf : buffer) : list Z :=
  match buf with
  | [] => []
  | b :: buf' => if b =? 0 then [] else b :: until_nul buf'
  end.

(** Conversions between the C integer types. *)
Definition wrap_unsigned (bits : Z) (v : Z) : Z := v mod 2 ^ bits.
Definition wrap_signed (bits : Z) (v : Z) : Z :=
  (v + 2 ^ (bits - 1)) mod 2 ^ bits - 2 ^ (bits - 1).

Definition int8_of (v : Z) : Z := wrap_signed 8 v.
Definition int32_of (v : Z) : Z := wrap_signed 32 v.
Definition int64_of (v : Z) : Z := wrap_signed 64 v.
Definition uint32_of (v : Z) : Z := wrap_unsigned 32 v.
Definition uint64_of (v : Z) : Z := wrap_unsigned 64 v.

(** A [double] is carried as its 64 bits: the adapter only ever copies
    them. *)
Definition double : Type := Z.

(** [sizeof] of a pointer on the LP64 hosts the server runs on;
    [psql_set_double_value] returns [sizeof(binval)], [binval] being a
    pointer. *)
Definition SIZEOF_POINTER : Z := 8.

(** *** Functions to convert scalar data into PostgreSQL's binary format

    Each takes the value and the buffer [paramValue] points to, and returns
    the buffer written and the size to put in [paramLength]. *)

Definition psql_set_int8_value (val : Z) (paramValue : buffer) : buffer * Z :=
  (poke (be_bytes 1 val) paramValue, 1).

Definition psql_set_int32_value (val : Z) (paramValue : buffer) : buffer * Z :=
  (poke (be_bytes 4 val) paramValue, 4).

Definition psql_set_int64_value (val : Z) (paramValue : buffer) : buffer * Z :=
  (poke (be_bytes 8 val) paramValue, 8).

Definition psql_set_long_value (val : Z) (paramValue : buffer) : buffer * Z :=
  psql_set_int32_value (int32_of val) paramValue.

Definition psql_set_double_value (val : double) (paramValue : buffer) : buffer * Z :=
  (poke (be_bytes 8 val) paramValue, SIZEOF_POINTER).

Definition psql_set_uint32_value (val : Z) (paramValue : buffer) : buffer * Z :=
  psql_set_int64_value (int64_of val) paramValue.

Definition psql_set_uint64_value (val : Z) (paramValue : buffer) : buffer * Z :=
  psql_set_int64_value (int64_of val) paramValue.

Definition psql_set_guid_value (val : Z) (paramValue : buffer) : buffer * Z :=
  psql_set_uint64_value (uint64_of val) paramValue.

Definition psql_set_bool_value (val : Z) (paramValue : buffer) : buffer * Z :=
  psql_set_int8_value val paramValue.

(** The number that bytes spell in network order, and the integer the
    server reads from a binary parameter of an integer column: its bytes
    in network order, as a two's complement number of their width. *)
Definition be_decode (bs : list Z) : Z := foldl (fun acc b => 256 * acc + b) 0 bs.

Definition pg_int_of_bytes (bs : list Z) : Z :=
  wrap_signed (8 * Z.of_nat (length bs)) (be_decode bs).

(** *** Semantic types and the type map *)

(** The members of [OmlValueT] the adapter names. *)
Inductive OmlValueT :=
| OML_DB_PRIMARY_KEY
| OML_LONG_VALUE
| OML_DOUBLE_VALUE
| OML_STRING_VALUE
| OML_BLOB_VALUE
| OML_INT32_VALUE
| OML_UINT32_VALUE
| OML_INT64_VALUE
| OML_UINT64_VALUE
| OML_GUID_VALUE
| OML_BOOL_VALUE
| OML_VECTOR_DOUBLE_VALUE
| OML_VECTOR_INT32_VALUE
| OML_VECTOR_UINT32_VALUE
| OML_VECTOR_INT64_VALUE
| OML_VECTOR_UINT64_VALUE
| OML_VECTOR_BOOL_VALUE.

#[global] Instance OmlValueT_eq_dec : EqDecision OmlValueT.
Proof. solve_decision. Defined.

Record db_typemap := {
  tm_type : OmlValueT;
  tm_name : string;
  tm_size : Z
}.

Definition psql_type_map : list db_typemap := [
  {| tm_type := OML_DB_PRIMARY_KEY; tm_name := "SERIAL PRIMARY KEY"; tm_size := 4 |};
  {| tm_type := OML_LONG_VALUE;     tm_name := "INT4";    tm_size := 4 |};
  {| tm_type := OML_DOUBLE_VALUE;   tm_name := "FLOAT8";  tm_size := 8 |};
  {| tm_type := OML_STRING_VALUE;   tm_name := "TEXT";    tm_size := 0 |};
  {| tm_type := OML_BLOB_VALUE;     tm_name := "BYTEA";   tm_size := 0 |};
  {| tm_type := OML_INT32_VALUE;    tm_name := "INT4";    tm_size := 4 |};
  {| tm_type := OML_UINT32_VALUE;   tm_name := "INT8";    tm_size := 8 |};
  {| tm_type := OML_INT64_VALUE;    tm_name := "INT8";    tm_size := 8 |};
  {| tm_type := OML_UINT64_VALUE;   tm_name := "BIGINT";  tm_size := 8 |};
  {| tm_type := OML_GUID_VALUE;     tm_name := "BIGINT";  tm_size := 8 |};
  {| tm_type := OML_BOOL_VALUE;     tm_name := "BOOLEAN"; tm_size := 1 |};
  {| tm_type := OML_VECTOR_DOUBLE_VALUE; tm_name := "TEXT"; tm_size := 0 |};
  {| tm_type := OML_VECTOR_INT32_VALUE;  tm_name := "TEXT"; tm_size := 0 |};
  {| tm_type := OML_VECTOR_UINT32_VALUE; tm_name := "TEXT"; tm_size := 0 |};
  {| tm_type := OML_VECTOR_INT64_VALUE;  tm_name := "TEXT"; tm_size := 0 |};
  {| tm_type := OML_VECTOR_UINT64_VALUE; tm_name := "TEXT"; tm_size := 0 |};
  {| tm_type := OML_VECTOR_BOOL_VALUE;   tm_name := "TEXT"; tm_size := 0 |}
].

(** Modelled from the spec: [database_oml_to_typemap], which is absent; the
    type map being a table from each semantic type to a DDL spelling and a
    storage size, the lookup returns the first entry of that type. *)
Definition database_oml_to_typemap (map : list db_typemap) (type : OmlValueT)
  : option db_typemap :=
  List.find (fun tm => bool_decide (tm_type tm = type)) map.

Definition psql_oml_to_type (type : OmlValueT) : option string :=
  tm_name <$> database_oml_to_typemap psql_type_map type.

Definition psql_oml_to_size (type : OmlValueT) : option Z :=
  tm_size <$> database_oml_to_typemap psql_type_map type.

(** *** The server as the adapter sees it through libpq

    The adapter talks to one PostgreSQL connection.  What it can observe of
    the server is: which tables exist, with which columns, constraints and
    rows, and which prepared statements the session holds.  Column values
    are kept as the text libpq returns for them; a column that a row does
    not define is NULL.

    Only a part of what a server does is described, the part in which a
    statement means what the adapter wrote: its names are plain (the server
    reads them the same with and without double quotes), its string
    constants hold nothing that ends them early or that the server could
    read in another way, and each value is one its column stores as it is.
    Every other statement is answered by [pg_other], about which nothing is
    assumed.  The connection is taken to be healthy: a statement of the
    described part fails only for a reason the statement or the tables
    carry. *)

Inductive ExecStatusType :=
| PGRES_COMMAND_OK
| PGRES_TUPLES_OK
| PGRES_FATAL_ERROR.

#[global] Instance ExecStatusType_eq_dec : EqDecision ExecStatusType.
Proof. solve_decision. Defined.

Record PGresult := {
  res_status : ExecStatusType;
  res_nfields : nat;
  res_tuples : list (list (option string))
}.

Definition PQresultStatus (res : PGresult) : ExecStatusType := res_status res.
Definition PQntuples (res : PGresult) : Z := Z.of_nat (length (res_tuples res)).
Definition PQnfields (res : PGresult) : Z := Z.of_nat (res_nfields res).

(** [PQgetvalue]: NULL out of range, the empty string for an SQL NULL. *)
Definition PQgetvalue (res : PGresult) (row col : nat) : cstr :=
  match res_tuples res !! row with
  | Some r =>
      match r !! col with
      | Some (Some text) => Some text
      | Some None => Some ""
      | None => None
      end
  | None => None
  end.

Definition pg_error : PGresult :=
  {| res_status := PGRES_FATAL_ERROR; res_nfields := 0; res_tuples := [] |}.
Definition pg_command_ok : PGresult :=
  {| res_status := PGRES_COMMAND_OK; res_nfields := 0; res_tuples := [] |}.
Definition pg_tuples (nfields : nat) (rows : list (list (option string))) : PGresult :=
  {| res_status := PGRES_TUPLES_OK; res_nfields := nfields; res_tuples := rows |}.

(** The column types of the bookkeeping tables. *)
Inductive pgtype :=
| PgText     (* TEXT *)
| PgInt.     (* INT, four bytes *)

#[global] Instance pgtype_eq_dec : EqDecision pgtype.
Proof. solve_decision. Defined.

(** A table: its columns, its rows, and its constraints (PRIMARY KEY,
    UNIQUE, NOT NULL, CHECK) as the test whether the table may hold given
    rows. *)
Record pgtable := {
  tbl_columns : list (string * pgtype);
  tbl_rows : list (gmap string string);
  tbl_check : list (gmap string string) -> bool
}.

(** The statements the adapter prepares under a name. *)
Inductive prepared_sql :=
| PreparedTableList     (* SELECT tablename FROM pg_tables WHERE ... *)
| PreparedTableSchema.  (* SELECT value FROM _experiment_metadata WHERE key='table_' || $1; *)

(** The server behind a connection.  [pg_plain] tells the names it reads
    the same with and without double quotes (lower-case identifiers that
    are no reserved words of its dialect); [pg_other] is its answer to the
    text of a statement outside the described part, with the tables and
    prepared statements it leaves. *)
Record PGconn := {
  pg_tables : gmap string pgtable;
  pg_prepared : gmap string prepared_sql;
  pg_plain : string -> bool;
  pg_other : string -> gmap string pgtable -> gmap string prepared_sql ->
             PGresult * gmap string pgtable * gmap string prepared_sql
}.

Definition with_tables (conn : PGconn) (tables : gmap string pgtable) : PGconn :=
  {| pg_tables := tables; pg_prepared := pg_prepared conn;
     pg_plain := pg_plain conn; pg_other := pg_other conn |}.

(** The statements the adapter builds with [mstring_sprintf] and sends with
    [PQexec], by their format string; the arguments are the strings spliced
    in for each [%s], as they are, nothing being escaped. *)
Inductive sql :=
| (* SELECT %s FROM %s WHERE %s='%s'; *)
  SelectWhere (value_column table key_column key : string)
| (* INSERT INTO "%s" ("%s", "%s") VALUES ('%s', '%s'); *)
  InsertPair (table key_column value_column key value : string)
| (* UPDATE "%s" SET "%s"='%s' WHERE "%s"='%s'; *)
  UpdateWhere (table value_column value key_column key : string)
| (* SELECT MAX(id) FROM _senders; *)
  SelectMaxSenderId.

Definition dquote : string := String (ascii_of_nat 34) EmptyString.

(** The text that goes over the wire. *)
Definition sql_text (stmt : sql) : string :=
  match stmt with
  | SelectWhere vc t kc k =>
      "SELECT " +:+ vc +:+ " FROM " +:+ t +:+ " WHERE " +:+ kc +:+ "='" +:+ k +:+ "';"
  | InsertPair t kc vc k v =>
      "INSERT INTO " +:+ dquote +:+ t +:+ dquote +:+ " (" +:+ dquote +:+ kc +:+ dquote
        +:+ ", " +:+ dquote +:+ vc +:+ dquote +:+ ") VALUES ('" +:+ k +:+ "', '" +:+ v +:+ "');"
  | UpdateWhere t vc v kc k =>
      "UPDATE " +:+ dquote +:+ t +:+ dquote +:+ " SET " +:+ dquote +:+ vc +:+ dquote
        +:+ "='" +:+ v +:+ "' WHERE " +:+ dquote +:+ kc +:+ dquote +:+ "='" +:+ k +:+ "';"
  | SelectMaxSenderId => "SELECT MAX(id) FROM _senders;"
  end.

(** A character that a string constant holds as it is, whatever the
    settings of the server: an ASCII character other than NUL and the
    backslash (an escape or not, by [standard_conforming_strings]); the
    quote is dealt with by [pg_literal]. *)
Definition literal_char (c : ascii) : bool :=
  (1 <=? nat_of_ascii c)%nat && (nat_of_ascii c <? 128)%nat
  && negb (bool_decide (c = ascii_of_nat 92)).

(** How the server reads the text between the two quotes of a string
    constant: two quotes in a row stand for one quote.  [None] when the
    text holds a quote that is not doubled, which ends the constant early
    and makes the rest a part of the statement, or a character that is not
    a [literal_char]: the statement is then outside the described part. *)
Fixpoint pg_literal (body : string) : option string :=
  match body with
  | EmptyString => Some EmptyString
  | String c rest =>
      if bool_decide (c = "'"%char) then
        match rest with
        | String c' rest' =>
            if bool_decide (c' = "'"%char) then String "'"%char <$> pg_literal rest'
            else None
        | EmptyString => None
        end
      else if literal_char c then String c <$> pg_literal rest
      else None
  end.

(** A text that a string constant holds as it is: no quote in it, and
    [literal_char]s only. *)
Definition plain_text (s : string) : bool :=
  forallb (fun c => negb (bool_decide (c = "'"%char)) && literal_char c)
    (list_ascii_of_string s).

Definition is_digit (c : ascii) : bool :=
  (48 <=? nat_of_ascii c)%nat && (nat_of_ascii c <=? 57)%nat.

Definition digit_value (c : ascii) : Z := Z.of_nat (nat_of_ascii c) - 48.

(** The value of the leading decimal digits of [s], after [acc]. *)
Fixpoint leading_digits (acc : Z) (s : string) : Z :=
  match s with
  | String c rest =>
      if is_digit c then leading_digits (10 * acc + digit_value c) rest else acc
  | EmptyString => acc
  end.

Definition is_space (c : ascii) : bool :=
  bool_decide (c = " "%char) || ((9 <=? nat_of_ascii c)%nat && (nat_of_ascii c <=? 13)%nat).

Fixpoint skip_spaces (s : string) : string :=
  match s with
  | String c rest => if is_space c then skip_spaces rest else s
  | EmptyString => s
  end.

(** atoi(3), for values in the range of [int]. *)
Definition atoi (s : string) : Z :=
  match skip_spaces s with
  | String "-" rest => - leading_digits 0 rest
  | String "+" rest => leading_digits 0 rest
  | s' => leading_digits 0 s'
  end.

(** The integer a column of type INT holds for a text, when the text is a
    decimal number. *)
Definition pg_int_of_text (s : string) : option Z :=
  let digits := match s with String "-" rest => rest | _ => s end in
  if bool_decide (digits ≠ EmptyString)
     && forallb is_digit (list_ascii_of_string digits)
  then Some (atoi s) else None.

(** The text is the decimal spelling of a number in the range of INT, as
    the server itself prints it. *)
Definition pg_int4_text (text : string) : bool :=
  bool_decide (text = pretty (atoi text))
  && (- 2 ^ 31 <=? atoi text) && (atoi text <? 2 ^ 31).

(** What a column of type [ty] stores for the string constant [text], when
    that is [text] itself: any text in a TEXT column, the server's own
    spelling of a number in an INT column.  [None] for the other constants
    of an INT column, which the server turns into another text or refuses:
    they are outside the described part. *)
Definition column_input (ty : pgtype) (text : string) : option string :=
  match ty with
  | PgText => Some text
  | PgInt => if pg_int4_text text then Some text else None
  end.

Definition max_of (l : list Z) : option Z :=
  match l with
  | [] => None
  | x :: l' => Some (foldr Z.max x l')
  end.

Definition row_matches (key_column key : string) (row : gmap string string) : bool :=
  bool_decide (row !! key_column = Some key).

Definition column_type (t : pgtable) (c : string) : option pgtype :=
  snd <$> List.find (fun col => bool_decide (fst col = c)) (tbl_columns t).

Definition has_column (t : pgtable) (c : string) : bool :=
  match column_type t c with Some _ => true | None => false end.

(** The row an INSERT of the pair adds, and the change an UPDATE makes to
    a row. *)
Definition pair_row (kc vc k v : string) : gmap string string :=
  <[vc := v]> (<[kc := k]> ∅).

Definition update_row (kc vc k v : string) (row : gmap string string)
  : gmap string string :=
  if row_matches kc k row then <[vc := v]> row else row.

Definition set_rows (tbl : pgtable) (rows : list (gmap string string)) : pgtable :=
  {| tbl_columns := tbl_columns tbl; tbl_rows := rows; tbl_check := tbl_check tbl |}.

(** An INSERT or UPDATE that would leave table [t] with [rows]: it is
    refused when the constraints of the table do not hold of them. *)
Definition pg_write (conn : PGconn) (t : string) (tbl : pgtable)
    (rows : list (gmap string string)) : PGresult * PGconn :=
  if tbl_check tbl rows then
    (pg_command_ok, with_tables conn (<[t := set_rows tbl rows]> (pg_tables conn)))
  else (pg_error, conn).

(** The answer to a statement of the described part; [None] for the
    others. *)
Definition pg_described (conn : PGconn) (stmt : sql) : option (PGresult * PGconn) :=
  match stmt with
  | SelectWhere vc t kc key =>
      if pg_plain conn vc && pg_plain conn t && pg_plain conn kc then
        match pg_literal key with
        | Some k0 =>
            match pg_tables conn !! t with
            | Some tbl =>
                match column_type tbl vc, column_type tbl kc with
                | Some _, Some kty =>
                    match column_input kty k0 with
                    | Some k =>
                        Some (pg_tuples 1 ((fun row => [row !! vc]) <$>
                                List.filter (row_matches kc k) (tbl_rows tbl)), conn)
                    | None => None
                    end
                | _, _ => Some (pg_error, conn)    (* no such column *)
                end
            | None => Some (pg_error, conn)        (* no such table *)
            end
        | None => None
        end
      else None
  | InsertPair t kc vc key value =>
      if pg_plain conn t && pg_plain conn kc && pg_plain conn vc then
        match pg_literal key, pg_literal value with
        | Some k0, Some v0 =>
            match pg_tables conn !! t with
            | Some tbl =>
                match column_type tbl kc, column_type tbl vc with
                | Some kty, Some vty =>
                    if bool_decide (kc = vc) then
                      Some (pg_error, conn)        (* column named twice *)
                    else
                      match column_input kty k0, column_input vty v0 with
                      | Some k, Some v =>
                          Some (pg_write conn t tbl (tbl_rows tbl ++ [pair_row kc vc k v]))
                      | _, _ => None
                      end
                | _, _ => Some (pg_error, conn)
                end
            | None => Some (pg_error, conn)
            end
        | _, _ => None
        end
      else None
  | UpdateWhere t vc value kc key =>
      if pg_plain conn t && pg_plain conn vc && pg_plain conn kc then
        match pg_literal key, pg_literal value with
        | Some k0, Some v0 =>
            match pg_tables conn !! t with
            | Some tbl =>
                match column_type tbl kc, column_type tbl vc with
                | Some kty, Some vty =>
                    match column_input kty k0, column_input vty v0 with
                    | Some k, Some v =>
                        Some (pg_write conn t tbl (update_row kc vc k v <$> tbl_rows tbl))
                    | _, _ => None
                    end
                | _, _ => Some (pg_error, conn)
                end
            | None => Some (pg_error, conn)
            end
        | _, _ => None
        end
      else None
  | SelectMaxSenderId =>
      match pg_tables conn !! "_senders" with
      | Some tbl =>
          match column_type tbl "id" with
          | Some PgInt =>
              let ids := omap (fun row : gmap string string =>
                                 row !! "id" ≫= pg_int_of_text) (tbl_rows tbl) in
              Some (pg_tuples 1 [[pretty <$> max_of ids]], conn)
          | Some PgText => None       (* the greatest text, by the collation *)
          | None => Some (pg_error, conn)
          end
      | None => Some (pg_error, conn)
      end
  end.

(** [PQexec] on a statement of the adapter. *)
Definition PQexec (conn : PGconn) (stmt : sql) : PGresult * PGconn :=
  match pg_described conn stmt with
  | Some answer => answer
  | None =>
      let '(res, tables, prepared) :=
        pg_other conn (sql_text stmt) (pg_tables conn) (pg_prepared conn) in
      (res, {| pg_tables := tables; pg_prepared := prepared;
               pg_plain := pg_plain conn; pg_other := pg_other conn |})
  end.

(** Whether the server accepts to prepare the statement: it looks the
    table and the columns up when it parses it. *)
Definition prepares (conn : PGconn) (query : prepared_sql) : bool :=
  match query with
  | PreparedTableList => true
  | PreparedTableSchema =>
      match pg_tables conn !! "_experiment_metadata" with
      | Some tbl =>
          bool_decide (column_type tbl "key" = Some PgText) && has_column tbl "value"
      | None => false
      end
  end.

(** [PQprepare]: a name can be prepared once in a session; the adapter
    never releases one. *)
Definition PQprepare (conn : PGconn) (stmtName : string) (query : prepared_sql)
  : PGresult * PGconn :=
  match pg_prepared conn !! stmtName with
  | Some _ => (pg_error, conn)      (* prepared statement already exists *)
  | None =>
      if prepares conn query then
        (pg_command_ok,
         {| pg_tables := pg_tables conn;
            pg_prepared := <[stmtName := query]> (pg_prepared conn);
            pg_plain := pg_plain conn; pg_other := pg_other conn |})
      else (pg_error, conn)
  end.

(** [tablename NOT LIKE 'pg%' AND tablename NOT LIKE 'sql%'] *)
Definition user_table (name : string) : bool :=
  negb (String.prefix "pg" name) && negb (String.prefix "sql" name).

(** [PQexecPrepared] on the two statements [psql_get_table_list] prepares.
    The server lists tables in an order of its own; the order of the
    table map stands for it. *)
Definition PQexecPrepared (conn : PGconn) (stmtName : string) (paramValues : list string)
  : PGresult :=
  match pg_prepared conn !! stmtName with
  | Some PreparedTableList =>
      pg_tuples 1 ((fun name => [Some name]) <$>
                     List.filter user_table (fst <$> map_to_list (pg_tables conn)))
  | Some PreparedTableSchema =>
      match pg_tables conn !! "_experiment_metadata", paramValues with
      | Some tbl, [name] =>
          if has_column tbl "value" && has_column tbl "key" then
            pg_tuples 1 ((fun row : gmap string string => [row !! "value"]) <$>
                           List.filter (row_matches "key" ("table_" +:+ name)) (tbl_rows tbl))
          else pg_error
      | _, _ => pg_error
      end
  | None => pg_error
  end.

(** *** Schemas, tables and the database handle *)

Record schema_field := {
  field_name : string;
  field_type : OmlValueT
}.

(** [nfields] is the length of [fields]. *)
Record schema := {
  schema_name : string;
  fields : list schema_field
}.

Definition nfields (s : schema) : nat := length (fields s).

(** [value_count] is the length of [values]. *)
Record PsqlTable := {
  insert_stmt : string;
  values : list buffer
}.

Definition value_count (t : PsqlTable) : nat := length (values t).

Record DbTable := {
  table_schema : schema;
  table_handle : PsqlTable
}.

Record PsqlDB := {
  conn : PGconn;
  last_commit : Z
}.

Record Database := {
  db_name : string;
  start_time : Z;
  db_handle : PsqlDB
}.

Definition with_conn (db : Database) (c : PGconn) : Database :=
  {| db_name := db_name db; start_time := start_time db;
     db_handle := {| conn := c; last_commit := last_commit (db_handle db) |} |}.

(** *** Statements and the key/value store

    The lines these functions log are left out: nothing below depends on
    them. *)

(** Execute an SQL statement (using PQexec()). *)
Definition sql_stmt (self : PsqlDB) (stmt : sql) : Z * PsqlDB :=
  let '(res, c) := PQexec (conn self) stmt in
  let self' := {| conn := c; last_commit := last_commit self |} in
  if bool_decide (PQresultStatus res ≠ PGRES_COMMAND_OK) then (-1, self')
  else (0, self').

(** Do a key-value style select on a database table. *)
Definition psql_get_key_value (database : option Database)
    (table key_column value_column key : cstr) : cstr :=
  match database, table, key_column, value_column, key with
  | Some database, Some table, Some key_column, Some value_column, Some key =>
      let psqldb := db_handle database in
      let stmt := SelectWhere value_column table key_column key in
      let '(res, _) := PQexec (conn psqldb) stmt in
      if bool_decide (PQresultStatus res ≠ PGRES_TUPLES_OK) then None
      else if PQntuples res =? 0 then None
      else if PQnfields res <? 1 then None
      else
        (* more than one tuple: a warning, and the first one is used *)
        match PQgetvalue res 0 0 with
        | Some value => Some value    (* oml_strndup (value, strlen (value)) *)
        | None => None
        end
  | _, _, _, _, _ => None
  end.

(** The statement [psql_set_key_value] builds: an INSERT when the lookup
    of the key gave NULL, an UPDATE otherwise. *)
Definition psql_set_key_value_stmt (database : Database)
    (table key_column value_column key value : string) : sql :=
  let check_value :=
    psql_get_key_value (Some database) (Some table) (Some key_column)
      (Some value_column) (Some key) in
  match check_value with
  | None => InsertPair table key_column value_column key value
  | Some _ => UpdateWhere table value_column value key_column key
  end.

(** Set a value for the given key in the given table. *)
Definition psql_set_key_value (database : Database)
    (table key_column value_column key value : string) : Z * Database :=
  let psqldb := db_handle database in
  let stmt := psql_set_key_value_stmt database table key_column value_column key value in
  let '(rc, psqldb') := sql_stmt psqldb stmt in
  let database' := {| db_name := db_name database; start_time := start_time database;
                      db_handle := psqldb' |} in
  if negb (rc =? 0) then (-1, database') else (0, database').

(** The rows of [table] that hold [key] in [key_column]. *)
Definition key_rows (database : Database) (table key_column key : string)
  : list (gmap string string) :=
  match pg_tables (conn (db_handle database)) !! table with
  | Some tbl => List.filter (row_matches key_column key) (tbl_rows tbl)
  | None => []
  end.

(** The column exists in the table and stores the text as it is. *)
Definition column_takes (database : Database) (table column text : string) : bool :=
  match pg_tables (conn (db_handle database)) !! table with
  | Some tbl =>
      match column_type tbl column with
      | Some ty => bool_decide (column_input ty text = Some text)
      | None => false
      end
  | None => false
  end.

(** The statements are in the described part of the server: plain names,
    a key and a value that their string constants hold as they are and
    that the two columns of the table store as they are. *)
Definition described (c : PGconn) (t kc vc key value : string)
    (tbl : pgtable) (kty vty : pgtype) : Prop :=
  pg_plain c t = true /\ pg_plain c kc = true /\ pg_plain c vc = true
  /\ pg_literal key = Some key /\ pg_literal value = Some value
  /\ pg_tables c !! t = Some tbl
  /\ column_type tbl kc = Some kty /\ column_type tbl vc = Some vty
  /\ column_input kty key = Some key /\ column_input vty value = Some value.

Definition psql_get_metadata (db : Database) (key : string) : cstr :=
  psql_get_key_value (Some db) (Some "_experiment_metadata") (Some "key")
    (Some "value") (Some key).

Definition psql_set_metadata (db : Database) (key value : string) : Z * Database :=
  psql_set_key_value db "_experiment_metadata" "key" "value" key value.

(** Get the sender_id for a given name in the _senders table. *)
Definition psql_get_sender_id (database : Database) (name : string) : cstr :=
  psql_get_key_value (Some database) (Some "_senders") (Some "name") (Some "id")
    (Some name).

(** Set the sender_id for a given name in the _senders table; the id is
    rendered with [%d]. *)
Definition psql_set_sender_id (database : Database) (name : string) (id : Z)
  : Z * Database :=
  psql_set_key_value database "_senders" "name" "id" name (pretty id).

(** Add a new sender to the database, returning its index. *)
Definition psql_add_sender_id (db : Database) (sender_id : string) : Z * Database :=
  let self := db_handle db in
  let id_str := psql_get_sender_id db sender_id in
  match id_str with
  | Some id_str => (atoi id_str, db)
  | None =>
      let '(res, _) := PQexec (conn self) SelectMaxSenderId in
      let index :=
        if bool_decide (PQresultStatus res ≠ PGRES_TUPLES_OK) then 0
        else
          let rows := PQntuples res in
          if rows =? 0 then 0
          else
            (* the result of this query has one column, so that
               PQgetvalue (res, 0, 0) is not NULL here *)
            atoi (default "" (PQgetvalue res 0 0)) + 1 in
      let '(_, db') := psql_set_sender_id db sender_id index in
      (index, db')
  end.

(** The servers of the examples know the names of the two bookkeeping
    tables and of their columns as plain, and answer every statement
    outside the described part with an error. *)
Definition example_names : list string :=
  ["_senders"; "_experiment_metadata"; "key"; "value"; "name"; "id"].

Definition example_conn (tables : gmap string pgtable) : PGconn :=
  {| pg_tables := tables; pg_prepared := ∅;
     pg_plain := fun name => bool_decide (name ∈ example_names);
     pg_other := fun _ tables prepared => (pg_error, tables, prepared) |}.

(** No two rows hold the same value in column [c]; every row holds one. *)
Definition unique_column (c : string) (rows : list (gmap string string)) : bool :=
  bool_decide (NoDup (omap (fun row : gmap string string => row !! c) rows)).

Definition not_null_column (c : string) (rows : list (gmap string string)) : bool :=
  forallb (fun row : gmap string string =>
             match row !! c with Some _ => true | None => false end) rows.

(** Two databases for the examples: one without any table, as the server
    finds it right after CREATE DATABASE, and one with the two bookkeeping
    tables, still empty.

    Modelled from the spec: the two tables, which the absent server core
    creates; the specification gives them as
    [_senders(id INT PRIMARY KEY, name TEXT UNIQUE)] and
    [_experiment_metadata(key TEXT, value TEXT)]. *)
Definition empty_conn : PGconn := example_conn ∅.

Definition bootstrapped_conn : PGconn :=
  example_conn
    (<["_senders" :=
         {| tbl_columns := [("name", PgText); ("id", PgInt)]; tbl_rows := [];
            tbl_check := fun rows =>
              unique_column "id" rows && not_null_column "id" rows
              && unique_column "name" rows |}]>
     (<["_experiment_metadata" :=
          {| tbl_columns := [("key", PgText); ("value", PgText)]; tbl_rows := [];
             tbl_check := fun _ => true |}]> ∅)).

Definition database_on (c : PGconn) : Database :=
  {| db_name := "experiment"; start_time := 1400000000;
     db_handle := {| conn := c; last_commit := 1400000000 |} |}.

(** *** Table rediscovery *)

Record TableDescr := {
  td_name : string;
  td_schema : option schema
}.

(** Modelled from the spec: [table_descr_new], which is absent; a table
    descriptor pairs a table name with its schema, the [_senders] table
    being listed with a null schema.  It returns NULL only when memory runs
    out, which is not modelled. *)
Definition table_descr_new (name : string) (schema : option schema) : option TableDescr :=
  Some {| td_name := name; td_schema := schema |}.

(** What [psql_get_table_list] leaves behind: the list it returns (NULL is
    the empty list), [*num_tables] and the connection. *)
Record table_list := {
  tl_tables : list TableDescr;
  tl_num_tables : Z;
  tl_db : Database
}.

Definition ptable_stmt : string := "OMLGetTableList".
Definition pschema_stmt : string := "OMLGetTableSchema".

(** [fail_exit] *)
Definition table_list_fail (database : Database) : table_list :=
  {| tl_tables := []; tl_num_tables := -1; tl_db := database |}.

(** The first loop: step through the rows until [_experiment_metadata] is
    found; [rows] are the row numbers still to visit. *)
Fixpoint find_meta (res : PGresult) (rows : list nat) : bool :=
  match rows with
  | [] => false
  | i :: rows' =>
      if bool_decide (default "" (PQgetvalue res i 0) = "_experiment_metadata") then true
      else find_meta res rows'
  end.

Section TableList.

(** [schema_from_meta], the parser of the stored schema text, is absent. *)
Variable schema_from_meta : string -> option schema.

(** The second loop.  [None] stands for the jump to [fail_exit]. *)
Fixpoint collect_tables (c : PGconn) (res : PGresult) (rows : list nat)
    (tables : list TableDescr) (num_tables : Z) : option (list TableDescr * Z) :=
  match rows with
  | [] => Some (tables, num_tables)
  | i :: rows' =>
      let tablename := default "" (PQgetvalue res i 0) in
      let t : option (option TableDescr) :=
        if bool_decide (tablename = "_senders") then
          Some (table_descr_new tablename None)
        else
          let schema_res := PQexecPrepared c pschema_stmt [tablename] in
          if bool_decide (PQresultStatus schema_res ≠ PGRES_TUPLES_OK) then Some None
          else if PQntuples schema_res <=? 0 then Some None
          else
            let meta := default "" (PQgetvalue schema_res 0 0) in
            match schema_from_meta meta with
            | None => Some None
            | Some schema =>
                match table_descr_new tablename (Some schema) with
                | Some t => Some (Some t)
                | None => None
                end
            end in
      match t with
      | None => None
      | Some (Some t) => collect_tables c res rows' (t :: tables) (num_tables + 1)
      | Some None => collect_tables c res rows' tables num_tables
      end
  end.

(** Get a list of tables in a PostgreSQL database. *)
Definition psql_get_table_list (database : Database) : table_list :=
  let self := db_handle database in
  (* Get a list of table names *)
  let '(res, c) := PQprepare (conn self) ptable_stmt PreparedTableList in
  let database := with_conn database c in
  if bool_decide (PQresultStatus res ≠ PGRES_COMMAND_OK) then table_list_fail database
  else
    (* Check if the _experiment_metadata table exists *)
    let res := PQexecPrepared c ptable_stmt [] in
    if bool_decide (PQresultStatus res ≠ PGRES_TUPLES_OK) then table_list_fail database
    else
      let nrows := Z.to_nat (PQntuples res) in
      let have_meta := find_meta res (seq 0 nrows) in
      if negb have_meta then
        (* This is probably a new database, don't exit in error *)
        {| tl_tables := []; tl_num_tables := 0; tl_db := database |}
      else
        (* Get schema for all tables *)
        let '(schema_res, c) := PQprepare c pschema_stmt PreparedTableSchema in
        let database := with_conn database c in
        if bool_decide (PQresultStatus schema_res ≠ PGRES_COMMAND_OK) then
          table_list_fail database
        else
          match collect_tables c res (seq 0 nrows) [] 0 with
          | Some (tables, num_tables) =>
              {| tl_tables := tables; tl_num_tables := num_tables; tl_db := database |}
          | None => table_list_fail database
          end.

End TableList.

(** *** Values

    [OmlValue] pairs a type tag with a union, [OmlValueU].  The header
    that declares the union and the [omlc_get_*] accessors is absent, so
    the union is any type [U] that provides the accessors.  Integers are
    returned in the range of the C type of the accessor, doubles as their
    bits; the length and the pointer of a string are two members of their
    own. *)

Class OmlValueOps (U : Type) := {
  omlc_get_long : U -> Z;
  omlc_get_int32 : U -> Z;
  omlc_get_uint32 : U -> Z;
  omlc_get_int64 : U -> Z;
  omlc_get_uint64 : U -> Z;
  omlc_get_double : U -> double;
  omlc_get_guid : U -> Z;
  omlc_get_bool : U -> Z;
  omlc_get_string_length : U -> Z;
  omlc_get_string_ptr : U -> string;
  (* v->value.blobValue.ptr, v->value.blobValue.length *)
  blob_bytes : U -> list Z
}.

Record OmlValue (U : Type) := {
  oml_value_get_type : OmlValueT;
  oml_value_get_value : U
}.
Arguments oml_value_get_type {U} _.
Arguments oml_value_get_value {U} _.

(** *** Insert *)

(** Modelled from the spec: [NMETA], whose header is absent; every table
    carries four metadata columns before the schema columns. *)
Definition NMETA : nat := 4.

Definition MAX_DIGITS : Z := 32.

(** What the outside gives [psql_insert] during one call: the wall clock,
    the answer of [dba_reopen_transaction] (absent; consulted only when it
    is called), whether [oml_realloc] succeeds for parameter [i], the
    status of the result of [PQexecPrepared], and what the C library prints
    for a NULL argument of [%s] ([(null)] with glibc). *)
Record insert_env := {
  tv_sec : Z;
  tv_usec : Z;
  reopen_ret : Z;
  realloc_ok : nat -> bool;
  exec_status : ExecStatusType;
  null_text : string
}.

(** A parameter as handed to [PQexecPrepared]. *)
Record bound_param := {
  bp_value : buffer;
  bp_length : Z;
  bp_format : Z
}.

(** The bytes the server receives for a parameter: [bp_length] bytes in
    binary format, the text up to the NUL in text format. *)
Definition param_bytes (p : bound_param) : list Z :=
  if bp_format p =? 1 then take (Z.to_nat (bp_length p)) (bp_value p)
  else until_nul (bp_value p).

(** The calls that reach the server, in order. *)
Inductive pq_event :=
| EvReopenTransaction
| EvExecPrepared (stmtName : string) (nParams : nat) (params : list bound_param).

Definition is_exec (e : pq_event) : bool :=
  match e with EvExecPrepared _ _ _ => true | _ => false end.

(** How a call ends: it returns, its [assert] fails, or it reads a field
    behind the end of the schema, where nothing tells what it finds.  (A
    handle made by [psql_table_create] has [nfields + NMETA] values, so
    that a call whose [assert] holds never does.)

    Where C leaves the behaviour undefined but the program as it runs has
    one, the model follows the program: a NULL handed to [%s] is printed
    as the C library prints it, and a write that runs past the end of a
    scratch buffer lands in the slack of its malloc'ed block (the one-byte
    buffer of a bool column is written with two bytes). *)
Inductive outcome :=
| Returned (rc : Z)
| AssertFailed
| Undefined.

(** The locals of [psql_insert] that the loop updates, with the scratch
    buffers of the table. *)
Record insert_st := {
  st_values : list buffer;
  st_paramLength : list Z;
  st_paramFormat : list Z;
  st_len : Z;
  st_log : list log_line
}.

Definition st_buffer (st : insert_st) (i : nat) : buffer :=
  default [] (st_values st !! i).

Definition set_buffer (i : nat) (b : buffer) (st : insert_st) : insert_st :=
  {| st_values := <[i := b]> (st_values st);
     st_paramLength := st_paramLength st; st_paramFormat := st_paramFormat st;
     st_len := st_len st; st_log := st_log st |}.

Definition set_param (i : nat) (length format : Z) (st : insert_st) : insert_st :=
  {| st_values := st_values st;
     st_paramLength := <[i := length]> (st_paramLength st);
     st_paramFormat := <[i := format]> (st_paramFormat st);
     st_len := st_len st; st_log := st_log st |}.

Definition set_len (n : Z) (st : insert_st) : insert_st :=
  {| st_values := st_values st;
     st_paramLength := st_paramLength st; st_paramFormat := st_paramFormat st;
     st_len := n; st_log := st_log st |}.

Definition add_log (l : log_line) (st : insert_st) : insert_st :=
  {| st_values := st_values st;
     st_paramLength := st_paramLength st; st_paramFormat := st_paramFormat st;
     st_len := st_len st; st_log := st_log st ++ [l] |}.

(** [paramLength[i] = set (val, psqltable->values[i]); paramFormat[i] = 1;] *)
Definition bind_binary (i : nat) (set : buffer -> buffer * Z) (st : insert_st) : insert_st :=
  let '(b, n) := set (st_buffer st i) in
  set_param i n 1 (set_buffer i b st).

(** [snprintf (psqltable->values[i], size, "%s", s)] *)
Definition snprintf_s (i : nat) (size : Z) (s : string) (st : insert_st) : insert_st :=
  if size <=? 0 then st
  else set_buffer i (poke (cbytes (String.substring 0 (Z.to_nat (size - 1)) s))
                       (st_buffer st i)) st.

(** [psqltable->values[i] = oml_realloc (psqltable->values[i], size)];
    the bytes gained are shown as zeroes. *)
Definition realloc_buffer (i : nat) (size : Z) (st : insert_st) : insert_st :=
  set_buffer i (resize (Z.to_nat size) 0 (st_buffer st i)) st.

(** Parameter [i] as [PQexecPrepared] is given it: [values[i]],
    [paramLength[i]] and [paramFormat[i]]. *)
Definition bound_param_at (st : insert_st) (i : nat) : bound_param :=
  {| bp_value := st_buffer st i;
     bp_length := default 0 (st_paramLength st !! i);
     bp_format := default 0 (st_paramFormat st !! i) |}.

(** The first [n] parameters are the same in both states. *)
Definition same_below (n : nat) (st st' : insert_st) : Prop :=
  take n (st_values st') = take n (st_values st)
  /\ take n (st_paramLength st') = take n (st_paramLength st)
  /\ take n (st_paramFormat st') = take n (st_paramFormat st).

(** **** The [switch] statement

    A [switch] body is a sequence of blocks, each behind the label that
    precedes it in the source ([NoLabel] when none does).  Control enters
    at the block whose [case] matches, or at [default], and runs from there
    on through the blocks that follow until one of them breaks or
    returns. *)

Inductive flow :=
| Fall               (* the end of the block is reached: on to the next one *)
| Break
| Return (rc : Z).

Inductive label :=
| NoLabel
| Case (t : OmlValueT)
| Default.

#[global] Instance label_eq_dec : EqDecision label.
Proof. solve_decision. Defined.

Definition block : Type := insert_st -> insert_st * flow.

Fixpoint run_blocks (bs : list (label * block)) (st : insert_st) : insert_st * flow :=
  match bs with
  | [] => (st, Break)
  | (_, b) :: bs' =>
      match b st with
      | (st', Fall) => run_blocks bs' st'
      | r => r
      end
  end.

(** The blocks from the one labelled [l] on. *)
Fixpoint from_label (l : label) (bs : list (label * block)) : option (list (label * block)) :=
  match bs with
  | [] => None
  | (l', b) :: bs' =>
      if bool_decide (l' = l) then Some bs else from_label l bs'
  end.

Definition switch (t : OmlValueT) (bs : list (label * block)) (st : insert_st)
  : insert_st * flow :=
  match from_label (Case t) bs with
  | Some entered => run_blocks entered st
  | None =>
      match from_label Default bs with
      | Some entered => run_blocks entered st
      | None => (st, Break)
      end
  end.

(** What [psql_insert] leaves behind. *)
Record insert_result := {
  ins_outcome : outcome;
  ins_db : Database;
  ins_table : DbTable;
  ins_events : list pq_event;
  ins_log : list log_line
}.

Section Insert.

Context {U : Type} `{OmlValueOps U}.

(** [PQescapeByteaConn], given the bytes and what [*to_length] holds
    before the call: the escaped text, or NULL, and what [*to_length] holds
    afterwards. *)
Variable PQescapeByteaConn : list Z -> Z -> option string * Z.

(** [vector_double_to_json] and its five siblings, which are absent: the
    buffer they leave for a vector value, given the buffer they find. *)
Variable vector_to_json : OmlValueT -> U -> buffer -> buffer.

(** The bits of the double
    [tv.tv_sec - db->start_time + 0.000001 * tv.tv_usec]. *)
Variable server_time : Z -> Z -> Z -> double.

Variable env : insert_env.
Variable db : Database.
Variable table : DbTable.

Definition block_long (v : OmlValue U) (i : nat) : block := fun st =>
  let val := omlc_get_long (oml_value_get_value v) in
  (bind_binary i (psql_set_long_value val) st, Break).

Definition block_int32 (v : OmlValue U) (i : nat) : block := fun st =>
  let val := omlc_get_int32 (oml_value_get_value v) in
  (bind_binary i (psql_set_int32_value val) st, Break).

Definition block_uint32 (v : OmlValue U) (i : nat) : block := fun st =>
  let val := omlc_get_uint32 (oml_value_get_value v) in
  (bind_binary i (psql_set_uint32_value val) st, Fall).

Definition block_int64 (v : OmlValue U) (i : nat) : block := fun st =>
  let val := omlc_get_int64 (oml_value_get_value v) in
  (bind_binary i (psql_set_int64_value val) st, Break).

Definition block_uint64 (v : OmlValue U) (i : nat) : block := fun st =>
  let val := omlc_get_uint64 (oml_value_get_value v) in
  (bind_binary i (psql_set_uint64_value val) st, Fall).

Definition block_double (v : OmlValue U) (i : nat) : block := fun st =>
  let val := omlc_get_double (oml_value_get_value v) in
  (bind_binary i (psql_set_double_value val) st, Break).

Definition block_guid (v : OmlValue U) (i : nat) : block := fun st =>
  let val := int64_of (omlc_get_guid (oml_value_get_value v)) in
  (bind_binary i (psql_set_int64_value val) st, Break).

Definition block_bool (v : OmlValue U) (i : nat) : block := fun st =>
  let st := snprintf_s i MAX_DIGITS
              (if omlc_get_bool (oml_value_get_value v) =? 0 then "0" else "1") st in
  let val := uint32_of (omlc_get_bool (oml_value_get_value v)) in
  (bind_binary i (psql_set_bool_value (int8_of val)) st, Break).

Definition block_string (v : OmlValue U) (i : nat) : block := fun st =>
  let len := omlc_get_string_length (oml_value_get_value v) + 1 in
  let st := set_len len st in
  if (len >? MAX_DIGITS) && negb (realloc_ok env i) then
    (add_log (LogError, "Could not realloc()at memory for string") st, Return (-1))
  else
    let st := if len >? MAX_DIGITS then realloc_buffer i len st else st in
    (snprintf_s i len (omlc_get_string_ptr (oml_value_get_value v)) st, Break).

Definition block_blob (v : OmlValue U) (i : nat) : block := fun st =>
  let '(escaped_blob, len) :=
    PQescapeByteaConn (blob_bytes (oml_value_get_value v)) (st_len st) in
  let st := set_len len st in
  (* a NULL is logged, and the function goes on *)
  let st := match escaped_blob with
            | None => add_log (LogError, "Error escaping blob") st
            | Some _ => st
            end in
  if (len >? MAX_DIGITS) && negb (realloc_ok env i) then
    (add_log (LogError, "Could not realloc()at memory for escaped blob") st,
     Return (-1))
  else
    let st := if len >? MAX_DIGITS then realloc_buffer i len st else st in
    (snprintf_s i len (default (null_text env) escaped_blob) st, Break).

Definition block_vector (t : OmlValueT) (v : OmlValue U) (i : nat) : block := fun st =>
  (set_buffer i (vector_to_json t (oml_value_get_value v) (st_buffer st i)) st, Break).

Definition block_default (field : schema_field) : block := fun st =>
  (add_log (LogError, "Unknown type in col '" +:+ field_name field +:+
                      "' of table '" +:+ schema_name (table_schema table) +:+
                      "'; this is probably a bug") st,
   Return (-1)).

(** The body of [switch (field->type)], block by block in the order of the
    source.  The first block stands before any [case]. *)
Definition insert_switch (field : schema_field) (v : OmlValue U) (i : nat)
  : list (label * block) := [
  (NoLabel,                      block_long v i);
  (Case OML_INT32_VALUE,         block_int32 v i);
  (Case OML_UINT32_VALUE,        block_uint32 v i);
  (Case OML_INT64_VALUE,         block_int64 v i);
  (Case OML_UINT64_VALUE,        block_uint64 v i);
  (Case OML_DOUBLE_VALUE,        block_double v i);
  (Case OML_GUID_VALUE,          block_guid v i);
  (Case OML_BOOL_VALUE,          block_bool v i);
  (Case OML_STRING_VALUE,        block_string v i);
  (Case OML_BLOB_VALUE,          block_blob v i);
  (Case OML_VECTOR_DOUBLE_VALUE, block_vector OML_VECTOR_DOUBLE_VALUE v i);
  (Case OML_VECTOR_INT32_VALUE,  block_vector OML_VECTOR_INT32_VALUE v i);
  (Case OML_VECTOR_UINT32_VALUE, block_vector OML_VECTOR_UINT32_VALUE v i);
  (Case OML_VECTOR_INT64_VALUE,  block_vector OML_VECTOR_INT64_VALUE v i);
  (Case OML_VECTOR_UINT64_VALUE, block_vector OML_VECTOR_UINT64_VALUE v i);
  (Case OML_VECTOR_BOOL_VALUE,   block_vector OML_VECTOR_BOOL_VALUE v i);
  (Default,                      block_default field)
].

(** [for (i = NMETA; i < value_count+NMETA; i++, v++)], at payload value
    number [k] with [vs] still to go.  [None] means the loop ran to its
    end; otherwise the function ends inside the loop. *)
Fixpoint insert_payload (k : nat) (vs : list (OmlValue U)) (st : insert_st)
  : insert_st * option outcome :=
  match vs with
  | [] => (st, None)
  | v :: vs' =>
      let i := (NMETA + k)%nat in
      match fields (table_schema table) !! k with
      | None => (st, Some Undefined)      (* read past the end of fields *)
      | Some field =>
          if bool_decide (oml_value_get_type v ≠ field_type field) then
            (add_log (LogError, "Value " +:+ pretty k +:+ " type mismatch for table '"
                                +:+ schema_name (table_schema table) +:+ "'") st,
             Some (Returned (-1)))
          else
            let st := set_param i 0 0 st in
            match switch (field_type field) (insert_switch field v i) st with
            | (st, Return rc) => (st, Some (Returned rc))
            | (st, _) => insert_payload (S k) vs' st
            end
      end
  end.

Definition bound_params (st : insert_st) (n : nat) : list bound_param :=
  bound_param_at st <$> seq 0 n.

Definition with_values (st : insert_st) : DbTable :=
  {| table_schema := table_schema table;
     table_handle := {| insert_stmt := insert_stmt (table_handle table);
                        values := st_values st |} |}.

Definition with_last_commit (t : Z) : Database :=
  {| db_name := db_name db; start_time := start_time db;
     db_handle := {| conn := conn (db_handle db); last_commit := t |} |}.

(** Insert value in the PostgreSQL database; [value_count] is the length
    of [values]. *)
Definition psql_insert (sender_id seq_no : Z) (time_stamp : double)
    (values : list (OmlValue U)) : insert_result :=
  let psqldb := db_handle db in
  let psqltable := table_handle table in
  let value_count := length values in
  if negb (bool_decide ((NMETA + value_count)%nat = Psql.value_count psqltable)) then
    {| ins_outcome := AssertFailed; ins_db := db; ins_table := table;
       ins_events := []; ins_log := [] |}
  else
    let st := {| st_values := Psql.values psqltable;
                 st_paramLength := replicate (NMETA + value_count) 0;
                 st_paramFormat := replicate (NMETA + value_count) 0;
                 st_len := MAX_DIGITS; st_log := [] |} in
    let st := bind_binary 0 (psql_set_int32_value sender_id) st in
    let st := bind_binary 1 (psql_set_int32_value seq_no) st in
    let st := bind_binary 2 (psql_set_double_value time_stamp) st in
    let time_stamp_server := server_time (tv_sec env) (start_time db) (tv_usec env) in
    let elapsed := tv_sec env >? last_commit psqldb in
    if elapsed && (reopen_ret env =? -1) then
      {| ins_outcome := Returned (-1); ins_db := db; ins_table := with_values st;
         ins_events := [EvReopenTransaction]; ins_log := st_log st |}
    else
      let db' := if elapsed then with_last_commit (tv_sec env) else db in
      let events := if elapsed then [EvReopenTransaction] else [] in
      let st := bind_binary 3 (psql_set_double_value time_stamp_server) st in
      match insert_payload 0 values st with
      | (st, Some o) =>
          {| ins_outcome := o; ins_db := db'; ins_table := with_values st;
             ins_events := events; ins_log := st_log st |}
      | (st, None) =>
          let exec := EvExecPrepared (insert_stmt psqltable) (NMETA + value_count)
                        (bound_params st (NMETA + value_count)) in
          if bool_decide (exec_status env ≠ PGRES_COMMAND_OK) then
            {| ins_outcome := Returned (-1); ins_db := db'; ins_table := with_values st;
               ins_events := events ++ [exec];
               ins_log := st_log st ++ [(LogError, "INSERT INTO '" +:+
                            schema_name (table_schema table) +:+ "' failed")] |}
          else
            {| ins_outcome := Returned 0; ins_db := db'; ins_table := with_values st;
               ins_events := events ++ [exec]; ins_log := st_log st |}
      end.

End Insert.

(** The parameters handed to [PQexecPrepared], when the call got there. *)
Fixpoint params_of (events : list pq_event) : list bound_param :=
  match events with
  | [] => []
  | EvExecPrepared _ _ params :: _ => params
  | _ :: events' => params_of events'
  end.

(** Whether the call reached [PQexecPrepared]. *)
Definition executed (r : insert_result) : bool := existsb is_exec (ins_events r).

(** *** Scratch buffers of a table

    The part of [psql_table_create] that allocates [psqltable->values]:
    one zeroed buffer per parameter, of the storage size of its type, or of
    [MAX_DIGITS] bytes when the type map gives no size. *)

(** Modelled from the spec: the types of the four metadata columns
    ([schema_metadata], absent): sender id and sequence number are int32,
    the two time stamps are doubles. *)
Definition metadata_types : list OmlValueT :=
  [OML_INT32_VALUE; OML_INT32_VALUE; OML_DOUBLE_VALUE; OML_DOUBLE_VALUE].

Definition scratch_buffer (type : OmlValueT) : buffer :=
  let flength := default (-1) (psql_oml_to_size type) in
  let flength := if flength <? 1 then MAX_DIGITS else flength in
  replicate (Z.to_nat flength) 0.

Definition psql_table_values (s : schema) : list buffer :=
  scratch_buffer <$> (metadata_types ++ (field_type <$> fields s)).

Definition table_of (s : schema) : DbTable :=
  {| table_schema := s;
     table_handle := {| insert_stmt := "OMLInsert-" +:+ schema_name s;
                        values := psql_table_values s |} |}.

(** *** A union for the examples

    [OmlValueU] as a little-endian LP64 host stores it: the scalar members
    share the first eight bytes, [scalar] being those bytes read as an
    unsigned 64-bit number; a narrower member is the low part of it. *)
Record le_union := {
  scalar : Z;
  string_length : Z;
  string_ptr : string;
  blob : list Z
}.

#[global] Instance le_union_ops : OmlValueOps le_union := {
  omlc_get_long u := int64_of (scalar u);
  omlc_get_int32 u := int32_of (scalar u);
  omlc_get_uint32 u := uint32_of (scalar u);
  omlc_get_int64 u := int64_of (scalar u);
  omlc_get_uint64 u := uint64_of (scalar u);
  omlc_get_double u := uint64_of (scalar u);
  omlc_get_guid u := uint64_of (scalar u);
  omlc_get_bool u := wrap_unsigned 8 (scalar u);
  omlc_get_string_length u := string_length u;
  omlc_get_string_ptr u := string_ptr u;
  blob_bytes u := blob u
}.

Definition scalar_value (type : OmlValueT) (bytes : Z) : OmlValue le_union :=
  {| oml_value_get_type := type;
     oml_value_get_value := {| scalar := bytes; string_length := 0;
                               string_ptr := ""; blob := [] |} |}.

(** Stand-ins for the absent helpers in the examples: escaping yields the
    empty text (one byte with its NUL), the JSON writers leave the buffer alone, the server time
    stamp is 0.0. *)
Definition no_escape : list Z -> Z -> option string * Z := fun _ _ => (Some "", 1).
Definition no_json : OmlValueT -> le_union -> buffer -> buffer := fun _ _ b => b.
Definition no_time : Z -> Z -> Z -> double := fun _ _ _ => 0.

(** A table with a single payload column. *)
Definition one_column (type : OmlValueT) : DbTable :=
  table_of {| schema_name := "link";
              fields := [{| field_name := "bytes"; field_type := type |}] |}.

(** An outside in which nothing fails, at wall-clock second [now]. *)
Definition quiet_env (now : Z) : insert_env :=
  {| tv_sec := now; tv_usec := 0; reopen_ret := 0;
     realloc_ok := fun _ => true; exec_status := PGRES_COMMAND_OK;
     null_text := "(null)" |}.

End Psql.

(** ** The zlib helpers (lib/shared/zlib_utils.c) *)

Module Zlib.

(** The return codes and flush values of zlib.h. *)
Definition Z_OK : Z := 0.
Definition Z_STREAM_END : Z := 1.
Definition Z_NEED_DICT : Z := 2.
Definition Z_ERRNO : Z := -1.
Definition Z_STREAM_ERROR : Z := -2.
Definition Z_DATA_ERROR : Z := -3.
Definition Z_MEM_ERROR : Z := -4.
Definition Z_BUF_ERROR : Z := -5.

Definition Z_NO_FLUSH : Z := 0.
Definition Z_FINISH : Z := 4.

(** *** The library

    What one call of [deflate] or [inflate] does to a stream: its return
    value, how many of the available input bytes it took, the bytes it put
    in the output buffer, and its new internal state. *)
Record zcall (S : Type) := {
  zc_ret : Z;
  zc_consumed : nat;
  zc_produced : list Z;
  zc_state : S
}.
Arguments zc_ret {S} _.
Arguments zc_consumed {S} _.
Arguments zc_produced {S} _.
Arguments zc_state {S} _.

(** zlib itself is not part of the sources: it is any implementation of
    these entry points.  [deflate] and [inflate] are given the internal
    state, the bytes at [next_in] ([avail_in] is their number), the flush
    value and [avail_out]. *)
Class ZlibImpl := {
  dstate : Type;
  istate : Type;
  deflateInit2 : Z -> Z -> Z * dstate;      (* level, windowBits *)
  deflate : dstate -> list Z -> Z -> nat -> zcall dstate;
  inflateInit2 : Z -> Z * istate;           (* windowBits *)
  inflate : istate -> list Z -> Z -> nat -> zcall istate;
  inflateSync : istate -> list Z -> zcall istate
}.

(** The fields of [z_stream] the helpers use.  [next_in] is the input not
    yet taken; [out_buf] holds what was written to [out] since [next_out]
    was last set to it. *)
Record z_stream (S : Type) := {
  next_in : list Z;
  out_buf : list Z;
  avail_out : nat;
  zstate : S
}.
Arguments next_in {S} _.
Arguments out_buf {S} _.
Arguments avail_out {S} _.
Arguments zstate {S} _.

Definition avail_in {S} (strm : z_stream S) : nat := length (next_in strm).

(** [strm.next_in = in], after [strm.avail_in = fread (in, ...)] *)
Definition set_input {S} (bytes : list Z) (strm : z_stream S) : z_stream S :=
  {| next_in := bytes; out_buf := out_buf strm; avail_out := avail_out strm;
     zstate := zstate strm |}.

(** [strm.avail_out = n; strm.next_out = out] *)
Definition reset_output {S} (n : nat) (strm : z_stream S) : z_stream S :=
  {| next_in := next_in strm; out_buf := []; avail_out := n; zstate := zstate strm |}.

(** The stream after a call. *)
Definition after_call {S} (strm : z_stream S) (r : zcall S) : z_stream S :=
  {| next_in := drop (zc_consumed r) (next_in strm);
     out_buf := out_buf strm ++ zc_produced r;
     avail_out := avail_out strm - length (zc_produced r);
     zstate := zc_state r |}.

(** *** Files

    A file read with [fread]: the bytes still to come, whether the end was
    hit, and after how many more reads the error indicator comes up (if
    ever). *)
Record rfile := {
  r_rest : list Z;
  r_eof : bool;
  r_error_in : option nat
}.

(** [fread (in, 1, n, source)] followed by [ferror (source)]: the bytes
    read, the file, and the error indicator. *)
Definition fread (n : nat) (f : rfile) : list Z * rfile * bool :=
  match r_error_in f with
  | Some O => ([], f, true)
  | e =>
      (take n (r_rest f),
       {| r_rest := drop n (r_rest f);
          r_eof := r_eof f || (length (r_rest f) <? n)%nat;
          r_error_in := pred <$> e |},
       false)
  end.

Definition feof (f : rfile) : bool := r_eof f.

(** A file written with [fwrite]: the bytes so far, and after how many
    more writes a write fails (if ever). *)
Record wfile := {
  w_data : list Z;
  w_error_in : option nat
}.

(** [fwrite (out, 1, have, dest) != have || ferror (dest)]: [None] when
    that holds. *)
Definition fwrite (bytes : list Z) (f : wfile) : option wfile :=
  match w_error_in f with
  | Some O => None
  | e => Some {| w_data := w_data f ++ bytes; w_error_in := pred <$> e |}
  end.

Definition file_of (bytes : list Z) : rfile :=
  {| r_rest := bytes; r_eof := false; r_error_in := None |}.
Definition empty_file : wfile := {| w_data := []; w_error_in := None |}.

(** What a helper leaves behind: its return value, the destination, the
    value of [ret] with which its outer loop ended ([None] when the
    function returned from inside the loops, or before them), and the
    values that zlib returned, call after call: those of [deflate] for
    [oml_zlib_def], those of [inflate] for [oml_zlib_inf]. *)
Record zresult := {
  zr_ret : Z;
  zr_dest : wfile;
  zr_loop : option Z;
  zr_calls : list Z
}.

Definition early (code : Z) (dest : wfile) (calls : list Z) : zresult :=
  {| zr_ret := code; zr_dest := dest; zr_loop := None; zr_calls := calls |}.

(** The status a loop of [oml_zlib_inf] is in after the calls of
    [inflate]: what the last of them returned, [Z_NEED_DICT] being turned
    into [Z_DATA_ERROR]; [Z_OK], from [inflateInit2], when none was
    made. *)
Definition loop_status (calls : list Z) : Z :=
  match last calls with
  | Some c => if c =? Z_NEED_DICT then Z_DATA_ERROR else c
  | None => Z_OK
  end.

(** The codes with which [oml_zlib_inf] returns from inside its loops. *)
Definition early_code (r : zresult) : Prop :=
  zr_loop r = None
  /\ (zr_ret r = Z_ERRNO \/ zr_ret r = Z_STREAM_ERROR \/ zr_ret r = Z_MEM_ERROR).

(** A normal end of the outer loop of [oml_zlib_inf], with [ret] equal to [s]. *)
Definition loop_end (r : zresult) (s : Z) : Prop :=
  zr_loop r = Some s
  /\ zr_ret r = (if s =? Z_STREAM_END then Z_OK else Z_DATA_ERROR).

Section Helpers.

Context `{ZlibImpl}.

(** [OML_ZLIB_CHUNKSIZE] and [OML_ZLIB_WINDOWBITS], from the absent
    zlib_utils.h. *)
Variable OML_ZLIB_CHUNKSIZE : nat.
Variable OML_ZLIB_WINDOWBITS : Z.

(** The loops are given a bound on the number of times they may go
    round: nothing in the helpers themselves limits how often zlib can
    ask to be called again.  [None] means the bound was reached. *)

(** The inner loop of [oml_zlib_def]: either the function returns, or the
    loop ends with [ret], the stream and the destination.  [calls] are the
    values [deflate] has returned so far. *)
Fixpoint def_inner (fuel : nat) (strm : z_stream dstate) (flush : Z) (dest : wfile)
    (calls : list Z)
  : option (zresult + Z * z_stream dstate * wfile * list Z) :=
  match fuel with
  | O => None
  | S fuel' =>
      let strm := reset_output OML_ZLIB_CHUNKSIZE strm in
      let r := deflate (zstate strm) (next_in strm) flush (avail_out strm) in
      let ret := zc_ret r in
      let calls := calls ++ [ret] in
      let strm := after_call strm r in
      if ret =? Z_STREAM_ERROR then Some (inl (early ret dest calls))
      else
        let have := (OML_ZLIB_CHUNKSIZE - avail_out strm)%nat in
        match fwrite (take have (out_buf strm)) dest with
        | None => Some (inl (early Z_ERRNO dest calls))
        | Some dest =>
            if (avail_out strm =? 0)%nat then def_inner fuel' strm flush dest calls
            else Some (inr (ret, strm, dest, calls))
        end
  end.

Fixpoint def_outer (fuel : nat) (strm : z_stream dstate) (source : rfile) (dest : wfile)
    (calls : list Z) : option zresult :=
  match fuel with
  | O => None
  | S fuel' =>
      let '(bytes, source, error) := fread OML_ZLIB_CHUNKSIZE source in
      if error then Some (early Z_ERRNO dest calls)
      else
        let flush := if feof source then Z_FINISH else Z_NO_FLUSH in
        let strm := set_input bytes strm in
        match def_inner fuel' strm flush dest calls with
        | None => None
        | Some (inl r) => Some r
        | Some (inr (ret, strm, dest, calls)) =>
            if negb (avail_in strm =? 0)%nat then Some (early Z_STREAM_ERROR dest calls)
            else if negb (flush =? Z_FINISH) then def_outer fuel' strm source dest calls
            else if negb (ret =? Z_STREAM_END) then
              Some {| zr_ret := Z_STREAM_ERROR; zr_dest := dest; zr_loop := Some ret;
                      zr_calls := calls |}
            else Some {| zr_ret := Z_OK; zr_dest := dest; zr_loop := Some ret;
                         zr_calls := calls |}
        end
  end.

(** Compress from file source to file dest until EOF on source. *)
Definition oml_zlib_def (fuel : nat) (source : rfile) (dest : wfile) (level : Z)
  : option zresult :=
  let '(ret, st) := deflateInit2 level OML_ZLIB_WINDOWBITS in
  if negb (ret =? Z_OK) then Some (early ret dest [])
  else
    def_outer fuel {| next_in := []; out_buf := []; avail_out := 0; zstate := st |}
      source dest [].

(** The inner loop of [oml_zlib_inf].  [calls] are the values [inflate]
    has returned so far. *)
Fixpoint inf_inner (fuel : nat) (strm : z_stream istate) (resynced : Z) (dest : wfile)
    (calls : list Z)
  : option (zresult + Z * z_stream istate * Z * wfile * list Z) :=
  match fuel with
  | O => None
  | S fuel' =>
      let strm := if resynced =? 0 then reset_output OML_ZLIB_CHUNKSIZE strm else strm in
      let r := inflate (zstate strm) (next_in strm) Z_NO_FLUSH (avail_out strm) in
      let ret := zc_ret r in
      let calls := calls ++ [ret] in
      let strm := after_call strm r in
      if ret =? Z_STREAM_ERROR then Some (inl (early Z_STREAM_ERROR dest calls))
      else if ret =? Z_MEM_ERROR then Some (inl (early ret dest calls))
      else
        (* case Z_NEED_DICT: ret = Z_DATA_ERROR; and fall through
           case Z_DATA_ERROR: ... break; *)
        let '(ret, strm, resynced) :=
          if (ret =? Z_NEED_DICT) || (ret =? Z_DATA_ERROR) then
            if resynced =? 1 then (Z_DATA_ERROR, strm, 2)
            else
              let s := inflateSync (zstate strm) (next_in strm) in
              let strm' := {| next_in := drop (zc_consumed s) (next_in strm);
                              out_buf := out_buf strm; avail_out := avail_out strm;
                              zstate := zc_state s |} in
              if zc_ret s =? Z_OK then (Z_DATA_ERROR, strm', 1)
              else (Z_DATA_ERROR, strm', resynced)
          else (ret, strm, resynced) in
        let have := (OML_ZLIB_CHUNKSIZE - avail_out strm)%nat in
        match fwrite (take have (out_buf strm)) dest with
        | None => Some (inl (early Z_ERRNO dest calls))
        | Some dest =>
            let resynced := if (0 <? have)%nat then 0 else resynced in
            if (avail_out strm =? 0)%nat || negb (resynced =? 0) then
              inf_inner fuel' strm resynced dest calls
            else Some (inr (ret, strm, resynced, dest, calls))
        end
  end.

Fixpoint inf_outer (fuel : nat) (strm : z_stream istate) (ret : Z) (resynced : Z)
    (source : rfile) (dest : wfile) (calls : list Z) : option zresult :=
  match fuel with
  | O => None
  | S fuel' =>
      let '(bytes, source, error) := fread OML_ZLIB_CHUNKSIZE source in
      if error then Some (early Z_ERRNO dest calls)
      else if (length bytes =? 0)%nat then
        (* break *)
        Some {| zr_ret := if ret =? Z_STREAM_END then Z_OK else Z_DATA_ERROR;
                zr_dest := dest; zr_loop := Some ret; zr_calls := calls |}
      else
        let strm := set_input bytes strm in
        match inf_inner fuel' strm resynced dest calls with
        | None => None
        | Some (inl r) => Some r
        | Some (inr (ret, strm, resynced, dest, calls)) =>
            if negb (ret =? Z_STREAM_END) then
              inf_outer fuel' strm ret resynced source dest calls
            else Some {| zr_ret := if ret =? Z_STREAM_END then Z_OK else Z_DATA_ERROR;
                         zr_dest := dest; zr_loop := Some ret; zr_calls := calls |}
        end
  end.

(** The value is one that a call of [inflate] as the helper makes them
    returns. *)
Definition returned_by_inflate (c : Z) : Prop :=
  exists st input n, c = zc_ret (inflate st input Z_NO_FLUSH n).

(** Decompress from file source to file dest until stream ends or EOF. *)
Definition oml_zlib_inf (fuel : nat) (source : rfile) (dest : wfile) : option zresult :=
  let '(ret, st) := inflateInit2 OML_ZLIB_WINDOWBITS in
  if negb (ret =? Z_OK) then Some (early ret dest [])
  else
    inf_outer fuel {| next_in := []; out_buf := []; avail_out := 0; zstate := st |}
      ret 0 source dest [].

End Helpers.

(** *** Searching for a marker *)

(** Whether the bytes of [needle] stand at the start of [hay]. *)
Fixpoint starts_with (needle hay : list Z) : bool :=
  match needle, hay with
  | [], _ => true
  | _ :: _, [] => false
  | n :: needle', h :: hay' => (n =? h) && starts_with needle' hay'
  end.

(** memmem(3): the offset of the first occurrence of [needle] in [hay]. *)
Fixpoint memmem (hay needle : list Z) : option nat :=
  if starts_with needle hay then Some 0%nat
  else
    match hay with
    | [] => None
    | _ :: hay' => S <$> memmem hay' needle
    end.

Definition gziphdr : list Z := [31; 139].           (* 0x1f, 0x8b *)
Definition blockhdr : list Z := [0; 0; 255; 255].   (* 0x00, 0x00, 0xff, 0xff *)

(** Search for the next block or new GZip header, whichever comes first;
    [buf] holds the [len] bytes to look at. *)
Definition oml_zlib_find_sync (buf : list Z) : Z :=
  let len := length buf in
  let gziphdrptr := if (2 <=? len)%nat then memmem buf gziphdr else None in
  let blockhdrptr := if (4 <=? len)%nat then memmem buf blockhdr else None in
  match blockhdrptr, gziphdrptr with
  | Some b, None => Z.of_nat b
  | None, Some g => Z.of_nat g
  | Some b, Some g =>
      if (b <? g)%nat then Z.of_nat b
      else if (g <? b)%nat then Z.of_nat g
      else -1
  | None, None => -1
  end.

(** Whether one of the two markers starts at offset [i] of [buf]. *)
Definition marker_at (buf : list Z) (i : nat) : bool :=
  starts_with gziphdr (drop i buf) || starts_with blockhdr (drop i buf).

(** *** What the helpers rely on from zlib

    zlib.h describes [deflate] and [inflate] for a caller that follows the
    protocol of the helpers: fresh output space on every call, the same
    flush value until the output buffer is left with room, and for
    [inflate] the bytes of one complete stream.  [ZlibSpec] states that
    description for an implementation:

    - [encodes s e]: [e] is a complete compressed stream for the bytes [s];
    - [dinv st c e]: the deflate state [st] has taken the bytes [c] and
      given out the bytes [e] so far;
    - [dclosed st]: [Z_FINISH] has been acted upon (no more input is
      accepted);
    - [dwork st input flush]: a bound on the calls that can still fill the
      output buffer for this input;
    - [iinv s e st p q]: while reading the stream [e] of [s], the inflate
      state [st] has taken [p] bytes of [e] and given out [q] bytes of
      [s]. *)

Section Spec.

Context `{ZlibImpl}.

(** After a call of [deflate] on [input] with [n] bytes of output space. *)
Definition deflate_post (encodes : list Z -> list Z -> Prop)
    (dinv : dstate -> list Z -> list Z -> Prop) (dclosed : dstate -> Prop)
    (dwork : dstate -> list Z -> Z -> nat)
    (s : dstate) (c e input : list Z) (flush : Z) (n : nat) (r : zcall dstate) : Prop :=
  let k := zc_consumed r in
  let o := zc_produced r in
  (k <= length input)%nat /\ (length o <= n)%nat
  /\ zc_ret r <> Z_STREAM_ERROR
  /\ dinv (zc_state r) (c ++ take k input) (e ++ o)
  /\ (dclosed (zc_state r) -> k = length input)
  /\ (flush = Z_NO_FLUSH -> ~ dclosed s -> ~ dclosed (zc_state r))
  (* room is left in the output: all input was taken, and with Z_FINISH
     the stream is complete *)
  /\ ((length o < n)%nat ->
      k = length input /\ (flush = Z_FINISH -> zc_ret r = Z_STREAM_END))
  (* the output is full: there is less left to do *)
  /\ (length o = n -> (dwork (zc_state r) (drop k input) flush < dwork s input flush)%nat)
  /\ (zc_ret r = Z_STREAM_END -> encodes (c ++ input) (e ++ o)).

(** After a call of [inflate] on [input], the next bytes of the stream [e]
    of [s], with [n] bytes of output space. *)
Definition inflate_post (s e : list Z) (iinv : istate -> nat -> nat -> Prop)
    (p q : nat) (input : list Z) (n : nat) (r : zcall istate) : Prop :=
  let k := zc_consumed r in
  let o := zc_produced r in
  (k <= length input)%nat /\ (length o <= n)%nat
  /\ take (q + length o) s = take q s ++ o /\ (q + length o <= length s)%nat
  /\ iinv (zc_state r) (p + k)%nat (q + length o)%nat
  /\ (zc_ret r = Z_OK \/ zc_ret r = Z_STREAM_END \/ zc_ret r = Z_BUF_ERROR)
  /\ (zc_ret r = Z_STREAM_END -> (q + length o)%nat = length s)
  (* room is left in the output and the stream has not ended: all input
     was taken and more of the stream is to come *)
  /\ (zc_ret r <> Z_STREAM_END -> (length o < n)%nat ->
      k = length input /\ (p + k < length e)%nat).

Record ZlibSpec (level windowBits : Z) : Type := {
  encodes : list Z -> list Z -> Prop;
  dinv : dstate -> list Z -> list Z -> Prop;
  dclosed : dstate -> Prop;
  dwork : dstate -> list Z -> Z -> nat;
  iinv : list Z -> list Z -> istate -> nat -> nat -> Prop;
  encodes_nonempty : forall s e, encodes s e -> e <> [];
  deflate_init :
    exists st, deflateInit2 level windowBits = (Z_OK, st)
               /\ dinv st [] [] /\ ~ dclosed st;
  deflate_step : forall st c e input flush n,
    dinv st c e -> (dclosed st -> input = []) ->
    flush = Z_NO_FLUSH \/ flush = Z_FINISH -> (0 < n)%nat ->
    deflate_post encodes dinv dclosed dwork st c e input flush n
      (deflate st input flush n);
  inflate_init :
    exists st, inflateInit2 windowBits = (Z_OK, st)
               /\ forall s e, encodes s e -> iinv s e st 0%nat 0%nat;
  inflate_step : forall s e st p q input rest n,
    encodes s e -> iinv s e st p q -> drop p e = input ++ rest -> (0 < n)%nat ->
    inflate_post s e (iinv s e) p q input n (inflate st input Z_NO_FLUSH n)
}.

End Spec.

(** *** A stand-in for zlib in the examples

    The stored codec: every byte [b] of the stream is written as the pair
    [1; b], and the stream ends with a single [0].  Like zlib it keeps the
    output that did not fit in the buffer for the next call. *)

Record stored_dstate := {
  sd_pending : list Z;
  sd_finished : bool
}.

Inductive stored_mode := AtTag | AtByte | AtEnd | AtGarbage.

Record stored_istate := {
  si_mode : stored_mode;
  si_pending : list Z
}.

Definition stored_encode (bytes : list Z) : list Z :=
  flat_map (fun b => [1; b]) bytes.

Definition stored_deflate (s : stored_dstate) (input : list Z) (flush : Z) (n : nat)
  : zcall stored_dstate :=
  let finish := flush =? Z_FINISH in
  let pending :=
    sd_pending s ++ stored_encode input
      ++ (if finish && negb (sd_finished s) then [0] else []) in
  let finished := sd_finished s || finish in
  {| zc_ret := if finished && (length pending <=? n)%nat then Z_STREAM_END
               else if (length pending =? 0)%nat then Z_BUF_ERROR
               else Z_OK;
     zc_consumed := length input;
     zc_produced := take n pending;
     zc_state := {| sd_pending := drop n pending; sd_finished := finished |} |}.

(** Reading the input: the mode reached, the bytes decoded and the number
    of input bytes used.  Nothing is read past the end of the stream or
    past a byte that cannot be a tag. *)
Fixpoint stored_parse (mode : stored_mode) (input : list Z)
  : stored_mode * list Z * nat :=
  match input with
  | [] => (mode, [], 0%nat)
  | b :: input' =>
      match mode with
      | AtTag =>
          if b =? 1 then
            let '(m, out, used) := stored_parse AtByte input' in (m, out, S used)
          else if b =? 0 then (AtEnd, [], 1%nat)
          else (AtGarbage, [], 0%nat)
      | AtByte =>
          let '(m, out, used) := stored_parse AtTag input' in (m, b :: out, S used)
      | AtEnd => (AtEnd, [], 0%nat)
      | AtGarbage => (AtGarbage, [], 0%nat)
      end
  end.

Definition stored_inflate (s : stored_istate) (input : list Z) (flush : Z) (n : nat)
  : zcall stored_istate :=
  let '(mode, decoded, used) := stored_parse (si_mode s) input in
  let pending := si_pending s ++ decoded in
  {| zc_ret :=
       match mode with
       | AtGarbage => if (length pending =? 0)%nat then Z_DATA_ERROR else Z_OK
       | AtEnd => if (length pending <=? n)%nat then Z_STREAM_END else Z_OK
       | _ => if (length pending =? 0)%nat && (used =? 0)%nat then Z_BUF_ERROR else Z_OK
       end;
     zc_consumed := used;
     zc_produced := take n pending;
     zc_state := {| si_mode := mode; si_pending := drop n pending |} |}.

(** The stored codec has no marker to resynchronise on: the rest of the
    input is skipped and the search reports failure. *)
Definition stored_inflateSync (s : stored_istate) (input : list Z) : zcall stored_istate :=
  {| zc_ret := Z_DATA_ERROR; zc_consumed := length input; zc_produced := [];
     zc_state := s |}.

#[global] Instance stored_codec : ZlibImpl := {
  dstate := stored_dstate;
  istate := stored_istate;
  deflateInit2 level windowBits :=
    (if (-1 <=? level) && (level <=? 9) then Z_OK else Z_STREAM_ERROR,
     {| sd_pending := []; sd_finished := false |});
  deflate := stored_deflate;
  inflateInit2 windowBits := (Z_OK, {| si_mode := AtTag; si_pending := [] |});
  inflate := stored_inflate;
  inflateSync := stored_inflateSync
}.

(** The stored codec in the terms of [ZlibSpec]. *)
Definition stored_encodes (s e : list Z) : Prop := e = stored_encode s ++ [0].

Definition stored_dinv (st : stored_dstate) (c e : list Z) : Prop :=
  e ++ sd_pending st = stored_encode c ++ (if sd_finished st then [0] else []).

Definition stored_dclosed (st : stored_dstate) : Prop := sd_finished st = true.

Definition stored_dwork (st : stored_dstate) (input : list Z) (flush : Z) : nat :=
  length (sd_pending st) + 2 * length input
  + (if (flush =? Z_FINISH) && negb (sd_finished st) then 1 else 0).

(** Where the reader stands after [p] bytes of the stream of [s], [d] bytes
    of [s] being decoded. *)
Definition stored_at (s : list Z) (mode : stored_mode) (p d : nat) : Prop :=
  match mode with
  | AtTag => p = (2 * d)%nat /\ (d <= length s)%nat
  | AtByte => p = (2 * d + 1)%nat /\ (d < length s)%nat
  | AtEnd => p = (2 * length s + 1)%nat /\ d = length s
  | AtGarbage => False
  end.

(** [d] bytes of the data are decoded, [q] of them given out, the others
    pending. *)
Definition stored_iinv (s e : list Z) (st : stored_istate) (p q : nat) : Prop :=
  e = stored_encode s ++ [0]
  /\ exists d, (q <= d)%nat
       /\ take q s ++ si_pending st = take d s
       /\ stored_at s (si_mode st) p d.

End Zlib.

(** * Properties *)

(** ** Collection URIs *)

Section UriFacts.
Import Uri.

Lemma strsep_scan_no_delim delim s :
  forallb (fun c => negb (in_delim c delim)) (list_ascii_of_string s) = true ->
  strsep_scan delim s = (s, None).
Proof.
  induction s as [|c s IH]; simpl; [done|].
  intros [Hc Hs]%andb_prop. apply negb_true_iff in Hc. rewrite Hc.
  by rewrite (IH Hs).
Qed.

Lemma substring_all s : String.substring 0 (String.length s) s = s.
Proof. induction s as [|c s IH]; simpl; [done|]. by rewrite IH. Qed.

Lemma single_token_split token :
  single_token token = true ->
  strsep_scan "[" token = (token, None) /\ strsep_scan ":" token = (token, None)
  /\ token <> EmptyString.
Proof.
  unfold single_token. intros [Hne Hall]%andb_prop.
  rewrite forallb_forall in Hall.
  split_and!.
  - apply strsep_scan_no_delim, forallb_forall. intros c Hc.
    by destruct (andb_prop _ _ (Hall c Hc)).
  - apply strsep_scan_no_delim, forallb_forall. intros c Hc.
    by destruct (andb_prop _ _ (Hall c Hc)).
  - by destruct token.
Qed.

Lemma parse_uri_single_token token :
  single_token token = true ->
  parse_uri (Some token) =
    {| pr_ret := 0;
       pr_out := Some (None, Some token, None);
       pr_log :=
         if bool_decide (oml_uri_type (Some token) ≠ OML_URI_UNKNOWN) then
           [(LogWarn, "Server URI with unknown scheme, assuming 'tcp:" +:+ token +:+ "'")]
         else [] |}.
Proof.
  intros (Hb & Hc & Hne)%single_token_split.
  unfold parse_uri, split_uri. cbn [strsep part set_part parts lengths].
  cbn -[strsep_scan oml_uri_type String.length String.substring Nat.ltb].
  rewrite Hb.
  cbn -[strsep_scan oml_uri_type String.length String.substring Nat.ltb].
  rewrite Hc.
  cbn -[strsep_scan oml_uri_type String.length String.substring Nat.ltb].
  rewrite substring_all.
  destruct token as [|c t]; [done|].
  cbn -[oml_uri_type]. done.
Qed.

(** C7, as worded, asks for a warning when [host.example:9999] is parsed;
    [parse_uri] logs nothing for it. *)
Lemma parse_uri_host_port_logs_nothing :
  ~ (exists l, l ∈ pr_log (parse_uri (Some "host.example:9999")) /\ is_warning l = true).
Proof. vm_compute. intros (l & Hl & _). by apply elem_of_nil in Hl. Qed.

(** C7 (amended): [parse_uri] returns the three triples of the scenario,
    each without logging anything; a URI made of a single token gives
    (null, token, null), and the warning about the unknown scheme is logged
    exactly when the token starts with the name of a known scheme. *)
Theorem parse_uri_scenarios (token : string) (Htoken : single_token token = true) :
  parse_uri (Some "tcp:[::1]:3003") =
    {| pr_ret := 0; pr_out := Some (Some "tcp", Some "::1", Some "3003"); pr_log := [] |}
  /\ parse_uri (Some "file:/tmp/out.log") =
    {| pr_ret := 0; pr_out := Some (Some "file", Some "/tmp/out.log", None); pr_log := [] |}
  /\ parse_uri (Some "host.example:9999") =
    {| pr_ret := 0; pr_out := Some (None, Some "host.example", Some "9999"); pr_log := [] |}
  /\ pr_ret (parse_uri (Some token)) = 0
  /\ pr_out (parse_uri (Some token)) = Some (None, Some token, None)
  /\ (existsb is_warning (pr_log (parse_uri (Some token))) = true
      <-> oml_uri_type (Some token) <> OML_URI_UNKNOWN).
Proof.
  split_and!; try by vm_compute.
  - by rewrite parse_uri_single_token.
  - by rewrite parse_uri_single_token.
  - rewrite parse_uri_single_token by done. cbn [pr_log].
    case_bool_decide; cbn; naive_solver.
Qed.

Lemma parse_uri_scenarios_witness :
  single_token "tcphost" = true
  /\ pr_out (parse_uri (Some "tcphost")) = Some (None, Some "tcphost", None)
  /\ existsb is_warning (pr_log (parse_uri (Some "tcphost"))) = true.
Proof.
  split; [reflexivity|].
  pose proof (parse_uri_scenarios "tcphost" eq_refl) as (_ & _ & _ & _ & Hout & Hwarn).
  split; [exact Hout|]. apply Hwarn. by vm_compute.
Defined.

(** *** The shapes [parse_uri] accepts *)

Lemma list_ascii_of_string_app a b :
  list_ascii_of_string (a +:+ b) = list_ascii_of_string a ++ list_ascii_of_string b.
Proof.
  induction a as [|c a IH]; [done|].
  change (String c a +:+ b) with (String c (a +:+ b)). cbn. by rewrite IH.
Qed.

Lemma free_of_app delim a b :
  free_of delim (a +:+ b) = free_of delim a && free_of delim b.
Proof. unfold free_of. by rewrite list_ascii_of_string_app, forallb_app. Qed.

Lemma strsep_scan_free delim s :
  free_of delim s = true -> strsep_scan delim s = (s, None).
Proof. apply strsep_scan_no_delim. Qed.

Lemma strsep_scan_at_delim delim a c b :
  free_of delim a = true -> in_delim c delim = true ->
  strsep_scan delim (a +:+ String c b) = (a, Some b).
Proof.
  unfold free_of. intros Ha Hc. induction a as [|x a IH].
  - change (EmptyString +:+ String c b) with (String c b). cbn. by rewrite Hc.
  - change (String x a +:+ String c b) with (String x (a +:+ String c b)).
    cbn. cbn in Ha. apply andb_prop in Ha as [Hx Ha]. apply negb_true_iff in Hx.
    rewrite Hx. by rewrite (IH Ha).
Qed.

Lemma single_token_free token :
  single_token token = true ->
  free_of "[" token = true /\ free_of ":" token = true /\ token <> EmptyString.
Proof.
  unfold single_token, free_of. intros [Hne Hall]%andb_prop.
  rewrite forallb_forall in Hall. split_and!.
  - apply forallb_forall. intros c Hc. by destruct (andb_prop _ _ (Hall c Hc)).
  - apply forallb_forall. intros c Hc. by destruct (andb_prop _ _ (Hall c Hc)).
  - by destruct token.
Qed.

Lemma prefix_length lit : forall uri,
  String.prefix lit uri = true -> (String.length lit <=? String.length uri)%nat = true.
Proof.
  induction lit as [|c lit IH]; intros [|d uri]; cbn; try done.
  destruct (ascii_dec c d); [|done]. apply IH.
Qed.

Lemma starts_with_prefix lit uri : starts_with lit uri = String.prefix lit uri.
Proof.
  unfold starts_with. destruct (String.prefix lit uri) eqn:Hp.
  - by rewrite (prefix_length _ _ Hp).
  - apply andb_false_r.
Qed.

(** The arrays when the URI holds no bracket: the first two parts are cut
    at the first two colons, the third is what follows. *)
Lemma split_uri_plain uri p0 r1 p1 r2 :
  strsep_scan "[" uri = (uri, None) -> strsep_scan ":" uri = (p0, r1) ->
  strsep r1 ":" = (p1, r2) ->
  split_uri uri =
    ({| parts := [Some p0; p1; r2];
        lengths := [String.length p0; strlen0 p1; strlen0 r2] |}, 2%nat).
Proof.
  intros Hb Hc Hd. unfold split_uri. cbn [strsep part set_part parts lengths].
  cbn -[strsep_scan String.length]. rewrite Hb.
  cbn -[strsep_scan String.length]. rewrite Hc.
  cbn -[strsep_scan String.length].
  destruct r1 as [s|]; cbn -[strsep_scan String.length] in *.
  - destruct (strsep_scan ":" s) as [tok rest]. by injection Hd as <- <-.
  - by injection Hd as <- <-.
Qed.

(** X7: the network forms round-trip.  For the scheme [tcp] or [udp], a
    host that is one token and a non-empty port without bracket,
    [scheme:host:port] parses into exactly these three strings, nothing
    being logged. *)
Theorem parse_uri_network_form proto host port :
  proto = "tcp" \/ proto = "udp" ->
  single_token host = true -> free_of "[" port = true -> port <> EmptyString ->
  parse_uri (Some (proto +:+ ":" +:+ host +:+ ":" +:+ port)) =
    {| pr_ret := 0; pr_out := Some (Some proto, Some host, Some port); pr_log := [] |}.
Proof.
  intros Hproto (Hhb & Hhc & Hhne)%single_token_free Hpb Hpne.
  set (uri := proto +:+ ":" +:+ host +:+ ":" +:+ port).
  assert (Hfree : free_of "[" proto = true /\ free_of ":" proto = true)
    by (by destruct Hproto as [-> | ->]).
  destruct Hfree as [Hprb Hprc].
  assert (Hb : strsep_scan "[" uri = (uri, None)).
  { apply strsep_scan_free. subst uri. rewrite !free_of_app, Hprb, Hhb, Hpb. done. }
  assert (Hc : strsep_scan ":" uri = (proto, Some (host +:+ ":" +:+ port))).
  { subst uri. by apply strsep_scan_at_delim. }
  assert (Htype : oml_uri_is_network (oml_uri_type (Some uri)) = true).
  { unfold oml_uri_type. rewrite !starts_with_prefix. subst uri.
    by destruct Hproto as [-> | ->]. }
  assert (Hd : strsep (Some (host +:+ ":" +:+ port)) ":" = (Some host, Some port)).
  { cbn [strsep].
    change (host +:+ ":" +:+ port) with (host +:+ String ":" port).
    by rewrite (strsep_scan_at_delim ":" host ":" port Hhc eq_refl). }
  unfold parse_uri. rewrite (split_uri_plain _ _ _ _ _ Hb Hc Hd), Htype.
  destruct host as [|hc host]; [done|]. destruct port as [|pc port]; [done|].
  assert (Hproto_len : (0 <? String.length proto)%nat = true)
    by (by destruct Hproto as [-> | ->]).
  unfold clear_unused, trydup, len_of, part. cbn -[String.length String.substring Nat.ltb].
  rewrite Hproto_len, !substring_all. cbn. by rewrite ?substring_all.
Qed.

(** Whatever the URI, once the unused entries are cleared each recorded
    length is the length of the part beside it. *)
Lemma split_uri_measured uri p i :
  split_uri uri = (p, i) ->
  exists a b c,
    parts (clear_unused i p) = [a; b; c]
    /\ lengths (clear_unused i p) = [strlen0 a; strlen0 b; strlen0 c].
Proof.
  unfold split_uri. cbn [strsep part set_part parts lengths].
  cbn -[strsep_scan String.length].
  destruct (strsep_scan "[" uri) as [tok [inner|]];
    cbn -[strsep_scan String.length].
  - case_bool_decide as Htok; cbn -[strsep_scan String.length].
    + destruct (strsep_scan "]" inner) as [addr [rest|]];
        cbn -[strsep_scan String.length].
      * destruct (strsep_scan ":" rest) as [? [?|]];
          intros [= <- <-]; cbn; eauto.
      * intros [= <- <-]; cbn; eauto.
    + destruct (strsep_scan ":" tok) as [proto ?];
        cbn -[strsep_scan String.length].
      destruct (strsep_scan "]" inner) as [addr [rest|]];
        cbn -[strsep_scan String.length].
      * destruct (strsep_scan ":" rest) as [? [?|]];
          intros [= <- <-]; cbn; eauto.
      * intros [= <- <-]; cbn; eauto.
  - destruct (strsep_scan ":" tok) as [p0 [r1|]];
      cbn -[strsep_scan String.length].
    + destruct (strsep_scan ":" r1) as [p1 [r2|]];
        intros [= <- <-]; cbn; eauto.
    + intros [= <- <-]; cbn; eauto.
Qed.

Lemma trydup_measured p i :
  len_of p i = strlen0 (part p i) -> trydup p i = nonempty (part p i).
Proof.
  unfold trydup. intros ->. destruct (part p i) as [[|c s]|]; try done.
  unfold strlen0. by rewrite substring_all.
Qed.

Lemma nonempty_positive p :
  (0 <? strlen0 p)%nat = true -> exists s, nonempty p = Some s /\ s <> EmptyString.
Proof. destruct p as [[|c s]|]; cbn; try done. eauto. Qed.

Lemma nonempty_not_empty p : nonempty p <> Some EmptyString.
Proof. by destruct p as [[|c s]|]. Qed.

(** X5: [parse_uri] never hands out an empty string.  For every URI it
    either fails, returning -1 with the three outputs NULL and a line in the
    log, or succeeds, returning 0 with a path that is a non-empty string;
    protocol and port are then NULL or non-empty. *)
Theorem parse_uri_outputs u :
  let r := parse_uri (Some u) in
  (pr_ret r = -1 /\ pr_out r = Some (None, None, None) /\ pr_log r <> [])
  \/ (pr_ret r = 0
      /\ exists protocol path port,
           pr_out r = Some (protocol, Some path, port)
           /\ path <> EmptyString
           /\ protocol <> Some EmptyString /\ port <> Some EmptyString).
Proof.
  cbn zeta. unfold parse_uri.
  destruct (split_uri u) as [p i] eqn:Hsplit.
  destruct (split_uri_measured _ _ _ Hsplit) as (a & b & c & Hparts & Hlens).
  set (q := clear_unused i p) in *.
  assert (Hdup : forall k, trydup q k = nonempty (part q k)).
  { intros k. apply trydup_measured. unfold len_of, part. rewrite Hparts, Hlens.
    by destruct k as [|[|[|k]]]. }
  assert (Hlen : forall k, len_of q k = strlen0 (part q k)).
  { intros k. unfold len_of, part. rewrite Hparts, Hlens.
    by destruct k as [|[|[|k]]]. }
  rewrite !Hdup, !Hlen.
  destruct (0 <? strlen0 (part q 0))%nat eqn:H0; cbn [andb].
  - destruct (nonempty_positive _ H0) as (s0 & Hs0 & Hne0).
    destruct (0 <? strlen0 (part q 1))%nat eqn:H1.
    + destruct (nonempty_positive _ H1) as (s1 & Hs1 & Hne1).
      right. destruct (oml_uri_is_network _); [|destruct (oml_uri_is_file _)];
        cbn [pr_ret pr_out]; (split; [done|]).
      * exists (nonempty (part q 0)), s1, (nonempty (part q 2)).
        rewrite Hs1. split_and!; auto using nonempty_not_empty.
      * exists (nonempty (part q 0)), s1, None.
        rewrite Hs1. split_and!; auto using nonempty_not_empty.
      * exists None, s0, (nonempty (part q 1)).
        rewrite Hs0. split_and!; auto using nonempty_not_empty.
    + destruct (0 <? strlen0 (part q 2))%nat; [by left|].
      right. cbn [pr_ret pr_out]. split; [done|].
      exists None, s0, None. rewrite Hs0. by split_and!.
  - by left.
Qed.

(** X6: a URI whose scheme names a local file ([file] or [flush]) never
    yields a port, whatever follows the scheme. *)
Theorem parse_uri_file_no_port u :
  oml_uri_is_file (oml_uri_type (Some u)) = true ->
  exists protocol path, pr_out (parse_uri (Some u)) = Some (protocol, path, None).
Proof.
  intros Hfile. unfold parse_uri.
  assert (Hnet : oml_uri_is_network (oml_uri_type (Some u)) = false)
    by (by destruct (oml_uri_type (Some u))).
  rewrite Hnet, Hfile.
  destruct (split_uri u) as [p i].
  repeat match goal with |- context [if ?b then _ else _] =>
    match b with
    | bool_decide _ => fail 1
    | _ => destruct b
    end
  end; cbn [pr_out]; eauto.
Qed.

(** X8: an address kept in brackets may hold colons.  For an address
    without closing bracket in it and a non-empty port,
    [scheme:[address]:port] parses into scheme, address and port, and
    [[address]:port] into address and port without protocol; nothing is
    logged. *)
Theorem parse_uri_bracket_form proto addr port :
  proto = "tcp" \/ proto = "udp" ->
  free_of "]" addr = true -> addr <> EmptyString -> port <> EmptyString ->
  parse_uri (Some (proto +:+ ":[" +:+ addr +:+ "]:" +:+ port)) =
    {| pr_ret := 0; pr_out := Some (Some proto, Some addr, Some port); pr_log := [] |}
  /\ parse_uri (Some ("[" +:+ addr +:+ "]:" +:+ port)) =
    {| pr_ret := 0; pr_out := Some (None, Some addr, Some port); pr_log := [] |}.
Proof.
  intros Hproto Haddr Hane Hpne.
  assert (Hinner : strsep_scan "]" (addr +:+ "]:" +:+ port) = (addr, Some (":" +:+ port))).
  { change (addr +:+ "]:" +:+ port) with (addr +:+ String "]" (":" +:+ port)).
    by apply strsep_scan_at_delim. }
  assert (Hport : strsep_scan ":" (":" +:+ port) = (EmptyString, Some port)) by done.
  destruct addr as [|ac addr]; [done|]. destruct port as [|pc port]; [done|].
  split.
  - set (uri := proto +:+ ":[" +:+ String ac addr +:+ "]:" +:+ String pc port).
    assert (Hb : strsep_scan "[" uri =
                   (proto +:+ ":", Some (String ac addr +:+ "]:" +:+ String pc port))).
    { subst uri. by destruct Hproto as [-> | ->]. }
    assert (Hc : strsep_scan ":" (proto +:+ ":") = (proto, Some EmptyString))
      by (by destruct Hproto as [-> | ->]).
    assert (Hne : proto +:+ ":" <> EmptyString) by (by destruct Hproto as [-> | ->]).
    assert (Htype : oml_uri_is_network (oml_uri_type (Some uri)) = true).
    { unfold oml_uri_type. rewrite !starts_with_prefix. subst uri.
      by destruct Hproto as [-> | ->]. }
    assert (Hproto_len : (0 <? String.length proto)%nat = true)
      by (by destruct Hproto as [-> | ->]).
    unfold parse_uri. rewrite Htype. unfold split_uri.
    cbn [strsep part set_part parts lengths].
    cbn -[strsep_scan String.length String.substring Nat.ltb]. rewrite Hb.
    cbn -[strsep_scan String.length String.substring Nat.ltb].
    rewrite bool_decide_false by congruence. rewrite Hc.
    cbn -[strsep_scan String.length String.substring Nat.ltb]. rewrite Hinner.
    cbn -[strsep_scan String.length String.substring Nat.ltb]. rewrite Hport.
    unfold clear_unused, trydup, len_of, part.
    cbn -[String.length String.substring Nat.ltb].
    rewrite Hproto_len, !substring_all. cbn. by rewrite ?substring_all.
  - assert (Htype : oml_uri_type
                       (Some ("[" +:+ String ac addr +:+ "]:" +:+ String pc port))
                     = OML_URI_UNKNOWN).
    { unfold oml_uri_type. by rewrite !starts_with_prefix. }
    unfold parse_uri, split_uri. rewrite Htype.
    cbn [strsep part set_part parts lengths].
    cbn -[strsep_scan String.length String.substring Nat.ltb].
    change (strsep_scan "[" ("[" +:+ String ac addr +:+ "]:" +:+ String pc port))
      with (EmptyString, Some (String ac addr +:+ "]:" +:+ String pc port)).
    cbn -[strsep_scan String.length String.substring Nat.ltb].
    rewrite bool_decide_true by done.
    cbn -[strsep_scan String.length String.substring Nat.ltb]. rewrite Hinner.
    cbn -[strsep_scan String.length String.substring Nat.ltb]. rewrite Hport.
    unfold clear_unused, trydup, len_of, part.
    cbn -[String.length String.substring Nat.ltb].
    rewrite !substring_all. cbn. by rewrite ?substring_all.
Qed.

Lemma parse_uri_file_no_port_witness :
  oml_uri_is_file (oml_uri_type (Some "file:/tmp/out:3003")) = true
  /\ exists protocol path,
       pr_out (parse_uri (Some "file:/tmp/out:3003")) = Some (protocol, path, None).
Proof. split; [reflexivity | apply parse_uri_file_no_port; reflexivity]. Defined.

Lemma parse_uri_network_form_witness :
  parse_uri (Some "tcp:localhost:3003") =
    {| pr_ret := 0;
       pr_out := Some (Some "tcp", Some "localhost", Some "3003");
       pr_log := [] |}.
Proof.
  apply (parse_uri_network_form "tcp" "localhost" "3003");
    [left; reflexivity | reflexivity | reflexivity | discriminate].
Defined.

Lemma parse_uri_bracket_form_witness :
  parse_uri (Some "udp:[fe80::1]:3003") =
    {| pr_ret := 0;
       pr_out := Some (Some "udp", Some "fe80::1", Some "3003");
       pr_log := [] |}
  /\ parse_uri (Some "[fe80::1]:3003") =
    {| pr_ret := 0;
       pr_out := Some (None, Some "fe80::1", Some "3003");
       pr_log := [] |}.
Proof.
  apply (parse_uri_bracket_form "udp" "fe80::1" "3003");
    [right; reflexivity | reflexivity | discriminate | discriminate].
Defined.

End UriFacts.

(** ** The PostgreSQL adapter *)

(** *** The binary encoders *)

Section EncoderFacts.
Import Psql.

Lemma be_bytes_length n v : length (be_bytes n v) = n.
Proof. induction n as [|n IH]; cbn [be_bytes length]; [done|]. by rewrite IH. Qed.

Lemma be_decode_from n : forall acc v,
  foldl (fun acc b => 256 * acc + b) acc (be_bytes n v)
  = acc * 2 ^ (8 * Z.of_nat n) + v mod 2 ^ (8 * Z.of_nat n).
Proof.
  induction n as [|n IH]; intros acc v.
  - cbn [be_bytes foldl]. change (2 ^ (8 * Z.of_nat 0)) with 1.
    rewrite Z.mod_1_r. lia.
  - cbn [be_bytes foldl]. rewrite IH.
    change 255 with (Z.ones 8). rewrite Z.land_ones, Z.shiftr_div_pow2 by lia.
    replace (8 * Z.of_nat (S n)) with (8 * Z.of_nat n + 8) by lia.
    rewrite Z.pow_add_r by lia. change (2 ^ 8) with 256.
    rewrite (Z.rem_mul_r v (2 ^ (8 * Z.of_nat n)) 256) by lia.
    lia.
Qed.

Lemma be_decode_be_bytes n v :
  be_decode (be_bytes n v) = v mod 2 ^ (8 * Z.of_nat n).
Proof. unfold be_decode. rewrite be_decode_from. lia. Qed.

Lemma wrap_signed_mod bits v :
  0 < bits -> - 2 ^ (bits - 1) <= v < 2 ^ (bits - 1) ->
  wrap_signed bits (v mod 2 ^ bits) = v.
Proof.
  intros Hbits Hv. unfold wrap_signed.
  assert (Hpow : 2 ^ bits = 2 * 2 ^ (bits - 1)).
  { replace bits with (bits - 1 + 1) at 1 by lia. rewrite Z.pow_add_r by lia. lia. }
  assert (Hpos : 0 < 2 ^ (bits - 1)) by (apply Z.pow_pos_nonneg; lia).
  rewrite Zplus_mod_idemp_l.
  rewrite (Z.mod_small (v + 2 ^ (bits - 1))) by lia. lia.
Qed.

Lemma pg_int_of_be_bytes n v :
  (0 < n)%nat ->
  - 2 ^ (8 * Z.of_nat n - 1) <= v < 2 ^ (8 * Z.of_nat n - 1) ->
  pg_int_of_bytes (be_bytes n v) = v.
Proof.
  intros Hn Hv. unfold pg_int_of_bytes.
  rewrite be_bytes_length, be_decode_be_bytes. apply wrap_signed_mod; [lia|done].
Qed.

Lemma take_poke bs buf : take (length bs) (poke bs buf) = bs.
Proof. unfold poke. by rewrite take_app_length. Qed.

(** X11: what the integer encoders write is what the server reads back.
    The bytes bound for an int32 or an int64 are read as that number; a
    uint32 is widened and read as the same number; a uint64 is read as
    itself up to 2^63 - 1 and as the number less 2^64 above, the column
    being a signed BIGINT.  In each case the size returned is the number of
    bytes written, and the buffer behind them is left as it was. *)
Theorem psql_set_int_values_read_back (val : Z) (buf : buffer) :
  (- 2 ^ 31 <= val < 2 ^ 31 ->
   let '(b, n) := psql_set_int32_value val buf in
   n = 4 /\ pg_int_of_bytes (take (Z.to_nat n) b) = val /\ drop 4 b = drop 4 buf)
  /\ (- 2 ^ 63 <= val < 2 ^ 63 ->
      let '(b, n) := psql_set_int64_value val buf in
      n = 8 /\ pg_int_of_bytes (take (Z.to_nat n) b) = val /\ drop 8 b = drop 8 buf)
  /\ (0 <= val < 2 ^ 32 ->
      let '(b, n) := psql_set_uint32_value val buf in
      n = 8 /\ pg_int_of_bytes (take (Z.to_nat n) b) = val /\ drop 8 b = drop 8 buf)
  /\ (0 <= val < 2 ^ 64 ->
      let '(b, n) := psql_set_uint64_value val buf in
      n = 8
      /\ pg_int_of_bytes (take (Z.to_nat n) b) = (if val <? 2 ^ 63 then val else val - 2 ^ 64)
      /\ drop 8 b = drop 8 buf).
Proof.
  assert (Hwritten : forall n v, (0 < n)%nat ->
            - 2 ^ (8 * Z.of_nat n - 1) <= v < 2 ^ (8 * Z.of_nat n - 1) ->
            pg_int_of_bytes (take n (poke (be_bytes n v) buf)) = v
            /\ drop n (poke (be_bytes n v) buf) = drop n buf).
  { intros n v Hn Hv. split.
    - rewrite <- (be_bytes_length n v) at 1. rewrite take_poke.
      by apply pg_int_of_be_bytes.
    - unfold poke. rewrite <- (be_bytes_length n v) at 1.
      rewrite drop_app_length. by rewrite be_bytes_length. }
  split_and!.
  - intros Hval. cbn [psql_set_int32_value]. split; [done|].
    apply (Hwritten 4%nat val); [lia|]. cbn. lia.
  - intros Hval. cbn [psql_set_int64_value]. split; [done|].
    apply (Hwritten 8%nat val); [lia|]. cbn. lia.
  - intros Hval. unfold psql_set_uint32_value. cbn [psql_set_int64_value].
    split; [done|].
    assert (Hsame : int64_of val = val).
    { unfold int64_of, wrap_signed. rewrite Z.mod_small; lia. }
    rewrite Hsame. apply (Hwritten 8%nat val); [lia|]. cbn. lia.
  - intros Hval. unfold psql_set_uint64_value. cbn [psql_set_int64_value].
    split; [done|].
    assert (Hwrap : int64_of val = if val <? 2 ^ 63 then val else val - 2 ^ 64).
    { unfold int64_of, wrap_signed.
      destruct (val <? 2 ^ 63) eqn:Hlt.
      - apply Z.ltb_lt in Hlt. rewrite Z.mod_small; lia.
      - apply Z.ltb_ge in Hlt.
        replace (val + 2 ^ (64 - 1)) with (val - 2 ^ 63 + 1 * 2 ^ 64) by lia.
        rewrite Z.mod_add by lia. rewrite Z.mod_small; lia. }
    rewrite <- Hwrap. apply (Hwritten 8%nat (int64_of val)); [lia|].
    rewrite Hwrap. destruct (val <? 2 ^ 63) eqn:Hlt.
    + apply Z.ltb_lt in Hlt. cbn. lia.
    + apply Z.ltb_ge in Hlt. cbn. lia.
Qed.

Lemma psql_set_int_values_read_back_witness :
  pg_int_of_bytes (take 4 (fst (psql_set_int32_value (-2) [9; 9; 9; 9; 9]))) = -2
  /\ pg_int_of_bytes (take 8 (fst (psql_set_uint64_value (2 ^ 64 - 1) []))) = -1.
Proof.
  destruct (psql_set_int_values_read_back (-2) [9; 9; 9; 9; 9]) as (H32 & _).
  destruct (psql_set_int_values_read_back (2 ^ 64 - 1) []) as (_ & _ & _ & H64).
  split.
  - apply H32. lia.
  - apply H64. lia.
Defined.

End EncoderFacts.

(** *** The adapter and the server *)

Section PsqlFacts.
Import Psql.

(** *** Numbers printed with [%d] and read back with [atoi] *)

Lemma pretty_N_char_digit y :
  (y < 10)%N ->
  is_digit (pretty_N_char y) = true /\ digit_value (pretty_N_char y) = Z.of_N y.
Proof.
  intros Hy.
  assert (y = 0 \/ y = 1 \/ y = 2 \/ y = 3 \/ y = 4 \/ y = 5 \/ y = 6 \/ y = 7
          \/ y = 8 \/ y = 9)%N as Hcases by lia.
  repeat (destruct Hcases as [-> | Hcases]; [by vm_compute|]). subst. by vm_compute.
Qed.

Lemma leading_digits_pretty_N_go x :
  exists m, forall acc s,
    leading_digits acc (pretty_N_go x s) = leading_digits (acc * m + Z.of_N x) s.
Proof.
  induction (N.lt_wf_0 x) as [x _ IH].
  destruct (decide (0 < x)%N) as [Hpos|Hzero].
  - destruct (IH (x `div` 10)%N) as [m Hm]; [by apply N.div_lt|].
    exists (10 * m). intros acc s.
    rewrite pretty_N_go_step, Hm by done. cbn [leading_digits].
    destruct (pretty_N_char_digit (x `mod` 10)%N) as [-> ->];
      [by apply N.mod_lt|].
    f_equal. pose proof (N.div_mod x 10). lia.
  - exists 1. intros acc s. replace x with 0%N by lia.
    rewrite pretty_N_go_0. f_equal. lia.
Qed.

Lemma pretty_N_go_head x s :
  (0 < x)%N -> exists c rest, pretty_N_go x s = String c rest /\ is_digit c = true.
Proof.
  revert s. induction (N.lt_wf_0 x) as [x _ IH]; intros s Hpos.
  rewrite pretty_N_go_step by done.
  destruct (decide (0 < x `div` 10)%N) as [Hdiv|Hdiv].
  - apply IH; [by apply N.div_lt|done].
  - destruct (N.eq_0_gt_0_cases (x `div` 10)) as [->|?]; [|done].
    rewrite pretty_N_go_0. eexists _, _. split; [done|].
    by apply pretty_N_char_digit, N.mod_lt.
Qed.

Lemma atoi_digit_head c rest :
  is_digit c = true -> atoi (String c rest) = leading_digits 0 (String c rest).
Proof.
  destruct c as [[] [] [] [] [] [] [] []]; intros Hc; try discriminate Hc;
    reflexivity.
Qed.

Lemma atoi_pretty_pos p : atoi (pretty (N.pos p)) = Z.pos p.
Proof.
  unfold pretty, pretty_N. rewrite decide_False by done.
  destruct (pretty_N_go_head (N.pos p) "") as (c & rest & Heq & Hc); [done|].
  destruct (leading_digits_pretty_N_go (N.pos p)) as [m Hm].
  rewrite Heq, atoi_digit_head, <- Heq, Hm by done. cbn. lia.
Qed.

(** [atoi] reads back what [%d] printed. *)
Lemma atoi_pretty (z : Z) : atoi (pretty z) = z.
Proof.
  destruct z as [|p|p].
  - reflexivity.
  - apply atoi_pretty_pos.
  - unfold pretty, pretty_Z.
    change ("-" +:+ pretty p) with (String "-" (pretty (N.pos p))).
    pose proof (atoi_pretty_pos p) as Hpos.
    destruct (pretty_N_go_head (N.pos p) "") as (c & rest & Heq & Hc); [done|].
    unfold pretty, pretty_N in *. rewrite decide_False in * by done.
    rewrite Heq in *. rewrite atoi_digit_head in Hpos by done.
    unfold atoi. cbn [skip_spaces]. change (is_space "-") with false. cbn iota.
    rewrite Hpos. lia.
Qed.

Lemma max_of_ge l m z : max_of l = Some m -> z ∈ l -> z <= m.
Proof.
  destruct l as [|x l]; [done|]. cbn. intros [= <-].
  revert z. induction l as [|y l IH]; intros z Hz.
  - apply list_elem_of_singleton in Hz as ->. cbn. lia.
  - cbn. apply elem_of_cons in Hz as [->|Hz].
    + pose proof (IH x ltac:(left)). lia.
    + apply elem_of_cons in Hz as [->|Hz]; [lia|].
      pose proof (IH z ltac:(by right)). lia.
Qed.

(** *** Sender allocation *)

(** The lookup of a name in [_senders], read off the table. *)
Lemma psql_get_sender_id_rows db tbl name n :
  let c := conn (db_handle db) in
  pg_plain c "_senders" = true -> pg_plain c "name" = true -> pg_plain c "id" = true ->
  pg_tables c !! "_senders" = Some tbl ->
  column_type tbl "id" = Some PgInt -> column_type tbl "name" = Some PgText ->
  pg_literal name = Some n ->
  psql_get_sender_id db name =
    match List.filter (row_matches "name" n) (tbl_rows tbl) with
    | [] => None
    | row :: _ => Some (default "" (row !! "id"))
    end.
Proof.
  intros c Hs Hn Hi Htbl Hid Hname Hlit.
  unfold psql_get_sender_id, psql_get_key_value, PQexec. cbn [pg_described].
  fold c. rewrite Hs, Hn, Hi, Hlit, Htbl, Hid, Hname. cbn [andb column_input].
  cbn [PQresultStatus pg_tuples res_status].
  case_bool_decide; [congruence|].
  unfold PQntuples, PQnfields, PQgetvalue, pg_tuples. cbn [res_tuples res_nfields].
  destruct (List.filter (row_matches "name" n) (tbl_rows tbl)) as [|row rows]; [done|].
  cbn [fmap list_fmap length].
  match goal with |- context [Z.of_nat (S ?n) =? 0] =>
    replace (Z.of_nat (S n) =? 0) with false by (symmetry; apply Z.eqb_neq; lia) end.
  change (Z.of_nat 1 <? 1) with false. cbn.
  by destruct (row !! "id").
Qed.

(** What [SELECT MAX(id) FROM _senders] leads to: the id after the
    greatest number that the column holds, 1 when it holds none. *)
Lemma psql_add_sender_id_index db tbl name :
  let c := conn (db_handle db) in
  pg_tables c !! "_senders" = Some tbl ->
  column_type tbl "id" = Some PgInt ->
  psql_get_sender_id db name = None ->
  fst (psql_add_sender_id db name) =
    match max_of (omap (fun row : gmap string string => row !! "id" ≫= pg_int_of_text)
                    (tbl_rows tbl)) with
    | Some m => m + 1
    | None => 1
    end.
Proof.
  intros c Htbl Hid Hnone. unfold psql_add_sender_id. rewrite Hnone.
  unfold PQexec. cbn [pg_described]. fold c. rewrite Htbl, Hid.
  cbn [PQresultStatus pg_tuples res_status].
  case_bool_decide; [congruence|].
  unfold PQntuples, PQgetvalue, pg_tuples. cbn [res_tuples length lookup list_lookup].
  change (Z.of_nat 1 =? 0) with false. cbn iota.
  destruct (max_of _) as [m|]; cbn [fmap option_fmap option_map default].
  - unfold id. rewrite atoi_pretty. by destruct (psql_set_sender_id db name (m + 1)).
  - unfold id. change (atoi "" + 1) with 1.
    by destruct (psql_set_sender_id db name 1).
Qed.

(** On a [_senders] table without rows the lookup of a name finds nothing,
    [SELECT MAX(id)] answers one row holding NULL, which [PQgetvalue] shows
    as the empty string and [atoi] reads as 0: the id allocated is 1. *)
Lemma psql_add_sender_id_empty_table db tbl name n :
  let c := conn (db_handle db) in
  pg_plain c "_senders" = true -> pg_plain c "name" = true -> pg_plain c "id" = true ->
  pg_tables c !! "_senders" = Some tbl ->
  tbl_rows tbl = [] ->
  column_type tbl "id" = Some PgInt -> column_type tbl "name" = Some PgText ->
  pg_literal name = Some n ->
  fst (psql_add_sender_id db name) = 1.
Proof.
  intros c Hs Hn Hi Htbl Hrows Hid Hname Hlit.
  rewrite (psql_add_sender_id_index db tbl name Htbl Hid).
  - by rewrite Hrows.
  - rewrite (psql_get_sender_id_rows db tbl name n) by done. by rewrite Hrows.
Qed.

(** C1: on a new database, whose [_senders] table has no rows, the ids
    allocated for alpha, beta and alpha again are 1, 2 and 1, not 0, 1
    and 0. *)
Theorem psql_add_sender_id_new_database :
  let db0 := database_on bootstrapped_conn in
  let '(alpha, db1) := psql_add_sender_id db0 "alpha" in
  let '(beta, db2) := psql_add_sender_id db1 "beta" in
  let '(alpha', _) := psql_add_sender_id db2 "alpha" in
  (alpha, beta, alpha') = (1, 2, 1).
Proof. by vm_compute. Qed.

(** *** Table rediscovery *)

Lemma find_meta_false res rows :
  (forall i, i ∈ rows -> PQgetvalue res i 0 <> Some "_experiment_metadata") ->
  find_meta res rows = false.
Proof.
  induction rows as [|i rows IH]; intros Hrows; simpl; [done|].
  case_bool_decide as Hi.
  - exfalso. apply (Hrows i); [left|].
    destruct (PQgetvalue res i 0) as [name|]; simpl in Hi; by subst.
  - apply IH. intros j Hj. apply Hrows. by right.
Qed.

Lemma table_list_names (c : PGconn) i name :
  PQgetvalue (PQexecPrepared c ptable_stmt []) i 0 = Some name ->
  pg_prepared c !! ptable_stmt = Some PreparedTableList ->
  is_Some (pg_tables c !! name).
Proof.
  intros Hget Hprep. unfold PQexecPrepared in Hget. rewrite Hprep in Hget.
  unfold PQgetvalue, pg_tuples in Hget. cbn [res_tuples] in Hget.
  rewrite list_lookup_fmap in Hget.
  destruct (List.filter user_table (map_to_list (pg_tables c)).*1 !! i)
    as [n|] eqn:Hn; simpl in Hget; [|done].
  injection Hget as ->.
  apply list_elem_of_lookup_2, list_elem_of_In, filter_In in Hn as [Hn _].
  apply list_elem_of_In, list_elem_of_fmap in Hn as ([n v] & -> & Hnv).
  apply elem_of_map_to_list in Hnv. by exists v.
Qed.




(** *** The key/value store *)

Lemma pg_literal_plain s : plain_text s = true -> pg_literal s = Some s.
Proof.
  unfold plain_text. induction s as [|c s IH]; simpl; [done|].
  intros [[Hq Hc]%andb_prop Hs]%andb_prop. apply negb_true_iff in Hq.
  rewrite Hq, Hc. by rewrite (IH Hs).
Qed.

Lemma filter_fmap_stable {A} (f : A -> bool) (g : A -> A) (l : list A) :
  (forall x, f (g x) = f x) ->
  List.filter f (g <$> l) = g <$> List.filter f l.
Proof.
  intros Hfg. induction l as [|x l IH]; [done|].
  rewrite fmap_cons. cbn [List.filter]. rewrite Hfg.
  destruct (f x); [rewrite fmap_cons|]; by rewrite IH.
Qed.

(** What the lookup returns, read off the table. *)
Lemma psql_get_key_value_rows db t kc vc key tbl kty vty :
  let c := conn (db_handle db) in
  pg_plain c t = true -> pg_plain c kc = true -> pg_plain c vc = true ->
  pg_literal key = Some key ->
  pg_tables c !! t = Some tbl ->
  column_type tbl kc = Some kty -> column_type tbl vc = Some vty ->
  column_input kty key = Some key ->
  psql_get_key_value (Some db) (Some t) (Some kc) (Some vc) (Some key) =
    match List.filter (row_matches kc key) (tbl_rows tbl) with
    | [] => None
    | row :: _ => Some (default "" (row !! vc))
    end.
Proof.
  intros c Ht Hkc Hvc Hkey Htbl Hkty Hvty Hin.
  unfold psql_get_key_value, PQexec. cbn [pg_described]. fold c.
  rewrite Ht, Hkc, Hvc, Hkey, Htbl, Hkty, Hvty, Hin. cbn [andb].
  cbn [PQresultStatus pg_tuples res_status].
  case_bool_decide; [congruence|].
  unfold PQntuples, PQnfields, PQgetvalue, pg_tuples. cbn [res_tuples res_nfields].
  destruct (List.filter (row_matches kc key) (tbl_rows tbl)) as [|row rows]; [done|].
  cbn [fmap list_fmap length].
  match goal with |- context [Z.of_nat (S ?n) =? 0] =>
    replace (Z.of_nat (S n) =? 0) with false by (symmetry; apply Z.eqb_neq; lia) end.
  change (Z.of_nat 1 <? 1) with false. cbn.
  by destruct (row !! vc).
Qed.

Lemma row_matches_insert_other kc vc k v (row : gmap string string) :
  kc <> vc -> row_matches kc k (<[vc := v]> row) = row_matches kc k row.
Proof. intros Hne. unfold row_matches. by rewrite lookup_insert_ne. Qed.

(** The two ways [psql_set_key_value] ends on statements of the described
    part: with -1 and the connection as it was, or with 0 after the INSERT
    (no row held the key) or the UPDATE (some row did). *)
Lemma psql_set_key_value_cases db t kc vc key value tbl kty vty rc db' :
  described (conn (db_handle db)) t kc vc key value tbl kty vty ->
  psql_set_key_value db t kc vc key value = (rc, db') ->
  (rc = -1 /\ conn (db_handle db') = conn (db_handle db))
  \/ (rc = 0 /\ exists rows,
        conn (db_handle db') =
          with_tables (conn (db_handle db))
            (<[t := set_rows tbl rows]> (pg_tables (conn (db_handle db))))
        /\ ((List.filter (row_matches kc key) (tbl_rows tbl) = [] /\ kc <> vc
             /\ rows = tbl_rows tbl ++ [pair_row kc vc key value])
            \/ (List.filter (row_matches kc key) (tbl_rows tbl) <> []
                /\ rows = update_row kc vc key value <$> tbl_rows tbl))).
Proof.
  intros (Ht & Hkc & Hvc & Hkey & Hvalue & Htbl & Hkty & Hvty & Hkin & Hvin).
  unfold psql_set_key_value, psql_set_key_value_stmt, sql_stmt.
  rewrite (psql_get_key_value_rows db t kc vc key tbl kty vty) by done.
  destruct (List.filter (row_matches kc key) (tbl_rows tbl)) as [|row rows] eqn:Hrows.
  - unfold PQexec. cbn [pg_described].
    rewrite Ht, Hkc, Hvc, Hkey, Hvalue, Htbl, Hkty, Hvty. cbn [andb].
    case_bool_decide as Hne; [cbn; intros [= <- <-]; by left|].
    rewrite Hkin, Hvin. unfold pg_write.
    destruct (tbl_check tbl _); cbn; intros [= <- <-]; [|by left].
    right. split; [done|]. eexists. split; [done|]. by left.
  - unfold PQexec. cbn [pg_described].
    rewrite Ht, Hkc, Hvc, Hkey, Hvalue, Htbl, Hkty, Hvty. cbn [andb].
    rewrite Hkin, Hvin. unfold pg_write.
    destruct (tbl_check tbl _); cbn; intros [= <- <-]; [|by left].
    right. split; [done|]. eexists. split; [done|]. by right.
Qed.

Lemma key_rows_unchanged db db' t kc k :
  conn (db_handle db') = conn (db_handle db) ->
  key_rows db' t kc k = key_rows db t kc k.
Proof. unfold key_rows. by intros ->. Qed.

Lemma row_matches_update kc vc k v k' row :
  kc <> vc ->
  row_matches kc k' (update_row kc vc k v row) = row_matches kc k' row.
Proof.
  intros Hne. unfold update_row.
  destruct (row_matches kc k row); [|done]. by apply row_matches_insert_other.
Qed.

Lemma row_matches_pair_row kc vc k v k' :
  kc <> vc -> row_matches kc k' (pair_row kc vc k v) = bool_decide (k = k').
Proof.
  intros Hne. unfold row_matches, pair_row.
  rewrite lookup_insert_ne, lookup_insert_eq by done.
  apply bool_decide_ext. naive_solver.
Qed.

Lemma column_takes_described db t kc vc key value :
  let c := conn (db_handle db) in
  pg_plain c t = true -> pg_plain c kc = true -> pg_plain c vc = true ->
  plain_text key = true -> plain_text value = true ->
  column_takes db t kc key = true -> column_takes db t vc value = true ->
  exists tbl kty vty, described c t kc vc key value tbl kty vty.
Proof.
  intros c Ht Hkc Hvc Hkey Hvalue Hk Hv. unfold column_takes in Hk, Hv. fold c in Hk, Hv.
  destruct (pg_tables c !! t) as [tbl|] eqn:Htbl; [|done].
  destruct (column_type tbl kc) as [kty|] eqn:Hkty; [|done].
  destruct (column_type tbl vc) as [vty|] eqn:Hvty; [|done].
  apply bool_decide_eq_true in Hk, Hv.
  exists tbl, kty, vty. unfold described.
  split_and!; try done; by apply pg_literal_plain.
Qed.

(** C10, as worded, promises that a value set with return code 0 is the
    value read back; a value holding two quotes in a row comes back with
    one. *)
Lemma psql_set_get_doubled_quote :
  ~ (forall db table key_column value_column key value db',
       psql_set_key_value db table key_column value_column key value = (0, db') ->
       psql_get_key_value (Some db') (Some table) (Some key_column)
         (Some value_column) (Some key) = Some value).
Proof.
  intros Hclaim.
  pose (db := database_on bootstrapped_conn).
  pose (db' := snd (psql_set_key_value db "_experiment_metadata" "key" "value"
                      "title" "it''s")).
  specialize (Hclaim db "_experiment_metadata" "key" "value" "title" "it''s" db').
  assert (Hget : psql_get_key_value (Some db') (Some "_experiment_metadata")
                   (Some "key") (Some "value") (Some "title") = Some "it's")
    by (by vm_compute).
  rewrite Hclaim in Hget; [discriminate|by vm_compute].
Qed.

(** C10 (amended): on statements of the described part of the server (a
    table and distinct key and value columns with plain names; a key and a
    value of ASCII characters without quote or backslash, each of which
    its column stores as it is), whenever [psql_set_key_value] returns 0
    the next [psql_get_key_value] of the key returns the value; when the
    lookup finds the key the statement built is the UPDATE, not an INSERT;
    and a key that had at most one row still has at most one after the
    call. *)
Theorem psql_key_value_upsert db table key_column value_column key value rc db' :
  psql_set_key_value db table key_column value_column key value = (rc, db') ->
  key_column <> value_column ->
  pg_plain (conn (db_handle db)) table = true ->
  pg_plain (conn (db_handle db)) key_column = true ->
  pg_plain (conn (db_handle db)) value_column = true ->
  plain_text key = true -> plain_text value = true ->
  column_takes db table key_column key = true ->
  column_takes db table value_column value = true ->
  (rc = 0 ->
   psql_get_key_value (Some db') (Some table) (Some key_column)
     (Some value_column) (Some key) = Some value)
  /\ (psql_get_key_value (Some db) (Some table) (Some key_column)
        (Some value_column) (Some key) <> None ->
      psql_set_key_value_stmt db table key_column value_column key value =
        UpdateWhere table value_column value key_column key)
  /\ (forall k, (length (key_rows db table key_column k) <= 1)%nat ->
                (length (key_rows db' table key_column k) <= 1)%nat).
Proof.
  intros Hset Hne Ht Hkc Hvc Hkey Hvalue Hk Hv.
  destruct (column_takes_described db table key_column value_column key value)
    as (tbl & kty & vty & Hdesc); try done.
  pose proof Hdesc as (_ & _ & _ & Hklit & Hvlit & Htbl & Hkty & Hvty & Hkin & Hvin).
  split_and!.
  - intros ->.
    apply (psql_set_key_value_cases _ _ _ _ _ _ _ _ _ _ _ Hdesc) in Hset
      as [[? _]|(_ & rows & Hconn & Hcase)]; [done|].
    rewrite (psql_get_key_value_rows db' table key_column value_column key
               (set_rows tbl rows) kty vty)
      by (try done; rewrite Hconn; cbn [with_tables pg_plain pg_tables]; try done;
          by rewrite lookup_insert_eq).
    cbn [set_rows tbl_rows].
    destruct Hcase as [(Hnone & _ & ->)|(Hsome & ->)].
    + rewrite List.filter_app, Hnone. cbn [List.filter app].
      rewrite row_matches_pair_row, bool_decide_true by done.
      unfold pair_row. by rewrite lookup_insert_eq.
    + rewrite filter_fmap_stable by (intros; by apply row_matches_update).
      destruct (List.filter (row_matches key_column key) (tbl_rows tbl))
        as [|row rest] eqn:Hrows; [done|].
      rewrite fmap_cons. unfold update_row.
      assert (Hrow : row_matches key_column key row = true).
      { assert (In row (List.filter (row_matches key_column key) (tbl_rows tbl)))
          as Hin by (rewrite Hrows; by left).
        by apply filter_In in Hin as [_ ?]. }
      rewrite Hrow. by rewrite lookup_insert_eq.
  - unfold psql_set_key_value_stmt.
    by destruct (psql_get_key_value _ _ _ _ _).
  - intros k' Hle.
    apply (psql_set_key_value_cases _ _ _ _ _ _ _ _ _ _ _ Hdesc) in Hset
      as [[_ Hsame]|(_ & rows & Hconn & Hcase)].
    { by rewrite (key_rows_unchanged _ _ _ _ _ Hsame). }
    unfold key_rows in *. rewrite Htbl in Hle.
    rewrite Hconn. cbn [with_tables pg_tables]. rewrite lookup_insert_eq.
    cbn [set_rows tbl_rows].
    destruct Hcase as [(Hnone & _ & ->)|(Hsome & ->)].
    + rewrite List.filter_app, length_app. cbn [List.filter].
      rewrite row_matches_pair_row by done.
      case_bool_decide as Hkk; [subst k'; rewrite Hnone; cbn; lia|].
      cbn [length]. lia.
    + rewrite filter_fmap_stable by (intros; by apply row_matches_update).
      by rewrite length_fmap.
Qed.

Lemma psql_key_value_upsert_witness :
  let db := database_on bootstrapped_conn in
  let db' := snd (psql_set_metadata db "start_time" "1400000000") in
  let db'' := snd (psql_set_metadata db' "start_time" "1400000001") in
  psql_get_metadata db'' "start_time" = Some "1400000001"
  /\ psql_set_key_value_stmt db' "_experiment_metadata" "key" "value"
       "start_time" "1400000001"
     = UpdateWhere "_experiment_metadata" "value" "1400000001" "key" "start_time"
  /\ (length (key_rows db'' "_experiment_metadata" "key" "start_time") <= 1)%nat.
Proof.
  intros db db' db''.
  pose proof (psql_key_value_upsert db' "_experiment_metadata" "key" "value"
                "start_time" "1400000001" 0 db'') as Hupsert.
  destruct Hupsert as (Hget & Hstmt & Hrows);
    [by vm_compute|done|reflexivity|reflexivity|reflexivity|reflexivity
    |reflexivity|by vm_compute|by vm_compute|].
  split_and!.
  - apply Hget; reflexivity.
  - apply Hstmt. by vm_compute.
  - apply Hrows. vm_compute. lia.
Defined.

(** *** More on sender allocation and table rediscovery *)



Lemma collect_tables_count schema_from_meta c res rows : forall tables n tables' n',
  collect_tables schema_from_meta c res rows tables n = Some (tables', n') ->
  n' - n = Z.of_nat (length tables') - Z.of_nat (length tables)
  /\ ((forall t, t ∈ tables -> td_schema t = None <-> td_name t = "_senders") ->
      forall t, t ∈ tables' -> td_schema t = None <-> td_name t = "_senders").
Proof.
  induction rows as [|i rows IH]; intros tables n tables' n'; cbn [collect_tables].
  - intros [= <- <-]. split; [lia|done].
  - case_bool_decide as Hname.
    + unfold table_descr_new. intros Hrun. apply IH in Hrun as [Hcount Hschema].
      split; [cbn [length] in Hcount; lia|].
      intros Hold. apply Hschema. intros t [->|Ht]%elem_of_cons; [done|by apply Hold].
    + destruct (bool_decide (PQresultStatus _ ≠ PGRES_TUPLES_OK)); [apply IH|].
      destruct (PQntuples _ <=? 0); [apply IH|].
      destruct (schema_from_meta _) as [schema|]; [|apply IH].
      unfold table_descr_new. intros Hrun. apply IH in Hrun as [Hcount Hschema].
      split; [cbn [length] in Hcount; lia|].
      intros Hold. apply Hschema. intros t [->|Ht]%elem_of_cons; [|by apply Hold].
      cbn. split; [done|]. by intros.
Qed.

(** X10: whatever [psql_get_table_list] finds, either it fails, with
    [*num_tables] set to -1 and no list, or [*num_tables] is the number of
    descriptors in the list it returns; and [_senders] is the one table
    that is listed without a schema. *)
Theorem psql_get_table_list_count schema_from_meta db :
  let r := psql_get_table_list schema_from_meta db in
  (tl_num_tables r = -1 /\ tl_tables r = []
   \/ tl_num_tables r = Z.of_nat (length (tl_tables r)))
  /\ (forall t, t ∈ tl_tables r -> td_schema t = None <-> td_name t = "_senders").
Proof.
  cbn zeta. unfold psql_get_table_list.
  destruct (PQprepare _ ptable_stmt _) as [res c].
  case_bool_decide; [split; [by left|by intros t Ht%elem_of_nil]|].
  case_bool_decide; [split; [by left|by intros t Ht%elem_of_nil]|].
  destruct (negb _); [split; [by right|by intros t Ht%elem_of_nil]|].
  destruct (PQprepare _ pschema_stmt _) as [schema_res c'].
  case_bool_decide; [split; [by left|by intros t Ht%elem_of_nil]|].
  destruct (collect_tables _ _ _ _ _ _) as [[tables num_tables]|] eqn:Hrun;
    [|split; [by left|by intros t Ht%elem_of_nil]].
  apply collect_tables_count in Hrun as [Hcount Hschema].
  cbn [tl_tables tl_num_tables]. split.
  - right. cbn [length] in Hcount. lia.
  - apply Hschema. by intros t Ht%elem_of_nil.
Qed.

End PsqlFacts.

(** *** Insert *)

Section InsertFacts.
Import Psql.

Context {U : Type} `{OmlValueOps U}.
Variable PQescapeByteaConn : list Z -> Z -> option string * Z.
Variable vector_to_json : OmlValueT -> U -> buffer -> buffer.
Variable server_time : Z -> Z -> Z -> double.

Local Abbreviation insert_switch := (insert_switch PQescapeByteaConn vector_to_json).
Local Abbreviation insert_payload := (insert_payload PQescapeByteaConn vector_to_json).
Local Abbreviation psql_insert := (psql_insert PQescapeByteaConn vector_to_json server_time).

(** The uint32 block has no [break]: the int64 block runs after it, on the
    same scratch buffer. *)
Lemma insert_switch_uint32 env table field v i st :
  field_type field = OML_UINT32_VALUE ->
  switch (field_type field) (insert_switch env table field v i) st =
    (bind_binary i (psql_set_int64_value (omlc_get_int64 (oml_value_get_value v)))
       (bind_binary i (psql_set_uint32_value (omlc_get_uint32 (oml_value_get_value v)))
          st),
     Break).
Proof. intros ->. reflexivity. Qed.

(** No [case] is labelled with [OML_LONG_VALUE]: the switch goes to
    [default]. *)
Lemma insert_switch_long env table field v i st :
  field_type field = OML_LONG_VALUE ->
  switch (field_type field) (insert_switch env table field v i) st =
    block_default table field st.
Proof. intros ->. reflexivity. Qed.

(** How the switch can end. *)
Lemma insert_switch_flow env table field v i st st' fl :
  switch (field_type field) (insert_switch env table field v i) st = (st', fl) ->
  fl = Break \/ fl = Return (-1).
Proof.
  unfold switch.
  destruct (field_type field);
    cbv -[run_blocks block_long block_int32 block_uint32 block_int64 block_uint64
          block_double block_guid block_bool block_string block_blob block_vector
          block_default];
    cbn [run_blocks];
    unfold block_default, block_string, block_blob, block_int32, block_uint32,
      block_int64, block_uint64, block_double, block_guid, block_bool, block_vector;
    cbn beta;
    repeat match goal with
      | |- context [PQescapeByteaConn ?x ?y] =>
          destruct (PQescapeByteaConn x y) as [[?|] ?]
      | |- context [if ?b then _ else _] => destruct b
      end;
    intros Heq; inversion Heq; subst; auto.
Qed.

(** A row with a value of type long never gets through the loop. *)
Lemma insert_payload_rejects_long env table k vs st v :
  v ∈ vs -> oml_value_get_type v = OML_LONG_VALUE ->
  exists st' o, insert_payload env table k vs st = (st', Some o) /\ o <> Returned 0.
Proof.
  intros Hin Hlong. revert k st.
  induction vs as [|v0 vs IH]; intros k st; [by apply elem_of_nil in Hin|].
  cbn [Psql.insert_payload].
  destruct (fields (table_schema table) !! k) as [field|]; [|by eauto].
  case_bool_decide as Hm; [by eauto|].
  destruct (switch _ _ _) as [st1 fl] eqn:Hsw.
  destruct (insert_switch_flow _ _ _ _ _ _ _ _ Hsw) as [->| ->].
  - apply elem_of_cons in Hin as [->|Hin]; [|by apply IH].
    rewrite insert_switch_long in Hsw by congruence. discriminate.
  - by eauto.
Qed.

(** A value whose type differs from its field's stops the loop with -1. *)
Lemma insert_payload_mismatch env table k vs st j v f :
  vs !! j = Some v -> fields (table_schema table) !! (k + j)%nat = Some f ->
  oml_value_get_type v <> field_type f ->
  exists st', insert_payload env table k vs st = (st', Some (Returned (-1))).
Proof.
  revert k st j.
  induction vs as [|v0 vs IH]; intros k st j Hv Hf Hne; [done|].
  cbn [Psql.insert_payload].
  destruct j as [|j].
  - rewrite Nat.add_0_r in Hf. injection Hv as ->. rewrite Hf.
    rewrite bool_decide_true by done. by eauto.
  - destruct (fields (table_schema table) !! k) as [field|] eqn:Hfield.
    2:{ apply lookup_ge_None in Hfield. apply lookup_lt_Some in Hf. lia. }
    case_bool_decide; [by eauto|].
    destruct (switch _ _ _) as [st1 fl] eqn:Hsw.
    destruct (insert_switch_flow _ _ _ _ _ _ _ _ Hsw) as [->| ->].
    + apply (IH (S k) st1 j); [done| |done].
      by replace (S k + j)%nat with (k + S j)%nat by lia.
    + by eauto.
Qed.

(** When the loop runs to its end, every value had the type of its field. *)
Lemma insert_payload_done env table k vs st st' :
  insert_payload env table k vs st = (st', None) ->
  forall j v, vs !! j = Some v ->
    exists f, fields (table_schema table) !! (k + j)%nat = Some f
              /\ oml_value_get_type v = field_type f.
Proof.
  revert k st. induction vs as [|v0 vs IH]; intros k st Hrun j v Hv; [done|].
  cbn [Psql.insert_payload] in Hrun.
  destruct (fields (table_schema table) !! k) as [field|] eqn:Hfield; [|done].
  case_bool_decide as Hm; [done|].
  destruct (switch _ _ _) as [st1 fl] eqn:Hsw.
  destruct (insert_switch_flow _ _ _ _ _ _ _ _ Hsw) as [->| ->]; [|done].
  destruct j as [|j].
  - injection Hv as ->. rewrite Nat.add_0_r. by eauto.
  - replace (k + S j)%nat with (S k + j)%nat by lia. by eapply IH.
Qed.

(** C3: a row holding a value of type long is never accepted: whatever
    the schema, [psql_insert] does not return 0 for it and does not execute
    the prepared statement. *)
Theorem psql_insert_long_rejected env db table sender_id seq_no time_stamp values v :
  v ∈ values -> oml_value_get_type v = OML_LONG_VALUE ->
  ins_outcome (psql_insert env db table sender_id seq_no time_stamp values) <> Returned 0
  /\ executed (psql_insert env db table sender_id seq_no time_stamp values) = false.
Proof.
  intros Hin Hlong. unfold Psql.psql_insert, executed.
  destruct (negb _); [done|].
  destruct (_ && (reopen_ret env =? -1)); [done|].
  match goal with
  | |- context [Psql.insert_payload _ _ ?e ?t 0 values ?st] =>
      destruct (insert_payload_rejects_long e t 0 values st v Hin Hlong)
        as (st' & o & -> & Ho)
  end.
  cbn [ins_outcome ins_events]. split; [done|].
  by destruct (tv_sec env >? _).
Qed.

(** C4: on every call whose assertion on the number of values holds, a
    value whose type differs from the type of its field makes [psql_insert]
    return -1 before the prepared statement is executed, so that nothing
    is bound for it; and whenever the statement is executed, every value
    has the type of its field. *)
Theorem psql_insert_type_check env db table sender_id seq_no time_stamp values :
  let r := psql_insert env db table sender_id seq_no time_stamp values in
  (forall k v f,
      (NMETA + length values)%nat = value_count (table_handle table) ->
      values !! k = Some v -> fields (table_schema table) !! k = Some f ->
      oml_value_get_type v <> field_type f ->
      ins_outcome r = Returned (-1) /\ executed r = false)
  /\ (executed r = true ->
      forall k v, values !! k = Some v ->
        exists f, fields (table_schema table) !! k = Some f
                  /\ oml_value_get_type v = field_type f).
Proof.
  intros r. subst r. split.
  - intros k v f Hassert Hv Hf Hne.
    unfold Psql.psql_insert, executed.
    rewrite bool_decide_true by done. cbn [negb].
    destruct (_ && (reopen_ret env =? -1)); [done|].
    match goal with
    | |- context [Psql.insert_payload _ _ ?e ?t 0 values ?st] =>
        destruct (insert_payload_mismatch e t 0 values st k v f Hv Hf Hne)
          as (st' & ->)
    end.
    cbn [ins_outcome ins_events]. split; [done|].
    by destruct (tv_sec env >? _).
  - unfold Psql.psql_insert, executed.
    destruct (negb _); [done|].
    destruct (_ && (reopen_ret env =? -1)); [done|].
    destruct (Psql.insert_payload _ _ _ _ _ _ _) as [st' [o|]] eqn:Hrun.
    + cbn [ins_events]. by destruct (tv_sec env >? _).
    + intros _ k v Hv. by apply (insert_payload_done _ _ _ _ _ _ Hrun k v).
Qed.

(** While the wall clock has not passed [last_commit], the transaction is
    left alone. *)
Lemma psql_insert_same_second env db table sender_id seq_no time_stamp values :
  tv_sec env <= last_commit (db_handle db) ->
  (EvReopenTransaction ∉
     ins_events (psql_insert env db table sender_id seq_no time_stamp values))
  /\ last_commit (db_handle (ins_db (psql_insert env db table sender_id seq_no
                                       time_stamp values)))
     = last_commit (db_handle db).
Proof.
  intros Hle. unfold Psql.psql_insert.
  replace (tv_sec env >? last_commit (db_handle db)) with false
    by (symmetry; rewrite Z.gtb_ltb; apply Z.ltb_ge; lia).
  destruct (negb _); [by split; [apply not_elem_of_nil|]|].
  cbn [andb].
  destruct (Psql.insert_payload _ _ _ _ _ _ _) as [st' [o|]];
    [by split; [apply not_elem_of_nil|]|].
  case_bool_decide; cbn [ins_events ins_db app]; split; try done.
  all: intros Hin; apply list_elem_of_singleton in Hin; discriminate.
Qed.

(** C5: when the wall-clock second is past [last_commit] (and the
    assertion on the number of values holds), the first thing that reaches
    the server is the reopening of the transaction, and only the execution
    of the row may follow it; if the reopening fails the call returns -1,
    nothing is executed and [last_commit] stays; otherwise [last_commit]
    becomes that second, so that no later insert within the same second
    reopens the transaction again. *)
Theorem psql_insert_commit_heartbeat env db table sender_id seq_no time_stamp values :
  (NMETA + length values)%nat = value_count (table_handle table) ->
  last_commit (db_handle db) < tv_sec env ->
  let r := psql_insert env db table sender_id seq_no time_stamp values in
  (exists rest, ins_events r = EvReopenTransaction :: rest /\ forallb is_exec rest = true)
  /\ (reopen_ret env = -1 ->
      ins_outcome r = Returned (-1) /\ executed r = false /\ ins_db r = db)
  /\ (reopen_ret env <> -1 ->
      last_commit (db_handle (ins_db r)) = tv_sec env
      /\ forall env' table' sender_id' seq_no' time_stamp' values',
           tv_sec env' = tv_sec env ->
           EvReopenTransaction ∉
             ins_events (psql_insert env' (ins_db r) table' sender_id' seq_no'
                           time_stamp' values')).
Proof.
  intros Hassert Hlt r.
  assert (Hshape :
    (reopen_ret env = -1 /\ ins_events r = [EvReopenTransaction]
     /\ ins_outcome r = Returned (-1) /\ ins_db r = db)
    \/ (reopen_ret env <> -1 /\ last_commit (db_handle (ins_db r)) = tv_sec env
        /\ exists rest, ins_events r = EvReopenTransaction :: rest
                        /\ forallb is_exec rest = true)).
  { subst r. unfold Psql.psql_insert.
    rewrite bool_decide_true by done. cbn [negb].
    replace (tv_sec env >? last_commit (db_handle db)) with true
      by (symmetry; rewrite Z.gtb_ltb; apply Z.ltb_lt; lia).
    cbn [andb].
    destruct (reopen_ret env =? -1) eqn:Hret.
    - left. apply Z.eqb_eq in Hret. by split_and!.
    - right. apply Z.eqb_neq in Hret. split; [done|].
      destruct (Psql.insert_payload _ _ _ _ _ _ _) as [st' [o|]].
      + split; [done|]. by exists [].
      + case_bool_decide; (split; [done|]); by eexists [_]. }
  split_and!.
  - destruct Hshape as [(_ & -> & _)|(_ & _ & Hrest)]; [by exists []|done].
  - intros Hfail. destruct Hshape as [(_ & Hev & Hout & Hdb)|[? _]]; [|done].
    unfold executed. by rewrite Hev.
  - intros Hok. destruct Hshape as [[? _]|(_ & Hlast & _)]; [done|].
    split; [done|]. intros env' table' sender_id' seq_no' time_stamp' values' Hsame.
    apply psql_insert_same_second. lia.
Qed.

(** *** Rows that are accepted *)

Lemma same_below_refl n st : same_below n st st.
Proof. by split_and!. Qed.

Lemma same_below_trans n st1 st2 st3 :
  same_below n st1 st2 -> same_below n st2 st3 -> same_below n st1 st3.
Proof. intros (? & ? & ?) (? & ? & ?). split_and!; by etrans. Qed.

Lemma set_buffer_same_below n i b st : (n <= i)%nat -> same_below n st (set_buffer i b st).
Proof. intros Hle. split_and!; [by apply take_insert_ge|done|done]. Qed.

Lemma set_param_same_below n i l f st :
  (n <= i)%nat -> same_below n st (set_param i l f st).
Proof. intros Hle. split_and!; [done|by apply take_insert_ge..]. Qed.

Lemma bind_binary_same_below n i set st :
  (n <= i)%nat -> same_below n st (bind_binary i set st).
Proof.
  intros Hle. unfold bind_binary. destruct (set _) as [b l].
  eapply same_below_trans; [by apply set_buffer_same_below|by apply set_param_same_below].
Qed.

Lemma snprintf_s_same_below n i size text st :
  (n <= i)%nat -> same_below n st (snprintf_s i size text st).
Proof.
  intros Hle. unfold snprintf_s.
  destruct (size <=? 0); [apply same_below_refl|by apply set_buffer_same_below].
Qed.

Lemma insert_switch_same_below env table field v i n :
  (n <= i)%nat ->
  Forall (fun lb : label * block => forall st, same_below n st (fst (snd lb st)))
    (insert_switch env table field v i).
Proof.
  intros Hle. unfold Psql.insert_switch.
  repeat first [apply List.Forall_nil | apply List.Forall_cons];
    intros st; cbn [fst snd].
  all: unfold block_long, block_int32, block_uint32, block_int64, block_uint64,
         block_double, block_guid, block_bool, block_string, block_blob, block_vector,
         block_default; cbn [fst].
  all: try (by apply bind_binary_same_below).
  - eapply same_below_trans; [by apply snprintf_s_same_below|].
    by apply bind_binary_same_below.
  - destruct (_ && _); cbn [fst]; [by split_and!|].
    eapply same_below_trans; [|by apply snprintf_s_same_below].
    destruct (_ >? _); [|by split_and!].
    eapply same_below_trans; [|by apply set_buffer_same_below]. by split_and!.
  - destruct (PQescapeByteaConn _ _) as [[text|] len].
    + destruct (_ && _); cbn [fst]; [by split_and!|].
      eapply same_below_trans; [|by apply snprintf_s_same_below].
      destruct (_ >? _); [|by split_and!].
      eapply same_below_trans; [|by apply set_buffer_same_below]. by split_and!.
    + destruct (_ && _); cbn [fst]; [by split_and!|].
      eapply same_below_trans; [|by apply snprintf_s_same_below].
      destruct (_ >? _); [|by split_and!].
      eapply same_below_trans; [|by apply set_buffer_same_below]. by split_and!.
  - by apply set_buffer_same_below.
  - by apply set_buffer_same_below.
  - by apply set_buffer_same_below.
  - by apply set_buffer_same_below.
  - by apply set_buffer_same_below.
  - by apply set_buffer_same_below.
  - by split_and!.
Qed.

Lemma run_blocks_same_below n bs :
  Forall (fun lb : label * block => forall st, same_below n st (fst (snd lb st))) bs ->
  forall st, same_below n st (fst (run_blocks bs st)).
Proof.
  induction bs as [|[l b] bs IH]; intros Hbs st; cbn [run_blocks].
  - apply same_below_refl.
  - apply Forall_cons in Hbs as [Hb Hbs]. specialize (Hb st). cbn [snd] in Hb.
    destruct (b st) as [st1 fl]. cbn [fst] in Hb.
    destruct fl; try done.
    eapply same_below_trans; [done|]. by apply IH.
Qed.

Lemma from_label_Forall {P : label * block -> Prop} l bs bs' :
  from_label l bs = Some bs' -> Forall P bs -> Forall P bs'.
Proof.
  induction bs as [|[l' b] bs IH]; [done|]. cbn [from_label].
  case_bool_decide; [by intros [= <-]|].
  intros Hfrom [_ Hbs]%Forall_cons. by apply IH.
Qed.

Lemma switch_same_below n t bs st :
  Forall (fun lb : label * block => forall st, same_below n st (fst (snd lb st))) bs ->
  same_below n st (fst (switch t bs st)).
Proof.
  intros Hbs. unfold switch.
  destruct (from_label (Case t) bs) as [entered|] eqn:Hcase.
  { apply run_blocks_same_below. by eapply from_label_Forall. }
  destruct (from_label Default bs) as [entered|] eqn:Hdefault.
  { apply run_blocks_same_below. by eapply from_label_Forall. }
  apply same_below_refl.
Qed.

(** The loop over the payload leaves the four metadata parameters as they
    are. *)
Lemma insert_payload_same_below env table vs : forall k st,
  same_below NMETA st (fst (insert_payload env table k vs st)).
Proof.
  induction vs as [|v vs IH]; intros k st; cbn [Psql.insert_payload].
  - apply same_below_refl.
  - destruct (fields (table_schema table) !! k) as [field|]; [|apply same_below_refl].
    case_bool_decide; [by split_and!|].
    pose proof (switch_same_below NMETA (field_type field)
                  (insert_switch env table field v (NMETA + k))
                  (set_param (NMETA + k) 0 0 st)
                  (insert_switch_same_below _ _ _ _ _ _ (Nat.le_add_r NMETA k))) as Hsw.
    assert (Hst : same_below NMETA st (set_param (NMETA + k) 0 0 st))
      by (apply set_param_same_below, Nat.le_add_r).
    destruct (switch _ _ _) as [st1 fl]. cbn [fst] in Hsw.
    assert (Hst1 : same_below NMETA st st1) by (by eapply same_below_trans).
    destruct fl; cbn [fst]; try done.
    all: eapply same_below_trans; [done|apply IH].
Qed.

(** A type with a [case] of its own ends its block with [break] when
    memory is there for long strings and blobs. *)
Lemma insert_switch_break env table field v i st :
  field_type field <> OML_LONG_VALUE -> field_type field <> OML_DB_PRIMARY_KEY ->
  realloc_ok env i = true ->
  snd (switch (field_type field) (insert_switch env table field v i) st) = Break.
Proof.
  intros Hlong Hkey Hrealloc. unfold switch.
  destruct (field_type field); try done;
    cbv -[run_blocks block_long block_int32 block_uint32 block_int64 block_uint64
          block_double block_guid block_bool block_string block_blob block_vector
          block_default];
    cbn [run_blocks];
    unfold block_default, block_string, block_blob, block_int32, block_uint32,
      block_int64, block_uint64, block_double, block_guid, block_bool, block_vector;
    cbn beta; rewrite ?Hrealloc; cbn [negb];
    repeat match goal with
      | |- context [PQescapeByteaConn ?x ?y] =>
          destruct (PQescapeByteaConn x y) as [[?|] ?]
      | |- context [_ && false] => rewrite andb_false_r
      | |- context [if ?b then _ else _] => destruct b
      end;
    reflexivity.
Qed.

Lemma insert_payload_accepts env table vs : forall k st,
  (forall j v, vs !! j = Some v ->
     exists f, fields (table_schema table) !! (k + j)%nat = Some f
               /\ oml_value_get_type v = field_type f
               /\ field_type f <> OML_LONG_VALUE
               /\ field_type f <> OML_DB_PRIMARY_KEY) ->
  (forall i, realloc_ok env i = true) ->
  snd (insert_payload env table k vs st) = None.
Proof.
  induction vs as [|v vs IH]; intros k st Htypes Hrealloc; cbn [Psql.insert_payload];
    [done|].
  destruct (Htypes 0%nat v eq_refl) as (f & Hf & Hty & Hlong & Hkey).
  rewrite Nat.add_0_r in Hf. rewrite Hf.
  rewrite bool_decide_false by (intros Hne; by apply Hne).
  pose proof (insert_switch_break env table f v (NMETA + k)
                (set_param (NMETA + k) 0 0 st) Hlong Hkey (Hrealloc _)) as Hbreak.
  destruct (switch _ _ _) as [st1 fl]. cbn [snd] in Hbreak. subst fl.
  apply IH; [|done]. intros j v' Hv'.
  destruct (Htypes (S j) v' Hv') as (f' & Hf' & Hrest).
  exists f'. split; [|done]. by replace (S k + j)%nat with (k + S j)%nat by lia.
Qed.

Lemma lookup_same_take {A} n i (l l' : list A) :
  take n l' = take n l -> (i < n)%nat -> l' !! i = l !! i.
Proof.
  intros Htake Hi. by rewrite <- (lookup_take_lt l' n i), Htake, lookup_take_lt.
Qed.

Lemma bound_param_at_same_below n st st' i :
  same_below n st st' -> (i < n)%nat -> bound_param_at st' i = bound_param_at st i.
Proof.
  intros (Hvalues & Hlengths & Hformats) Hi. unfold bound_param_at, st_buffer.
  f_equal; f_equal; by eapply lookup_same_take.
Qed.

(** The lists of a state all have [n] entries. *)
Lemma bind_binary_lengths n i set st :
  length (st_values st) = n /\ length (st_paramLength st) = n
  /\ length (st_paramFormat st) = n ->
  length (st_values (bind_binary i set st)) = n
  /\ length (st_paramLength (bind_binary i set st)) = n
  /\ length (st_paramFormat (bind_binary i set st)) = n.
Proof.
  intros (? & ? & ?). unfold bind_binary. destruct (set _) as [b l].
  cbn [set_param set_buffer st_values st_paramLength st_paramFormat].
  by rewrite !length_insert.
Qed.

Lemma bound_param_at_bind_binary n i set st :
  length (st_values st) = n /\ length (st_paramLength st) = n
  /\ length (st_paramFormat st) = n ->
  (i < n)%nat ->
  bound_param_at (bind_binary i set st) i =
    {| bp_value := fst (set (st_buffer st i)); bp_length := snd (set (st_buffer st i));
       bp_format := 1 |}.
Proof.
  intros (Hv & Hl & Hf) Hi. unfold bind_binary. destruct (set _) as [b l].
  unfold bound_param_at, st_buffer.
  cbn [set_param set_buffer st_values st_paramLength st_paramFormat fst snd].
  f_equal.
  - change b with (default [] (Some b)). f_equal.
    apply (list_lookup_insert_eq (st_values st) i b). lia.
  - by rewrite list_lookup_insert_eq by lia.
  - by rewrite list_lookup_insert_eq by lia.
Qed.

Lemma param_bytes_binary bs buf n :
  n = Z.of_nat (length bs) ->
  param_bytes {| bp_value := poke bs buf; bp_length := n; bp_format := 1 |} = bs.
Proof.
  intros ->. unfold param_bytes. cbn [bp_format bp_length bp_value].
  change (1 =? 1) with true. cbn iota. by rewrite Nat2Z.id, take_poke.
Qed.


End InsertFacts.

Section InsertExamples.
Import Psql.

(** C2: a uint32 value 7, held in a union whose bytes behind it are not
    zero, is inserted; the parameter bound for it is not 7 widened to 64
    bits but the eight bytes of the union, which the int64 block wrote over
    the work of the uint32 block. *)
Theorem psql_insert_uint32_overwritten :
  let v := scalar_value OML_UINT32_VALUE (2 ^ 32 + 7) in
  let r := psql_insert no_escape no_json no_time (quiet_env 1400000005)
             (database_on empty_conn) (one_column OML_UINT32_VALUE) 1 7 0 [v] in
  omlc_get_uint32 (oml_value_get_value v) = 7
  /\ ins_outcome r = Returned 0
  /\ param_bytes <$> params_of (ins_events r) !! 4%nat = Some [0; 0; 0; 1; 0; 0; 0; 7]
  /\ be_bytes 8 7 = [0; 0; 0; 0; 0; 0; 0; 7].
Proof. by vm_compute. Qed.

Lemma psql_insert_long_rejected_witness :
  let r := psql_insert no_escape no_json no_time (quiet_env 1400000005)
             (database_on empty_conn) (one_column OML_LONG_VALUE) 1 7 0
             [scalar_value OML_LONG_VALUE 5] in
  ins_outcome r <> Returned 0 /\ executed r = false.
Proof.
  apply (psql_insert_long_rejected no_escape no_json no_time (quiet_env 1400000005)
           (database_on empty_conn) (one_column OML_LONG_VALUE) 1 7 0
           [scalar_value OML_LONG_VALUE 5] (scalar_value OML_LONG_VALUE 5)).
  - apply list_elem_of_here.
  - reflexivity.
Defined.

Lemma psql_insert_type_check_witness :
  let r := psql_insert no_escape no_json no_time (quiet_env 1400000005)
             (database_on empty_conn) (one_column OML_INT32_VALUE) 1 7 0
             [scalar_value OML_DOUBLE_VALUE 0] in
  ins_outcome r = Returned (-1) /\ executed r = false.
Proof.
  apply (proj1 (psql_insert_type_check no_escape no_json no_time (quiet_env 1400000005)
                  (database_on empty_conn) (one_column OML_INT32_VALUE) 1 7 0
                  [scalar_value OML_DOUBLE_VALUE 0])
           0%nat (scalar_value OML_DOUBLE_VALUE 0)
           {| field_name := "bytes"; field_type := OML_INT32_VALUE |}).
  - reflexivity.
  - reflexivity.
  - reflexivity.
  - discriminate.
Defined.

Lemma psql_insert_commit_heartbeat_witness :
  let r := psql_insert no_escape no_json no_time (quiet_env 1400000005)
             (database_on empty_conn) (one_column OML_INT32_VALUE) 1 7 0
             [scalar_value OML_INT32_VALUE 42] in
  (exists rest, ins_events r = EvReopenTransaction :: rest /\ forallb is_exec rest = true)
  /\ last_commit (db_handle (ins_db r)) = 1400000005.
Proof.
  intros r.
  destruct (psql_insert_commit_heartbeat no_escape no_json no_time (quiet_env 1400000005)
              (database_on empty_conn) (one_column OML_INT32_VALUE) 1 7 0
              [scalar_value OML_INT32_VALUE 42]) as (Hfirst & _ & Hok).
  - reflexivity.
  - reflexivity.
  - split; [exact Hfirst|]. apply Hok. discriminate.
Defined.


End InsertExamples.

(** ** The zlib helpers *)

Section ZlibFacts.
Import Zlib.

Context `{ZlibImpl}.
Variable CHUNK : nat.
Variable WINDOWBITS : Z.

Local Abbreviation inf_inner := (inf_inner CHUNK).
Local Abbreviation inf_outer := (inf_outer CHUNK).
Local Abbreviation oml_zlib_inf := (oml_zlib_inf CHUNK WINDOWBITS).

Lemma inf_inner_early fuel strm resynced dest calls r :
  inf_inner fuel strm resynced dest calls = Some (inl r) -> early_code r.
Proof.
  revert strm resynced dest calls.
  induction fuel as [|fuel IH]; intros strm resynced dest calls; [done|].
  cbn [Zlib.inf_inner].
  destruct (_ =? Z_STREAM_ERROR); [intros [= <-]; by split; auto|].
  destruct (_ =? Z_MEM_ERROR) eqn:Hmem.
  { apply Z.eqb_eq in Hmem. intros [= <-]. by split; auto. }
  destruct (if _ || _ then _ else _) as [[ret strm'] resynced'].
  destruct (fwrite _ _) as [dest'|]; [|intros [= <-]; by split; auto].
  destruct (_ || _); [apply IH|done].
Qed.

Lemma loop_status_snoc calls c :
  loop_status (calls ++ [c]) = if c =? Z_NEED_DICT then Z_DATA_ERROR else c.
Proof. unfold loop_status. by rewrite last_snoc. Qed.

(** The calls of [inflate] the inner loop adds to the record, and the
    status it ends with. *)
Lemma inf_inner_calls fuel : forall strm resynced dest calls,
  Forall returned_by_inflate calls ->
  match inf_inner fuel strm resynced dest calls with
  | Some (inl r) => Forall returned_by_inflate (zr_calls r)
  | Some (inr (ret, _, _, _, calls')) =>
      Forall returned_by_inflate calls' /\ ret = loop_status calls'
  | None => True
  end.
Proof.
  induction fuel as [|fuel IH]; intros strm resynced dest calls Hcalls; [done|].
  cbn [Zlib.inf_inner].
  set (strm0 := if resynced =? 0 then reset_output CHUNK strm else strm).
  set (r := inflate (zstate strm0) (next_in strm0) Z_NO_FLUSH (avail_out strm0)).
  assert (Hcalls' : Forall returned_by_inflate (calls ++ [zc_ret r])).
  { apply Forall_app. split; [done|]. apply Forall_singleton. by eexists _, _, _. }
  destruct (zc_ret r =? Z_STREAM_ERROR); [done|].
  destruct (zc_ret r =? Z_MEM_ERROR); [done|].
  destruct (if _ || _ then _ else _) as [[ret' strm'] resynced'] eqn:Hsw.
  assert (Hret : ret' = loop_status (calls ++ [zc_ret r])).
  { rewrite loop_status_snoc. revert Hsw.
    destruct (zc_ret r =? Z_NEED_DICT) eqn:Hdict; cbn [orb].
    - destruct (resynced =? 1); [by intros [= <- _ _]|].
      cbn zeta. destruct (_ =? Z_OK); by intros [= <- _ _].
    - destruct (zc_ret r =? Z_DATA_ERROR) eqn:Hdata.
      + apply Z.eqb_eq in Hdata.
        destruct (resynced =? 1); [by intros [= <- _ _]|].
        cbn zeta. destruct (_ =? Z_OK); by intros [= <- _ _].
      + by intros [= <- _ _]. }
  destruct (fwrite _ _) as [dest'|]; [|done].
  destruct ((avail_out strm' =? 0)%nat || _); [by apply IH|done].
Qed.

Lemma inf_outer_result fuel : forall strm ret resynced source dest calls r,
  inf_outer fuel strm ret resynced source dest calls = Some r ->
  Forall returned_by_inflate calls -> ret = loop_status calls ->
  (early_code r \/ exists s, loop_end r s /\ s = loop_status (zr_calls r))
  /\ Forall returned_by_inflate (zr_calls r).
Proof.
  induction fuel as [|fuel IH]; intros strm ret resynced source dest calls r; [done|].
  cbn [Zlib.inf_outer].
  destruct (fread CHUNK source) as [[bytes source'] error].
  destruct error; [intros [= <-] Hcalls _; split; [left; by split; auto|done]|].
  destruct (length bytes =? 0)%nat.
  { intros [= <-] Hcalls Hret. split; [right; by exists ret|done]. }
  pose proof (inf_inner_calls fuel (set_input bytes strm) resynced dest calls) as Hin.
  destruct (inf_inner _ _ _ _ _) as [[r'|[[[[ret' strm'] resynced'] dest'] calls']]|]
    eqn:Hinner; [|idtac|done].
  - intros [= <-] Hcalls _. split; [left; by eapply inf_inner_early|by apply Hin].
  - intros Hrun Hcalls _. destruct (Hin Hcalls) as [Hcalls' Hret'].
    destruct (negb _); [by eapply IH|].
    injection Hrun as <-. split; [right; by exists ret'|done].
Qed.


Local Abbreviation def_inner := (def_inner CHUNK).
Local Abbreviation def_outer := (def_outer CHUNK).
Local Abbreviation oml_zlib_def := (oml_zlib_def CHUNK WINDOWBITS).

(** X1: on a source that has nothing (left) to read, [oml_zlib_inf] leaves
    its loop at the first read without having called [inflate], [ret]
    still being the [Z_OK] of [inflateInit2]: it writes nothing and
    returns [Z_DATA_ERROR], whatever zlib is. *)
Theorem oml_zlib_inf_empty_source fuel st source dest :
  inflateInit2 WINDOWBITS = (Z_OK, st) ->
  r_rest source = [] -> r_error_in source = None ->
  oml_zlib_inf (S fuel) source dest =
    Some {| zr_ret := Z_DATA_ERROR; zr_dest := dest; zr_loop := Some Z_OK;
            zr_calls := [] |}.
Proof.
  intros Hinit Hrest Herr. unfold Zlib.oml_zlib_inf. rewrite Hinit.
  cbn [negb Z.eqb Z_OK Zlib.inf_outer]. unfold fread. rewrite Herr, Hrest.
  by rewrite take_nil.
Qed.

Lemma fwrite_grows bytes dest dest' :
  fwrite bytes dest = Some dest' -> w_data dest `prefix_of` w_data dest'.
Proof.
  unfold fwrite. destruct (w_error_in dest) as [[|n]|]; [done|..];
    intros [= <-]; by apply prefix_app_r.
Qed.

Lemma inf_inner_grows fuel : forall strm resynced dest calls,
  match inf_inner fuel strm resynced dest calls with
  | Some (inl r) => w_data dest `prefix_of` w_data (zr_dest r)
  | Some (inr (_, _, _, dest', _)) => w_data dest `prefix_of` w_data dest'
  | None => True
  end.
Proof.
  induction fuel as [|fuel IH]; intros strm resynced dest calls; [done|].
  cbn [Zlib.inf_inner].
  destruct (_ =? Z_STREAM_ERROR); [done|].
  destruct (_ =? Z_MEM_ERROR); [done|].
  destruct (if _ || _ then _ else _) as [[ret strm'] resynced'].
  destruct (fwrite _ _) as [dest'|] eqn:Hw; [|done].
  apply fwrite_grows in Hw.
  destruct (_ || _); [|done].
  match goal with |- context [inf_inner fuel ?s ?rs dest' ?cs] =>
    specialize (IH s rs dest' cs);
    destruct (inf_inner fuel s rs dest' cs) as [[r|[[[[? ?] ?] dest''] ?]]|]
  end; [| |done]; by etrans.
Qed.

Lemma inf_outer_grows fuel : forall strm ret resynced source dest calls r,
  inf_outer fuel strm ret resynced source dest calls = Some r ->
  w_data dest `prefix_of` w_data (zr_dest r).
Proof.
  induction fuel as [|fuel IH]; intros strm ret resynced source dest calls r; [done|].
  cbn [Zlib.inf_outer].
  destruct (fread CHUNK source) as [[bytes source'] error].
  destruct error; [by intros [= <-]|].
  destruct (length bytes =? 0)%nat; [by intros [= <-]|].
  pose proof (inf_inner_grows fuel (set_input bytes strm) resynced dest calls) as Hin.
  destruct (inf_inner _ _ _ _ _) as [[r'|[[[[ret' strm'] resynced'] dest'] calls']]|];
    [| |done].
  - by intros [= <-].
  - destruct (negb _).
    + intros Hout. apply IH in Hout. by etrans.
    + by intros [= <-].
Qed.

Lemma def_inner_grows fuel : forall strm flush dest calls,
  match def_inner fuel strm flush dest calls with
  | Some (inl r) => w_data dest `prefix_of` w_data (zr_dest r)
  | Some (inr (_, _, dest', _)) => w_data dest `prefix_of` w_data dest'
  | None => True
  end.
Proof.
  induction fuel as [|fuel IH]; intros strm flush dest calls; [done|].
  cbn [Zlib.def_inner].
  destruct (_ =? Z_STREAM_ERROR); [done|].
  destruct (fwrite _ _) as [dest'|] eqn:Hw; [|done].
  apply fwrite_grows in Hw.
  destruct (_ =? 0)%nat; [|done].
  match goal with |- context [def_inner fuel ?s flush dest' ?cs] =>
    specialize (IH s flush dest' cs); destruct (def_inner fuel s flush dest' cs)
      as [[r|[[[? ?] dest''] ?]]|] end; [| |done]; by etrans.
Qed.

Lemma def_outer_grows fuel : forall strm source dest calls r,
  def_outer fuel strm source dest calls = Some r ->
  w_data dest `prefix_of` w_data (zr_dest r).
Proof.
  induction fuel as [|fuel IH]; intros strm source dest calls r; [done|].
  cbn [Zlib.def_outer].
  destruct (fread CHUNK source) as [[bytes source'] error].
  destruct error; [by intros [= <-]|].
  match goal with |- context [def_inner fuel ?s ?f dest calls] =>
    pose proof (def_inner_grows fuel s f dest calls) as Hin;
    destruct (def_inner fuel s f dest calls) as [[r'|[[[ret' strm'] dest'] calls']]|] end;
    [| |done].
  - by intros [= <-].
  - destruct (negb (avail_in strm' =? 0)%nat); [by intros [= <-]|].
    destruct (negb (_ =? Z_FINISH)).
    + intros Hout. apply IH in Hout. by etrans.
    + destruct (negb _); by intros [= <-].
Qed.

(** X2: neither helper ever takes back what the destination already
    holds: when [oml_zlib_def] or [oml_zlib_inf] returns, the destination
    starts with the bytes it had before the call. *)
Theorem zlib_helpers_only_append fuel source dest level r :
  oml_zlib_def fuel source dest level = Some r
  \/ oml_zlib_inf fuel source dest = Some r ->
  w_data dest `prefix_of` w_data (zr_dest r).
Proof.
  unfold Zlib.oml_zlib_def, Zlib.oml_zlib_inf. intros [Hrun | Hrun].
  - destruct (deflateInit2 level WINDOWBITS) as [ret st].
    destruct (negb _); [by injection Hrun as <-|]. by eapply def_outer_grows.
  - destruct (inflateInit2 WINDOWBITS) as [ret st].
    destruct (negb _); [by injection Hrun as <-|]. by eapply inf_outer_grows.
Qed.

(** What the inner loop of [oml_zlib_def] ends with is the value of the
    last call of [deflate]; an exit from inside it is no success. *)
Lemma def_inner_last fuel : forall strm flush dest calls,
  match def_inner fuel strm flush dest calls with
  | Some (inl r) => zr_ret r <> Z_OK
  | Some (inr (ret, _, _, calls')) => last calls' = Some ret
  | None => True
  end.
Proof.
  induction fuel as [|fuel IH]; intros strm flush dest calls; [done|].
  cbn [Zlib.def_inner].
  destruct (_ =? Z_STREAM_ERROR) eqn:Herr.
  { apply Z.eqb_eq in Herr. unfold early. cbn [zr_ret]. by rewrite Herr. }
  destruct (fwrite _ _) as [dest'|]; [|done].
  destruct (_ =? 0)%nat; [apply IH|]. by rewrite last_snoc.
Qed.

Lemma def_outer_ok fuel : forall strm source dest calls r,
  def_outer fuel strm source dest calls = Some r ->
  zr_ret r = Z_OK ->
  zr_loop r = Some Z_STREAM_END /\ last (zr_calls r) = Some Z_STREAM_END.
Proof.
  induction fuel as [|fuel IH]; intros strm source dest calls r; [done|].
  cbn [Zlib.def_outer].
  destruct (fread CHUNK source) as [[bytes source'] error].
  destruct error; [by intros [= <-]|].
  match goal with |- context [def_inner fuel ?s ?f dest calls] =>
    pose proof (def_inner_last fuel s f dest calls) as Hin;
    destruct (def_inner fuel s f dest calls) as [[r'|[[[ret' strm'] dest'] calls']]|]
  end; [| |done].
  - by intros [= <-] Hok.
  - destruct (negb (avail_in strm' =? 0)%nat); [by intros [= <-]|].
    destruct (negb (_ =? Z_FINISH)); [apply IH|].
    destruct (negb (ret' =? Z_STREAM_END)) eqn:Hend; [by intros [= <-]|].
    apply negb_false_iff, Z.eqb_eq in Hend. subst ret'. by intros [= <-].
Qed.

(** X3: [oml_zlib_def] returns [Z_OK] only when it left its loop after a
    call of [deflate] that answered [Z_STREAM_END], that is when the stream
    it wrote is complete; every other way out gives an error code. *)
Theorem oml_zlib_def_ok_only_at_stream_end fuel source dest level r :
  oml_zlib_def fuel source dest level = Some r ->
  zr_ret r = Z_OK ->
  zr_loop r = Some Z_STREAM_END /\ last (zr_calls r) = Some Z_STREAM_END.
Proof.
  unfold Zlib.oml_zlib_def.
  destruct (deflateInit2 level WINDOWBITS) as [ret st].
  destruct (negb (ret =? Z_OK)) eqn:Hinit.
  - intros [= <-]. cbn. apply negb_true_iff, Z.eqb_neq in Hinit. done.
  - apply def_outer_ok.
Qed.

End ZlibFacts.

(** *** Searching for a marker *)

Section FindSync.
Import Zlib.

Lemma starts_with_length needle hay :
  starts_with needle hay = true -> (length needle <= length hay)%nat.
Proof.
  revert hay. induction needle as [|n needle IH]; intros [|h hay]; cbn; try done; try lia.
  intros [_ Hrest]%andb_prop. apply IH in Hrest. lia.
Qed.

Lemma memmem_some hay needle i :
  memmem hay needle = Some i ->
  starts_with needle (drop i hay) = true
  /\ forall j, (j < i)%nat -> starts_with needle (drop j hay) = false.
Proof.
  revert i. induction hay as [|h hay IH]; intros i.
  - cbn [memmem]. destruct (starts_with needle []) eqn:Hs; [|done].
    intros [= <-]. split; [done|]. lia.
  - cbn [memmem]. destruct (starts_with needle (h :: hay)) eqn:Hs.
    + intros [= <-]. split; [done|]. lia.
    + destruct (memmem hay needle) as [i'|] eqn:Hm; [|done].
      intros [= <-]. destruct (IH i' eq_refl) as [Hat Hbefore].
      split; [done|]. intros [|j] Hj; [done|]. apply Hbefore. lia.
Qed.

Lemma memmem_none hay needle :
  memmem hay needle = None -> forall j, starts_with needle (drop j hay) = false.
Proof.
  induction hay as [|h hay IH].
  - cbn [memmem]. destruct (starts_with needle []) eqn:Hs; [done|].
    intros _ j. by rewrite drop_nil.
  - cbn [memmem]. destruct (starts_with needle (h :: hay)) eqn:Hs; [done|].
    destruct (memmem hay needle) as [i'|] eqn:Hm; [done|].
    intros _ [|j]; [done|]. by apply IH.
Qed.

Lemma memmem_bound hay needle : forall i,
  memmem hay needle = Some i -> (i + length needle <= length hay)%nat.
Proof.
  induction hay as [|h hay IH]; intros i.
  - cbn [memmem]. destruct (starts_with needle []) eqn:Hs; [|done].
    intros [= <-]. by apply starts_with_length in Hs.
  - cbn [memmem]. destruct (starts_with needle (h :: hay)) eqn:Hs.
    + intros [= <-]. by apply starts_with_length in Hs.
    + destruct (memmem hay needle) as [i'|] eqn:Hm; [|done].
      intros [= <-]. specialize (IH i' eq_refl). cbn [length]. lia.
Qed.

(** The two markers differ in their first byte. *)
Lemma markers_apart hay :
  starts_with gziphdr hay = true -> starts_with blockhdr hay = true -> False.
Proof.
  destruct hay as [|h hay]; [done|]. unfold gziphdr, blockhdr. cbn [starts_with].
  intros [H31 _]%andb_prop [H0 _]%andb_prop.
  apply Z.eqb_eq in H31, H0. lia.
Qed.


End FindSync.

(** *** Deflate, then inflate *)

Section RoundTrip.
Import Zlib.

Context `{ZlibImpl}.
Variable CHUNK : nat.
Variable WINDOWBITS : Z.
Variable level : Z.
Variable spec : ZlibSpec level WINDOWBITS.
Hypothesis CHUNK_pos : (0 < CHUNK)%nat.

Local Abbreviation def_inner := (def_inner CHUNK).
Local Abbreviation def_outer := (def_outer CHUNK).
Local Abbreviation inf_inner := (inf_inner CHUNK).
Local Abbreviation inf_outer := (inf_outer CHUNK).

Lemma fwrite_no_error bytes dest :
  w_error_in dest = None ->
  fwrite bytes dest = Some {| w_data := w_data dest ++ bytes; w_error_in := None |}.
Proof. unfold fwrite. by intros ->. Qed.

Lemma fread_no_error n source :
  r_error_in source = None ->
  fread n source =
    (take n (r_rest source),
     {| r_rest := drop n (r_rest source);
        r_eof := r_eof source || (length (r_rest source) <? n)%nat;
        r_error_in := None |}, false).
Proof. unfold fread. by intros ->. Qed.

(** The inner loop of [oml_zlib_def] takes all the input it is given and
    writes what [deflate] gives out; with [Z_FINISH] it ends on
    [Z_STREAM_END], the destination then holding a complete stream. *)
Lemma def_inner_runs w : forall strm dest flush c calls,
  (dwork _ _ spec (zstate strm) (next_in strm) flush <= w)%nat ->
  dinv _ _ spec (zstate strm) c (w_data dest) ->
  (dclosed _ _ spec (zstate strm) -> next_in strm = []) ->
  flush = Z_NO_FLUSH \/ flush = Z_FINISH ->
  w_error_in dest = None ->
  exists fuel0 ret strm' dest' calls',
    (forall fuel, (fuel0 <= fuel)%nat ->
       def_inner fuel strm flush dest calls = Some (inr (ret, strm', dest', calls')))
    /\ next_in strm' = [] /\ w_error_in dest' = None
    /\ dinv _ _ spec (zstate strm') (c ++ next_in strm) (w_data dest')
    /\ (flush = Z_FINISH ->
        ret = Z_STREAM_END /\ encodes _ _ spec (c ++ next_in strm) (w_data dest'))
    /\ (flush = Z_NO_FLUSH -> ~ dclosed _ _ spec (zstate strm) ->
        ~ dclosed _ _ spec (zstate strm')).
Proof.
  induction w as [w IH] using lt_wf_ind.
  intros strm dest flush c calls Hw Hinv Hclosed Hflush Hdest.
  pose proof (deflate_step _ _ spec (zstate strm) c (w_data dest) (next_in strm)
                flush CHUNK Hinv Hclosed Hflush CHUNK_pos) as Hpost.
  set (r := deflate (zstate strm) (next_in strm) flush CHUNK) in *.
  destruct Hpost as (Hk & Ho & Hret & Hinv' & Hclosed' & Hopen & Hroom & Hfull & Hend).
  set (strm1 := after_call (reset_output CHUNK strm) r).
  set (dest1 := {| w_data := w_data dest ++ zc_produced r; w_error_in := None |}).
  assert (Hstep : forall fuel,
    def_inner (S fuel) strm flush dest calls =
      if (length (zc_produced r) =? CHUNK)%nat
      then def_inner fuel strm1 flush dest1 (calls ++ [zc_ret r])
      else Some (inr (zc_ret r, strm1, dest1, calls ++ [zc_ret r]))).
  { intros fuel. cbn [Zlib.def_inner reset_output zstate next_in avail_out].
    fold r. fold strm1.
    apply Z.eqb_neq in Hret. rewrite Hret.
    assert (Hhave : take (CHUNK - avail_out strm1) (out_buf strm1) = zc_produced r).
    { subst strm1. cbn. rewrite take_ge; [done|]. lia. }
    rewrite Hhave, (fwrite_no_error _ _ Hdest). fold dest1.
    subst strm1. cbn [after_call reset_output avail_out].
    destruct (length (zc_produced r) =? CHUNK)%nat eqn:Hlen.
    - apply Nat.eqb_eq in Hlen. by replace (CHUNK - length (zc_produced r) =? 0)%nat
        with true by (symmetry; apply Nat.eqb_eq; lia).
    - apply Nat.eqb_neq in Hlen. by replace (CHUNK - length (zc_produced r) =? 0)%nat
        with false by (symmetry; apply Nat.eqb_neq; lia). }
  destruct (length (zc_produced r) =? CHUNK)%nat eqn:Hlen.
  - apply Nat.eqb_eq in Hlen. specialize (Hfull Hlen).
    destruct (IH (dwork _ _ spec (zstate strm1) (next_in strm1) flush)
                ltac:(subst strm1; cbn; lia) strm1 dest1 flush
                (c ++ take (zc_consumed r) (next_in strm)) (calls ++ [zc_ret r]))
      as (fuel0 & ret & strm' & dest' & calls' & Hrun & Hin & Herr & Hinv2 & Hfin & Hop);
      [done|done| |done|done|].
    { subst strm1. cbn. intros Hc. rewrite (Hclosed' Hc). by rewrite drop_all. }
    assert (Hjoin : (c ++ take (zc_consumed r) (next_in strm)) ++ next_in strm1
                    = c ++ next_in strm).
    { subst strm1. cbn. by rewrite <- app_assoc, take_drop. }
    rewrite Hjoin in Hinv2, Hfin.
    exists (S fuel0), ret, strm', dest', calls'. split_and!; try done.
    + intros [|fuel] Hge; [lia|]. rewrite Hstep. apply Hrun. lia.
    + intros Hnf Hnc. apply Hop; [done|]. subst strm1. cbn. by apply Hopen.
  - apply Nat.eqb_neq in Hlen.
    destruct Hroom as [Hall Hfin]; [lia|].
    exists 1%nat, (zc_ret r), strm1, dest1, (calls ++ [zc_ret r]). split_and!; try done.
    + intros [|fuel] Hge; [lia|]. by rewrite Hstep.
    + subst strm1. cbn. rewrite Hall. by rewrite drop_all.
    + rewrite Hall, firstn_all in Hinv'. done.
    + intros Hf. split; [by apply Hfin|]. apply Hend. by apply Hfin.
Qed.

(** The outer loop of [oml_zlib_def], on a source without read errors that
    has not hit its end yet: it returns [Z_OK], the destination holding a
    complete stream for what was taken before and what the source still
    had. *)
Lemma def_outer_runs m : forall strm source dest c calls,
  (length (r_rest source) <= m)%nat ->
  r_eof source = false -> r_error_in source = None -> w_error_in dest = None ->
  dinv _ _ spec (zstate strm) c (w_data dest) ->
  ~ dclosed _ _ spec (zstate strm) ->
  exists fuel0 dest' calls',
    (forall fuel, (fuel0 <= fuel)%nat ->
       def_outer fuel strm source dest calls =
         Some {| zr_ret := Z_OK; zr_dest := dest'; zr_loop := Some Z_STREAM_END;
                 zr_calls := calls' |})
    /\ w_error_in dest' = None
    /\ encodes _ _ spec (c ++ r_rest source) (w_data dest').
Proof.
  induction m as [m IH] using lt_wf_ind.
  intros strm source dest c calls Hm Heof Hsrc Hdest Hinv Hopen.
  set (bytes := take CHUNK (r_rest source)).
  set (last := (length (r_rest source) <? CHUNK)%nat).
  set (flush := if last then Z_FINISH else Z_NO_FLUSH).
  assert (Hflush : flush = Z_NO_FLUSH \/ flush = Z_FINISH)
    by (subst flush; destruct last; auto).
  destruct (def_inner_runs _ (set_input bytes strm) dest flush c calls (Nat.le_refl _))
    as (fuel_i & ret & strm1 & dest1 & calls1 & Hinner & Hin & Hdest1 & Hinv1 & Hfin
        & Hopen1);
    [done|done|done|done|].
  cbn [set_input next_in zstate] in Hinv1, Hfin, Hopen1.
  assert (Hstep : forall fuel, (fuel_i <= fuel)%nat ->
    def_outer (S fuel) strm source dest calls =
      if last then
        Some {| zr_ret := Z_OK; zr_dest := dest1; zr_loop := Some Z_STREAM_END;
                zr_calls := calls1 |}
      else
        def_outer fuel strm1
          {| r_rest := drop CHUNK (r_rest source); r_eof := false; r_error_in := None |}
          dest1 calls1).
  { intros fuel Hge. cbn [Zlib.def_outer].
    rewrite (fread_no_error _ _ Hsrc), Heof. cbn [feof r_eof orb].
    fold last bytes flush. rewrite (Hinner fuel Hge).
    unfold avail_in. rewrite Hin. cbn [length Nat.eqb negb].
    subst flush. destruct last; [|done].
    destruct Hfin as [-> _]; done. }
  destruct last eqn:Hlast; subst last.
  - apply Nat.ltb_lt in Hlast.
    exists (S fuel_i), dest1, calls1. split_and!; [|done|].
    + intros [|fuel] Hge; [lia|]. apply Hstep. lia.
    + destruct Hfin as [_ Henc]; [done|].
      subst bytes. by rewrite take_ge in Henc by lia.
  - apply Nat.ltb_ge in Hlast.
    destruct (IH (length (drop CHUNK (r_rest source)))
                ltac:(rewrite length_drop; lia) strm1
                {| r_rest := drop CHUNK (r_rest source); r_eof := false;
                   r_error_in := None |} dest1 (c ++ bytes) calls1)
      as (fuel_o & dest' & calls' & Houter & Hdest' & Henc); try done.
    { by apply Hopen1. }
    exists (S (fuel_i `max` fuel_o)), dest', calls'. split_and!; [|done|].
    + intros [|fuel] Hge; [lia|]. rewrite Hstep by lia. apply Houter. lia.
    + cbn [r_rest] in Henc. subst bytes.
      by rewrite <- app_assoc, take_drop in Henc.
Qed.

(** [oml_zlib_def] on a source without read errors, into a destination
    without write errors: [Z_OK], and a complete stream for the bytes of
    the source. *)
Lemma oml_zlib_def_runs bytes :
  exists fuel0 stream calls,
    (forall fuel, (fuel0 <= fuel)%nat ->
       oml_zlib_def CHUNK WINDOWBITS fuel (file_of bytes) empty_file level =
         Some {| zr_ret := Z_OK;
                 zr_dest := {| w_data := stream; w_error_in := None |};
                 zr_loop := Some Z_STREAM_END; zr_calls := calls |})
    /\ encodes _ _ spec bytes stream.
Proof.
  destruct (deflate_init _ _ spec) as (st & Hinit & Hinv & Hopen).
  destruct (def_outer_runs _
              {| next_in := []; out_buf := []; avail_out := 0; zstate := st |}
              (file_of bytes) empty_file [] [] (Nat.le_refl _))
    as (fuel0 & dest' & calls & Hrun & Hdest & Henc); try done.
  destruct dest' as [stream err]. cbn in Hdest. subst err.
  exists fuel0, stream, calls. split; [|done].
  intros fuel Hge. unfold Zlib.oml_zlib_def. rewrite Hinit. cbn [negb Z.eqb Z_OK].
  by apply Hrun.
Qed.

(** The inner loop of [oml_zlib_inf] on bytes of a complete stream: no
    resynchronisation takes place, what [inflate] gives out is written, and
    the loop ends either on [Z_STREAM_END] with all of the data written, or
    with all of its input taken and more of the stream to come. *)
Lemma inf_inner_runs m : forall strm dest s e p q rest calls,
  encodes _ _ spec s e ->
  (length s - q <= m)%nat ->
  iinv _ _ spec s e (zstate strm) p q ->
  drop p e = next_in strm ++ rest ->
  w_data dest = take q s -> w_error_in dest = None ->
  exists fuel0 ret strm' dest' p' q' calls',
    (forall fuel, (fuel0 <= fuel)%nat ->
       inf_inner fuel strm 0 dest calls = Some (inr (ret, strm', 0, dest', calls')))
    /\ w_data dest' = take q' s /\ w_error_in dest' = None
    /\ iinv _ _ spec s e (zstate strm') p' q'
    /\ drop p' e = next_in strm' ++ rest
    /\ (ret = Z_STREAM_END -> q' = length s)
    /\ (ret <> Z_STREAM_END -> next_in strm' = [] /\ (p' < length e)%nat).
Proof.
  induction m as [m IH] using lt_wf_ind.
  intros strm dest s e p q rest calls Henc Hm Hinv Hdrop Hdata Hdest.
  pose proof (inflate_step _ _ spec s e (zstate strm) p q (next_in strm) rest CHUNK
                Henc Hinv Hdrop CHUNK_pos) as Hpost.
  set (r := inflate (zstate strm) (next_in strm) Z_NO_FLUSH CHUNK) in *.
  destruct Hpost as (Hk & Ho & Htake & Hq & Hinv' & Hret & Hend & Hroom).
  set (strm1 := after_call (reset_output CHUNK strm) r).
  set (dest1 := {| w_data := w_data dest ++ zc_produced r; w_error_in := None |}).
  assert (Hcodes : (zc_ret r =? Z_STREAM_ERROR) = false
                   /\ (zc_ret r =? Z_MEM_ERROR) = false
                   /\ (zc_ret r =? Z_NEED_DICT) || (zc_ret r =? Z_DATA_ERROR) = false).
  { by destruct Hret as [-> | [-> | ->]]. }
  destruct Hcodes as (Hc1 & Hc2 & Hc3).
  assert (Hstep : forall fuel,
    inf_inner (S fuel) strm 0 dest calls =
      if (length (zc_produced r) =? CHUNK)%nat
      then inf_inner fuel strm1 0 dest1 (calls ++ [zc_ret r])
      else Some (inr (zc_ret r, strm1, 0, dest1, calls ++ [zc_ret r]))).
  { intros fuel. cbn [Zlib.inf_inner]. change (0 =? 0) with true.
    cbn [reset_output zstate next_in avail_out]. fold r. fold strm1.
    rewrite Hc1, Hc2, Hc3.
    assert (Hhave : (CHUNK - avail_out strm1)%nat = length (zc_produced r)).
    { subst strm1. cbn. lia. }
    rewrite Hhave.
    assert (Hout : take (length (zc_produced r)) (out_buf strm1) = zc_produced r).
    { subst strm1. cbn. by rewrite firstn_all. }
    rewrite Hout, (fwrite_no_error _ _ Hdest). fold dest1.
    replace (if (0 <? length (zc_produced r))%nat then 0 else 0) with 0
      by (by destruct (0 <? _)%nat).
    change (negb (0 =? 0)) with false. rewrite orb_false_r.
    subst strm1. cbn [after_call reset_output avail_out].
    destruct (length (zc_produced r) =? CHUNK)%nat eqn:Hlen.
    - apply Nat.eqb_eq in Hlen. by replace (CHUNK - length (zc_produced r) =? 0)%nat
        with true by (symmetry; apply Nat.eqb_eq; lia).
    - apply Nat.eqb_neq in Hlen. by replace (CHUNK - length (zc_produced r) =? 0)%nat
        with false by (symmetry; apply Nat.eqb_neq; lia). }
  assert (Hdrop1 : drop (p + zc_consumed r) e = next_in strm1 ++ rest).
  { subst strm1. cbn. rewrite <- drop_drop, Hdrop. by rewrite drop_app_le. }
  assert (Hdata1 : w_data dest1 = take (q + length (zc_produced r)) s).
  { subst dest1. cbn. by rewrite Hdata, Htake. }
  destruct (length (zc_produced r) =? CHUNK)%nat eqn:Hlen.
  - apply Nat.eqb_eq in Hlen.
    destruct (IH (length s - (q + length (zc_produced r)))%nat ltac:(lia)
                strm1 dest1 s e (p + zc_consumed r)%nat
                (q + length (zc_produced r))%nat rest (calls ++ [zc_ret r]))
      as (fuel0 & ret & strm' & dest' & p' & q' & calls' & Hrun & Hrest); try done.
    exists (S fuel0), ret, strm', dest', p', q', calls'. split; [|done].
    intros [|fuel] Hge; [lia|]. rewrite Hstep. apply Hrun. lia.
  - apply Nat.eqb_neq in Hlen.
    exists 1%nat, (zc_ret r), strm1, dest1, (p + zc_consumed r)%nat,
      (q + length (zc_produced r))%nat, (calls ++ [zc_ret r]).
    split_and!; try done.
    + intros [|fuel] Hge; [lia|]. by rewrite Hstep.
    + intros Hne. destruct (Hroom Hne ltac:(lia)) as [Hall Hlt]. split; [|done].
      subst strm1. cbn. rewrite Hall. by rewrite drop_all.
Qed.

(** The outer loop of [oml_zlib_inf] on what is left of a complete stream:
    it returns [Z_OK] with the data in the destination. *)
Lemma inf_outer_runs m : forall strm ret source dest s e p q calls,
  encodes _ _ spec s e ->
  (length e - p <= m)%nat -> (p < length e)%nat ->
  iinv _ _ spec s e (zstate strm) p q ->
  r_rest source = drop p e -> r_error_in source = None ->
  w_data dest = take q s -> w_error_in dest = None ->
  exists fuel0 calls',
    forall fuel, (fuel0 <= fuel)%nat ->
      inf_outer fuel strm ret 0 source dest calls =
        Some {| zr_ret := Z_OK;
                zr_dest := {| w_data := s; w_error_in := None |};
                zr_loop := Some Z_STREAM_END; zr_calls := calls' |}.
Proof.
  induction m as [m IH] using lt_wf_ind.
  intros strm ret source dest s e p q calls Henc Hm Hp Hinv Hsrc Herr Hdata Hdest.
  set (bytes := take CHUNK (r_rest source)).
  set (source1 := {| r_rest := drop CHUNK (r_rest source);
                     r_eof := r_eof source || (length (r_rest source) <? CHUNK)%nat;
                     r_error_in := None |}).
  assert (Hbytes : (length bytes =? 0)%nat = false).
  { apply Nat.eqb_neq. subst bytes. rewrite length_take, Hsrc, length_drop. lia. }
  destruct (inf_inner_runs _ (set_input bytes strm) dest s e p q
              (drop CHUNK (r_rest source)) calls Henc (Nat.le_refl _))
    as (fuel_i & ret' & strm1 & dest1 & p' & q' & calls1 & Hinner & Hdata1 & Hdest1
        & Hinv1 & Hdrop1 & Hend & Hmore); try done.
  { cbn. subst bytes. by rewrite take_drop. }
  assert (Hstep : forall fuel, (fuel_i <= fuel)%nat ->
    inf_outer (S fuel) strm ret 0 source dest calls =
      if negb (ret' =? Z_STREAM_END)
      then inf_outer fuel strm1 ret' 0 source1 dest1 calls1
      else Some {| zr_ret := if ret' =? Z_STREAM_END then Z_OK else Z_DATA_ERROR;
                   zr_dest := dest1; zr_loop := Some ret'; zr_calls := calls1 |}).
  { intros fuel Hge. cbn [Zlib.inf_outer].
    rewrite (fread_no_error _ _ Herr). fold bytes source1.
    by rewrite Hbytes, (Hinner fuel Hge). }
  destruct (ret' =? Z_STREAM_END) eqn:Hret.
  - apply Z.eqb_eq in Hret. subst ret'.
    exists (S fuel_i), calls1. intros [|fuel] Hge; [lia|]. rewrite Hstep by lia.
    cbn [negb]. do 2 f_equal. destruct dest1 as [data err]. cbn in *.
    subst err. rewrite Hdata1, (Hend eq_refl). by rewrite firstn_all.
  - apply Z.eqb_neq in Hret. destruct (Hmore Hret) as [Hin Hp'].
    rewrite Hin in Hdrop1. cbn [app] in Hdrop1.
    assert (Hadv : (p < p')%nat).
    { assert (Hlen : length (drop p' e) = length (drop CHUNK (r_rest source)))
        by (by rewrite Hdrop1).
      rewrite Hsrc, !length_drop in Hlen. lia. }
    destruct (IH (length e - p')%nat ltac:(lia) strm1 ret' source1 dest1 s e p' q'
                calls1)
      as (fuel_o & calls' & Houter); try done.
    exists (S (fuel_i `max` fuel_o)), calls'. intros [|fuel] Hge; [lia|].
    rewrite Hstep by lia. cbn [negb]. apply Houter. lia.
Qed.

(** [oml_zlib_inf] on a complete stream, without read or write errors:
    [Z_OK], and the data in the destination. *)
Lemma oml_zlib_inf_runs s e :
  encodes _ _ spec s e ->
  exists fuel0 calls,
    forall fuel, (fuel0 <= fuel)%nat ->
      oml_zlib_inf CHUNK WINDOWBITS fuel (file_of e) empty_file =
        Some {| zr_ret := Z_OK;
                zr_dest := {| w_data := s; w_error_in := None |};
                zr_loop := Some Z_STREAM_END; zr_calls := calls |}.
Proof.
  intros Henc.
  destruct (inflate_init _ _ spec) as (st & Hinit & Hinv).
  pose proof (encodes_nonempty _ _ spec s e Henc) as Hne.
  destruct (inf_outer_runs _
              {| next_in := []; out_buf := []; avail_out := 0; zstate := st |}
              Z_OK (file_of e) empty_file s e 0%nat 0%nat [] Henc (Nat.le_refl _))
    as (fuel0 & calls & Hrun); try done.
  { destruct e; [done|]. cbn. lia. }
  { by apply Hinv. }
  exists fuel0, calls. intros fuel Hge. unfold Zlib.oml_zlib_inf. rewrite Hinit.
  cbn [negb Z.eqb Z_OK]. by apply Hrun.
Qed.


End RoundTrip.

(** *** The stored codec meets [ZlibSpec] *)

Section StoredCodec.
Import Zlib.

Lemma stored_encode_length bytes : length (stored_encode bytes) = (2 * length bytes)%nat.
Proof.
  induction bytes as [|b bytes IH]; [done|].
  change (stored_encode (b :: bytes)) with (1 :: b :: stored_encode bytes).
  cbn [length]. rewrite IH. lia.
Qed.

Lemma stored_encode_app a b : stored_encode (a ++ b) = stored_encode a ++ stored_encode b.
Proof. unfold stored_encode. by rewrite flat_map_app. Qed.

Lemma stored_deflate_post st c e input flush n :
  stored_dinv st c e -> (stored_dclosed st -> input = []) ->
  flush = Z_NO_FLUSH \/ flush = Z_FINISH -> (0 < n)%nat ->
  deflate_post stored_encodes stored_dinv stored_dclosed stored_dwork
    st c e input flush n (stored_deflate st input flush n).
Proof.
  unfold stored_dinv, stored_dclosed. intros Hinv Hclosed Hflush Hn.
  unfold deflate_post, stored_deflate. cbn [zc_ret zc_consumed zc_produced zc_state].
  set (finish := flush =? Z_FINISH).
  set (mark := if finish && negb (sd_finished st) then [0] else []).
  set (pending := sd_pending st ++ stored_encode input ++ mark).
  assert (Hall : e ++ pending
                 = stored_encode (c ++ input)
                   ++ (if sd_finished st || finish then [0] else [])).
  { subst pending mark. rewrite app_assoc, Hinv, stored_encode_app.
    destruct (sd_finished st) eqn:Hfin; cbn [orb andb negb].
    - rewrite (Hclosed eq_refl). cbn. by rewrite andb_false_r, !app_nil_r.
    - rewrite andb_true_r, app_nil_r. by rewrite <- app_assoc. }
  rewrite firstn_all, length_take.
  split_and!.
  - done.
  - lia.
  - repeat case_match; done.
  - unfold stored_dinv. cbn [sd_pending sd_finished].
    by rewrite <- app_assoc, take_drop.
  - done.
  - intros -> Hopen. cbn [sd_finished]. subst finish.
    change (Z_NO_FLUSH =? Z_FINISH) with false. rewrite orb_false_r. done.
  - intros Hroom. split; [done|]. intros ->. subst finish.
    change (Z_FINISH =? Z_FINISH) with true. rewrite orb_true_r. cbn [andb].
    by replace (length pending <=? n)%nat with true
      by (symmetry; apply Nat.leb_le; lia).
  - intros Hfull. unfold stored_dwork. cbn [sd_pending sd_finished].
    rewrite length_drop, drop_all. cbn [length].
    assert (Hlen : length pending
                   = (length (sd_pending st) + 2 * length input + length mark)%nat).
    { subst pending. rewrite !length_app, stored_encode_length. lia. }
    fold finish. subst mark.
    destruct finish, (sd_finished st); cbn in *; lia.
  - intros Hend. unfold stored_encodes.
    destruct (sd_finished st || finish) eqn:Hfin; cbn [andb] in Hend.
    2:{ by destruct (length pending =? 0)%nat. }
    destruct (length pending <=? n)%nat eqn:Hle.
    2:{ by destruct (length pending =? 0)%nat. }
    apply Nat.leb_le in Hle. by rewrite take_ge by lia.
Qed.

Lemma stored_encode_cons b bytes :
  stored_encode (b :: bytes) = 1 :: b :: stored_encode bytes.
Proof. reflexivity. Qed.

(** Reading a part of a stream from its start. *)
Lemma stored_parse_tag t : forall input rest,
  stored_encode t ++ [0] = input ++ rest ->
  exists mode j,
    stored_parse AtTag input = (mode, take j t, length input)
    /\ stored_at t mode (length input) j.
Proof.
  induction t as [|b t IH]; intros input rest Heq.
  - destruct input as [|x input].
    + exists AtTag, 0%nat. by cbn.
    + cbn in Heq. injection Heq as <- Hnil.
      symmetry in Hnil. apply app_eq_nil in Hnil as [-> _].
      exists AtEnd, 0%nat. by cbn.
  - rewrite stored_encode_cons in Heq.
    destruct input as [|x [|y input]].
    + exists AtTag, 0%nat. cbn. split; [done|]. split; lia.
    + cbn in Heq. injection Heq as <- _.
      exists AtByte, 0%nat. cbn. split; [done|]. split; lia.
    + cbn in Heq. injection Heq as <- <- Heq.
      destruct (IH input rest Heq) as (mode & j & Hparse & Hat).
      exists mode, (S j). cbn [stored_parse]. change (1 =? 1) with true.
      cbn iota. rewrite Hparse. cbn [take length]. split; [done|].
      destruct mode; cbn in *; lia.
Qed.

Lemma stored_encode_drop s d :
  (d <= length s)%nat ->
  drop (2 * d) (stored_encode s ++ [0]) = stored_encode (drop d s) ++ [0].
Proof.
  revert d. induction s as [|b s IH]; intros d Hd.
  - cbn in Hd. by replace d with 0%nat by lia.
  - destruct d as [|d]; [done|].
    rewrite stored_encode_cons. replace (2 * S d)%nat with (S (S (2 * d))) by lia.
    cbn [drop app]. apply IH. cbn in Hd. lia.
Qed.

(** Reading the next part of a stream from wherever the reader stands. *)
Lemma stored_parse_next s mode p d input rest :
  stored_at s mode p d ->
  drop p (stored_encode s ++ [0]) = input ++ rest ->
  exists mode' d',
    stored_parse mode input = (mode', take (d' - d) (drop d s), length input)
    /\ (d <= d')%nat /\ stored_at s mode' (p + length input) d'.
Proof.
  intros Hat Hdrop. destruct mode; unfold stored_at in Hat.
  - destruct Hat as [-> Hd]. rewrite stored_encode_drop in Hdrop by done.
    destruct (stored_parse_tag _ _ _ Hdrop) as (mode' & j & Hparse & Hat').
    exists mode', (d + j)%nat. replace (d + j - d)%nat with j by lia.
    split; [done|]. split; [lia|].
    pose proof (length_drop s d). destruct mode'; cbn in *; lia.
  - destruct Hat as [-> Hd].
    rewrite <- drop_drop, stored_encode_drop in Hdrop by lia.
    destruct (drop d s) as [|b t] eqn:Ht.
    { apply (f_equal length) in Ht. rewrite length_drop in Ht. cbn in Ht. lia. }
    rewrite stored_encode_cons in Hdrop. cbn [drop app] in Hdrop.
    assert (Hlen : length t = (length s - d - 1)%nat).
    { apply (f_equal length) in Ht. rewrite length_drop in Ht. cbn in Ht. lia. }
    destruct input as [|x input].
    + exists AtByte, d. replace (d - d)%nat with 0%nat by lia. cbn.
      split; [done|]. split; [lia|]. split; lia.
    + cbn in Hdrop. injection Hdrop as <- Hdrop.
      destruct (stored_parse_tag _ _ _ Hdrop) as (mode' & j & Hparse & Hat').
      exists mode', (d + S j)%nat. replace (d + S j - d)%nat with (S j) by lia.
      cbn [stored_parse]. rewrite Hparse. cbn [take length]. split; [done|].
      split; [lia|]. destruct mode'; cbn in *; lia.
  - destruct Hat as [-> ->].
    rewrite drop_ge in Hdrop by (rewrite length_app, stored_encode_length; cbn; lia).
    symmetry in Hdrop. apply app_eq_nil in Hdrop as [-> _].
    exists AtEnd, (length s). replace (length s - length s)%nat with 0%nat by lia.
    cbn. split; [done|]. split; [lia|]. split; lia.
  - done.
Qed.

Lemma stored_at_bound s mode p d :
  stored_at s mode p d -> (d <= length s)%nat /\ (p <= 2 * length s + 1)%nat.
Proof. destruct mode; unfold stored_at; lia. Qed.

Lemma stored_inflate_post s e st p q input rest n :
  stored_encodes s e -> stored_iinv s e st p q ->
  drop p e = input ++ rest -> (0 < n)%nat ->
  inflate_post s e (stored_iinv s e) p q input n (stored_inflate st input Z_NO_FLUSH n).
Proof.
  intros _ (-> & d & Hqd & Hpend & Hat) Hdrop Hn.
  destruct (stored_parse_next _ _ _ _ _ _ Hat Hdrop) as (mode' & d' & Hparse & Hdd & Hat').
  destruct (stored_at_bound _ _ _ _ Hat') as [Hd' _].
  unfold inflate_post, stored_inflate. rewrite Hparse.
  cbn [zc_ret zc_consumed zc_produced zc_state].
  set (pending := si_pending st ++ take (d' - d) (drop d s)).
  assert (Hall : take q s ++ pending = take d' s).
  { subst pending. rewrite app_assoc, Hpend, take_take_drop. f_equal. lia. }
  assert (Hlen : length pending = (d' - q)%nat).
  { apply (f_equal length) in Hall. rewrite length_app, !length_take in Hall. lia. }
  set (o := take n pending).
  assert (Ho : length o = (n `min` (d' - q))%nat)
    by (subst o; rewrite length_take; lia).
  assert (Hout : take (q + length o) s = take q s ++ o).
  { replace (take (q + length o) s) with (take (q + length o) (take d' s))
      by (rewrite take_take; f_equal; lia).
    rewrite <- Hall. rewrite take_app_add' by (rewrite length_take; lia).
    f_equal. subst o. rewrite length_take.
    destruct (decide (n <= length pending)%nat); [by rewrite Nat.min_l|].
    rewrite Nat.min_r by lia. by rewrite !take_ge by lia. }
  split_and!.
  - done.
  - lia.
  - done.
  - lia.
  - split; [done|]. exists d'. split; [lia|]. split; [|done].
    cbn [si_pending si_mode]. rewrite Hout, <- app_assoc. subst o.
    by rewrite take_drop.
  - destruct mode'; [..|by destruct Hat']; repeat case_match; auto.
  - intros Hend. destruct mode'; [..|by destruct Hat']; try (repeat case_match; done).
    destruct (length pending <=? n)%nat eqn:Hle; [|done].
    apply Nat.leb_le in Hle. destruct Hat' as [_ ->]. lia.
  - intros Hne Hroom. split; [done|].
    rewrite length_app, stored_encode_length. cbn [length].
    destruct mode'; unfold stored_at in Hat'; try lia.
    replace (length pending <=? n)%nat with true in Hne
      by (symmetry; apply Nat.leb_le; lia).
    done.
Qed.

(** The stored codec is an implementation of [ZlibSpec], for compression
    level 6. *)
Lemma stored_spec windowBits : ZlibSpec 6 windowBits.
Proof.
  refine {| encodes := stored_encodes; dinv := stored_dinv; dclosed := stored_dclosed;
            dwork := stored_dwork; iinv := stored_iinv |}.
  - intros s e ->. by destruct (stored_encode s).
  - eexists. split; [reflexivity|]. split; [reflexivity|]. unfold stored_dclosed. done.
  - intros. by apply stored_deflate_post.
  - eexists. split; [reflexivity|]. intros s e ->. split; [done|].
    exists 0%nat. cbn. split; [lia|]. split; [done|]. lia.
  - intros. by eapply stored_inflate_post.
Defined.

End StoredCodec.

Section ZlibExamples.
Import Zlib.


(** A stream cut before its end: the loop is left at the end of the file
    with [ret] still [Z_OK], the value of the last call of [inflate], and
    the helper answers [Z_DATA_ERROR]. *)
Example oml_zlib_inf_truncated :
  (fun r => (zr_ret r, w_data (zr_dest r), zr_loop r, last (zr_calls r)))
    <$> oml_zlib_inf 4 31 20 (file_of [1; 65; 1; 66; 1; 67]) empty_file
  = Some (Z_DATA_ERROR, [65; 66; 67], Some Z_OK, Some Z_OK).
Proof. by vm_compute. Qed.


Lemma oml_zlib_inf_empty_source_witness :
  oml_zlib_inf 4 31 1 (file_of []) {| w_data := [7]; w_error_in := None |} =
    Some {| zr_ret := Z_DATA_ERROR;
            zr_dest := {| w_data := [7]; w_error_in := None |};
            zr_loop := Some Z_OK; zr_calls := [] |}.
Proof.
  apply (oml_zlib_inf_empty_source (H := stored_codec) 4 31 0
           {| si_mode := AtTag; si_pending := [] |});
    reflexivity.
Defined.

Lemma zlib_helpers_only_append_witness :
  exists r,
    oml_zlib_inf 4 31 20 (file_of [1; 65; 1; 66; 0])
      {| w_data := [7]; w_error_in := None |} = Some r
    /\ [7] `prefix_of` w_data (zr_dest r).
Proof.
  eexists. split; [reflexivity|].
  apply (zlib_helpers_only_append (H := stored_codec) 4 31 20
           (file_of [1; 65; 1; 66; 0]) {| w_data := [7]; w_error_in := None |} 6).
  right. reflexivity.
Defined.

Lemma oml_zlib_def_ok_only_at_stream_end_witness :
  exists r,
    oml_zlib_def 4 31 20 (file_of [65; 66]) empty_file 6 = Some r
    /\ zr_loop r = Some Z_STREAM_END /\ last (zr_calls r) = Some Z_STREAM_END.
Proof.
  eexists. split; [reflexivity|].
  apply (oml_zlib_def_ok_only_at_stream_end (H := stored_codec) 4 31 20
           (file_of [65; 66]) empty_file 6); reflexivity.
Defined.

End ZlibExamples.
